(** * KinematicWaveRengers: a shallow embedding of
    landlab/components/overland_flow/kinematic_wave_rengers.py

    The component is written against numpy.  Its numbers are IEEE-754
    binary64 values (numpy float64 and Python float), embedded here as Rocq's
    primitive floats, so that [+], [-], [*], [/], [sqrt], [fabs] and the
    comparisons are the ones the interpreter executes.  One-dimensional
    ndarrays are lists; an instance of the class is a record of its
    attributes; a Python exception is a value of [exn] carried by [result]. *)

From Stdlib Require Import ZArith Floats Lia String.
From stdpp Require Import base list strings.

Set Warnings "-inexact-float".
Set Default Proof Using "Type".

(** ** Exceptions and results *)

Inductive exn : Type :=
  | ValueError (msg : string)
  | TypeError
  | AttributeError (attr : string)
  | NameError (name : string)
  | IndexError.

Inductive result (A : Type) : Type :=
  | Ok (a : A)
  | Raise (e : exn).
Arguments Ok {A} a.
Arguments Raise {A} e.

#[global] Instance result_ret : MRet result := fun A a => Ok a.
#[global] Instance result_bind : MBind result := fun A B f m =>
  match m with
  | Ok a => f a
  | Raise e => Raise e
  end.
#[global] Instance result_fmap : FMap result := fun A B f m =>
  match m with
  | Ok a => Ok (f a)
  | Raise e => Raise e
  end.

(** the computation returns, with some value *)
Definition returns {A} (m : result A) : Prop := ∃ a, m = Ok a.

(** ** binary64 scalars *)

Module F.
Definition zero : float := 0%float.
Definition isfinite (x : float) : bool :=
  negb (PrimFloat.is_nan x) && negb (PrimFloat.is_infinity x).
Definition gtb (x y : float) : bool := PrimFloat.ltb y x.
Definition geb (x y : float) : bool := PrimFloat.leb y x.
End F.

(** numpy's [maximum] and [minimum] ufunc loops:
    [(in1 >= in2 || isnan(in1)) ? in1 : in2], and the same with [<=]. *)
Definition np_maximum (x y : float) : float :=
  if F.geb x y || PrimFloat.is_nan x then x else y.
Definition np_minimum (x y : float) : float :=
  if PrimFloat.leb x y || PrimFloat.is_nan x then x else y.

Definition np_fabs (x : float) : float := PrimFloat.abs x.
Definition np_sqrt (x : float) : float := PrimFloat.sqrt x.
Definition np_square (x : float) : float := PrimFloat.mul x x.

(** [np.isclose(a, b)] with the default [rtol=1e-05], [atol=1e-08]:
    [(|a - b| <= atol + rtol * |b|) & isfinite(b) | (a == b)]. *)
Definition rtol : float := 1e-05%float.
Definition atol : float := 1e-08%float.
Definition np_isclose (a b : float) : bool :=
  (PrimFloat.leb (np_fabs (a - b)) (atol + rtol * np_fabs b)
   && F.isfinite b)
  || PrimFloat.eqb a b.

(** ** ndarray indexing *)

Section ndarray.
Context {A : Type}.

(** An integer index into an axis of length [n]: negative indices count
    from the end, anything outside [-n, n) raises IndexError. *)
Definition normalize_index (n : nat) (i : Z) : result nat :=
  if ((i <? - Z.of_nat n) || (Z.of_nat n <=? i))%Z then Raise IndexError
  else Ok (Z.to_nat (if (i <? 0)%Z then i + Z.of_nat n else i)).

Fixpoint normalize_indices (n : nat) (idx : list Z) : result (list nat) :=
  match idx with
  | [] => Ok []
  | i :: idx' =>
      k ← normalize_index n i;
      ks ← normalize_indices n idx';
      Ok (k :: ks)
  end.

(** [a[i]] *)
Definition getitem (a : list A) (i : Z) : result A :=
  k ← normalize_index (length a) i;
  match a !! k with
  | Some x => Ok x
  | None => Raise IndexError
  end.

(** [a[idx]] for an integer index array: a fresh array *)
Fixpoint take (a : list A) (idx : list Z) : result (list A) :=
  match idx with
  | [] => Ok []
  | i :: idx' =>
      x ← getitem a i;
      xs ← take a idx';
      Ok (x :: xs)
  end.

(** the elements of [a] under the [True] entries of [mask] *)
Fixpoint compress (mask : list bool) (a : list A) : list A :=
  match mask, a with
  | b :: mask', x :: a' =>
      if b then x :: compress mask' a' else compress mask' a'
  | _, _ => []
  end.

(** [a[mask]] for a boolean array, whose length has to be that of [a] *)
Definition take_mask (a : list A) (mask : list bool) : result (list A) :=
  if decide (length mask = length a) then Ok (compress mask a)
  else Raise IndexError.

(** assignment broadcasts a one-element right-hand side *)
Definition broadcast_to (n : nat) (v : list A) : result (list A) :=
  if decide (length v = n) then Ok v
  else match v with
       | [x] => Ok (replicate n x)
       | _ => Raise (ValueError "shape mismatch")
       end.

Fixpoint put_loop (a : list A) (ks : list nat) (vs : list A) : list A :=
  match ks, vs with
  | k :: ks', v :: vs' => put_loop (<[k:=v]> a) ks' vs'
  | _, _ => a
  end.

(** [a[idx] = vals], in place *)
Definition put (a : list A) (idx : list Z) (vals : list A)
  : result (list A) :=
  ks ← normalize_indices (length a) idx;
  vs ← broadcast_to (length ks) vals;
  Ok (put_loop a ks vs).

(** [a[idx] = v] for a scalar [v] *)
Definition put_scalar (a : list A) (idx : list Z) (v : A)
  : result (list A) :=
  put a idx [v].
End ndarray.

(** [np.where(mask)[0]] *)
Fixpoint where_from (k : Z) (mask : list bool) : list Z :=
  match mask with
  | [] => []
  | b :: mask' =>
      if b then k :: where_from (k + 1) mask' else where_from (k + 1) mask'
  end.
Definition np_where (mask : list bool) : list Z := where_from 0 mask.

(** [a[mask] = vals], in place *)
Definition put_mask {A} (a : list A) (mask : list bool) (vals : list A)
  : result (list A) :=
  if decide (length mask = length a) then put a (np_where mask) vals
  else Raise IndexError.

(** ** elementwise arithmetic *)

Definition broadcast_error : exn :=
  ValueError "operands could not be broadcast together".

(** [a op b] on two arrays *)
Definition arr2 {A B C} (f : A → B → C) (a : list A) (b : list B)
  : result (list C) :=
  if decide (length a = length b) then Ok (zip_with f a b)
  else match a, b with
       | [x], _ => Ok (map (f x) b)
       | _, [y] => Ok (map (fun x => f x y) a)
       | _, _ => Raise broadcast_error
       end.

(** [a op= b]: the left operand keeps its shape *)
Definition arr2_inplace {A B} (f : A → B → A) (a : list A) (b : list B)
  : result (list A) :=
  if decide (length a = length b) then Ok (zip_with f a b)
  else match b with
       | [y] => Ok (map (fun x => f x y) a)
       | _ => Raise broadcast_error
       end.

(** [a.sum()] on a contiguous float64 array is the add reduction: it starts
    from the identity [0.0] and adds numpy's pairwise sum of the array,
    which groups the additions by the length [n] of the array.

    - [n < 8]: the elements are added from left to right.
    - [8 <= n <= 128]: eight partial sums start as the first eight elements,
      every further full group of eight is added to them slot by slot, the
      eight sums are added as [((r0+r1)+(r2+r3))+((r4+r5)+(r6+r7))], and the
      elements after the last full group are added to that one by one.
    - [n > 128]: the array is split at [n/2] rounded down to a multiple of
      eight, and the sums of the two parts are added. *)
Fixpoint sum_blocks (fuel : nat) (r a : list float)
  : list float * list float :=
  match fuel with
  | O => (r, a)
  | S fuel' =>
      if 8 <=? length a
      then sum_blocks fuel' (zip_with PrimFloat.add r (firstn 8 a))
             (skipn 8 a)
      else (r, a)
  end.

Definition sum_unrolled (a : list float) : float :=
  let '(r, rest) := sum_blocks (length a) (firstn 8 a) (skipn 8 a) in
  match r with
  | [r0; r1; r2; r3; r4; r5; r6; r7] =>
      fold_left PrimFloat.add rest
        (((r0 + r1) + (r2 + r3)) + ((r4 + r5) + (r6 + r7)))%float
  | _ => fold_left PrimFloat.add a F.zero
  end.

(** [fuel] bounds the depth of the splitting; the length of the array is
    enough, since both parts of a split are shorter than the whole. *)
Fixpoint pairwise_sum (fuel : nat) (a : list float) : float :=
  let n := length a in
  if n <? 8 then fold_left PrimFloat.add a F.zero
  else if n <=? 128 then sum_unrolled a
  else match fuel with
       | O => sum_unrolled a
       | S fuel' =>
           let n2 := n / 2 - (n / 2) mod 8 in
           (pairwise_sum fuel' (firstn n2 a)
            + pairwise_sum fuel' (skipn n2 a))%float
       end.

Definition np_sum (a : list float) : float :=
  (F.zero + pairwise_sum (length a) a)%float.

(** [a.max()]: a reduction with [np.maximum]; no identity for empty input *)
Definition np_max (a : list float) : result float :=
  match a with
  | [] => Raise (ValueError "zero-size array to reduction operation maximum")
  | x :: a' => Ok (fold_left np_maximum a' x)
  end.

(** ** The grid, as the component sees it *)

(** Modelled from the spec: the per-node boundary classification (the
    constants [BC_NODE_IS_CORE], [BC_NODE_IS_FIXED_VALUE], ... are attributes
    of the grid, whose class is not part of this component): "core/interior,
    fixed-value, fixed-gradient, closed/excluded". *)
Inductive node_status : Type :=
  | BC_NODE_IS_CORE
  | BC_NODE_IS_FIXED_VALUE
  | BC_NODE_IS_FIXED_GRADIENT
  | BC_NODE_IS_CLOSED.

#[global] Instance node_status_eq_dec : EqDecision node_status.
Proof. solve_decision. Defined.

(** One row of [adjacent_nodes_at_node], an (N, 4) integer array. *)
Definition neighbor_row : Type := Z * Z * Z * Z.
Definition column (j : nat) (r : neighbor_row) : Z :=
  let '(c0, c1, c2, c3) := r in
  match j with
  | 0 => c0
  | 1 => c1
  | 2 => c2
  | _ => c3
  end.
Definition map_row (f : Z → Z) (r : neighbor_row) : neighbor_row :=
  let '(c0, c1, c2, c3) := r in (f c0, f c1, f c2, f c3).

(** What the component reads from [grid].  The two gradient arrays stand for
    [map_mean_of_horizontal_active_links_to_node(all_grads)] and
    [map_mean_of_vertical_active_links_to_node(all_grads)], where
    [all_grads] is the link gradient of "topographic__elevation": the grid
    computes them, the component only consumes them. *)
Record Grid : Type := {
  is_RasterModelGrid : bool;
  status_at_node : list node_status;
  dx : float;
  dy : float;
  BAD_INDEX : Z;
  adjacent_nodes_at_node : list neighbor_row;
  fixed_gradient_boundary_nodes : list Z;
  fixed_gradient_boundary_node_anchor_node : list Z;
  hoz_grads_at_node : list float;
  vert_grads_at_node : list float;
  surface_water__depth : list float;
  surface_water__velocity : list float;
  surface_water__discharge : list float
}.

Definition number_of_nodes (g : Grid) : nat := length (status_at_node g).

(** [grid.zeros("node", dtype=...)] *)
Definition grid_zeros {A} (g : Grid) (z : A) : list A :=
  replicate (number_of_nodes g) z.

(** ** The component instance *)

(** The attributes of a [KinematicWaveRengers] object.  [_h] is the grid's
    "surface_water__depth" array itself (the constructor stores a reference,
    not a copy), so the one field [_h] stands for both; likewise the two
    output fields of the grid.  [hnew] and [_internal_dt] are [None] as long
    as the attribute has not been assigned. *)
Record KinematicWaveRengers : Type := {
  grid : Grid;
  _h : list float;
  at_node_velocity : list float;
  at_node_discharge : list float;
  _active : list Z;
  _hc : float;
  _n : float;
  _negepsilon : float;
  dt_max : option float;
  min_surface_water_depth : float;
  _active_depths : list float;
  hozslopept5 : list float;
  vertslopept5 : list float;
  velx : list float;
  vely : list float;
  qy : list float;
  qx : list float;
  poshozgrads : list bool;
  posvertgrads : list bool;
  equaldims : bool;
  courant_prefactor : float;
  _neighbors : list neighbor_row;
  _water_balance : list float;
  actives_BCs : list bool;
  actives_BCs_water_depth : list float;
  fixed_grad_nodes_active : list Z;
  fixed_grad_anchors_active : list Z;
  hnew : option (list float);
  _internal_dt : option float
}.

(** attribute assignment *)
Definition set_hnew (v : list float) (s : KinematicWaveRengers) :=
  {| grid := grid s; _h := _h s; at_node_velocity := at_node_velocity s;
     at_node_discharge := at_node_discharge s; _active := _active s;
     _hc := _hc s; _n := _n s; _negepsilon := _negepsilon s;
     dt_max := dt_max s;
     min_surface_water_depth := min_surface_water_depth s;
     _active_depths := _active_depths s; hozslopept5 := hozslopept5 s;
     vertslopept5 := vertslopept5 s; velx := velx s; vely := vely s;
     qy := qy s; qx := qx s; poshozgrads := poshozgrads s;
     posvertgrads := posvertgrads s; equaldims := equaldims s;
     courant_prefactor := courant_prefactor s; _neighbors := _neighbors s;
     _water_balance := _water_balance s; actives_BCs := actives_BCs s;
     actives_BCs_water_depth := actives_BCs_water_depth s;
     fixed_grad_nodes_active := fixed_grad_nodes_active s;
     fixed_grad_anchors_active := fixed_grad_anchors_active s;
     hnew := Some v; _internal_dt := _internal_dt s |}.

Definition set_water_balance (v : list float) (s : KinematicWaveRengers) :=
  {| grid := grid s; _h := _h s; at_node_velocity := at_node_velocity s;
     at_node_discharge := at_node_discharge s; _active := _active s;
     _hc := _hc s; _n := _n s; _negepsilon := _negepsilon s;
     dt_max := dt_max s;
     min_surface_water_depth := min_surface_water_depth s;
     _active_depths := _active_depths s; hozslopept5 := hozslopept5 s;
     vertslopept5 := vertslopept5 s; velx := velx s; vely := vely s;
     qy := qy s; qx := qx s; poshozgrads := poshozgrads s;
     posvertgrads := posvertgrads s; equaldims := equaldims s;
     courant_prefactor := courant_prefactor s; _neighbors := _neighbors s;
     _water_balance := v; actives_BCs := actives_BCs s;
     actives_BCs_water_depth := actives_BCs_water_depth s;
     fixed_grad_nodes_active := fixed_grad_nodes_active s;
     fixed_grad_anchors_active := fixed_grad_anchors_active s;
     hnew := hnew s; _internal_dt := _internal_dt s |}.

(** the velocity and discharge arrays and the cached sub-step, as
    [calc_grads_and_timesteps] leaves them *)
Definition set_fluxes (vx vy q_y q_x : list float) (dt : float)
  (s : KinematicWaveRengers) :=
  {| grid := grid s; _h := _h s; at_node_velocity := at_node_velocity s;
     at_node_discharge := at_node_discharge s; _active := _active s;
     _hc := _hc s; _n := _n s; _negepsilon := _negepsilon s;
     dt_max := dt_max s;
     min_surface_water_depth := min_surface_water_depth s;
     _active_depths := _active_depths s; hozslopept5 := hozslopept5 s;
     vertslopept5 := vertslopept5 s; velx := vx; vely := vy;
     qy := q_y; qx := q_x; poshozgrads := poshozgrads s;
     posvertgrads := posvertgrads s; equaldims := equaldims s;
     courant_prefactor := courant_prefactor s; _neighbors := _neighbors s;
     _water_balance := _water_balance s; actives_BCs := actives_BCs s;
     actives_BCs_water_depth := actives_BCs_water_depth s;
     fixed_grad_nodes_active := fixed_grad_nodes_active s;
     fixed_grad_anchors_active := fixed_grad_anchors_active s;
     hnew := hnew s; _internal_dt := Some dt |}.

(** the three grid fields, as the end of [run_one_step] leaves them *)
Definition set_fields (h vel dis : list float) (s : KinematicWaveRengers) :=
  {| grid := grid s; _h := h; at_node_velocity := vel;
     at_node_discharge := dis; _active := _active s;
     _hc := _hc s; _n := _n s; _negepsilon := _negepsilon s;
     dt_max := dt_max s;
     min_surface_water_depth := min_surface_water_depth s;
     _active_depths := _active_depths s; hozslopept5 := hozslopept5 s;
     vertslopept5 := vertslopept5 s; velx := velx s; vely := vely s;
     qy := qy s; qx := qx s; poshozgrads := poshozgrads s;
     posvertgrads := posvertgrads s; equaldims := equaldims s;
     courant_prefactor := courant_prefactor s; _neighbors := _neighbors s;
     _water_balance := _water_balance s; actives_BCs := actives_BCs s;
     actives_BCs_water_depth := actives_BCs_water_depth s;
     fixed_grad_nodes_active := fixed_grad_nodes_active s;
     fixed_grad_anchors_active := fixed_grad_anchors_active s;
     hnew := hnew s; _internal_dt := _internal_dt s |}.

(** the slope caches that [update_topographic_params] always rewrites *)
Definition set_topography (hs vs : list float) (ph pv : list bool)
  (fgn fga : list Z) (s : KinematicWaveRengers) :=
  {| grid := grid s; _h := _h s; at_node_velocity := at_node_velocity s;
     at_node_discharge := at_node_discharge s; _active := _active s;
     _hc := _hc s; _n := _n s; _negepsilon := _negepsilon s;
     dt_max := dt_max s;
     min_surface_water_depth := min_surface_water_depth s;
     _active_depths := _active_depths s; hozslopept5 := hs;
     vertslopept5 := vs; velx := velx s; vely := vely s;
     qy := qy s; qx := qx s; poshozgrads := ph;
     posvertgrads := pv; equaldims := equaldims s;
     courant_prefactor := courant_prefactor s; _neighbors := _neighbors s;
     _water_balance := _water_balance s; actives_BCs := actives_BCs s;
     actives_BCs_water_depth := actives_BCs_water_depth s;
     fixed_grad_nodes_active := fgn;
     fixed_grad_anchors_active := fga;
     hnew := hnew s; _internal_dt := _internal_dt s |}.

(** the caches that [update_topographic_params] rebuilds when the active set
    has changed *)
Definition set_topology (act : list Z) (nb : list neighbor_row)
  (bcs : list bool) (bcd : list float) (s : KinematicWaveRengers) :=
  {| grid := grid s; _h := _h s; at_node_velocity := at_node_velocity s;
     at_node_discharge := at_node_discharge s; _active := act;
     _hc := _hc s; _n := _n s; _negepsilon := _negepsilon s;
     dt_max := dt_max s;
     min_surface_water_depth := min_surface_water_depth s;
     _active_depths := _active_depths s; hozslopept5 := hozslopept5 s;
     vertslopept5 := vertslopept5 s;
     velx := map (fun _ => F.zero) (velx s);
     vely := map (fun _ => F.zero) (vely s);
     qy := map (fun _ => F.zero) (qy s);
     qx := map (fun _ => F.zero) (qx s);
     poshozgrads := poshozgrads s;
     posvertgrads := posvertgrads s; equaldims := equaldims s;
     courant_prefactor := courant_prefactor s; _neighbors := nb;
     _water_balance := _water_balance s; actives_BCs := bcs;
     actives_BCs_water_depth := bcd;
     fixed_grad_nodes_active := fixed_grad_nodes_active s;
     fixed_grad_anchors_active := fixed_grad_anchors_active s;
     hnew := hnew s; _internal_dt := _internal_dt s |}.

(** ** Python scalars *)

(** A Python [float] and a numpy [float64] hold the same binary64 value, but
    only the latter has a [clip] method; arithmetic between the two yields a
    [float64]. *)
Inductive pyscalar : Type :=
  | PyFloat (x : float)
  | NpFloat64 (x : float).

Definition value (s : pyscalar) : float :=
  match s with
  | PyFloat x => x
  | NpFloat64 x => x
  end.

Definition py_sub (a b : pyscalar) : pyscalar :=
  match a, b with
  | PyFloat x, PyFloat y => PyFloat (x - y)
  | _, _ => NpFloat64 (value a - value b)
  end.

(** Python's builtin [min(a, b)]: the first argument unless the second is
    strictly smaller; the result is one of the two objects. *)
Definition py_min (a b : pyscalar) : pyscalar :=
  if PrimFloat.ltb (value b) (value a) then b else a.

(** [x.clip(lo)]: a [float64] method, [np.maximum(x, lo)]; a Python float
    has no such attribute. *)
Definition scalar_clip (x : pyscalar) (lo : float) : result float :=
  match x with
  | PyFloat _ => Raise (AttributeError "clip")
  | NpFloat64 v => Ok (np_maximum v lo)
  end.

(** The [rainfall_intensity] argument: "float or array (m/s)". *)
Inductive rainfall : Type :=
  | RainScalar (r : float)
  | RainArray (a : list float).

(** ** Module namespace *)

(** The module imports [np], [Component] and [RasterModelGrid]; none of the
    names it binds denotes a node status.  [update_topographic_params]
    refers to the global name [CLOSED_BOUNDARY]. *)
Definition module_globals : list (string * node_status) := [].

Fixpoint assoc (name : string) (env : list (string * node_status))
  : option node_status :=
  match env with
  | [] => None
  | (k, v) :: env' => if String.eqb k name then Some v else assoc name env'
  end.

Definition load_global (name : string) : result node_status :=
  match assoc name module_globals with
  | Some v => Ok v
  | None => Raise (NameError name)
  end.

(** ** Constructor arguments *)

Record Params : Type := {
  mannings_n : float;
  critical_flow_depth : float;
  mannings_epsilon : float;
  arg_dt_max : option float;
  max_courant : float;
  arg_min_surface_water_depth : float
}.

Definition default_params : Params :=
  {| mannings_n := 0.03; critical_flow_depth := 0.003;
     mannings_epsilon := 0.33333333; arg_dt_max := Some 0.3%float;
     max_courant := 0.2; arg_min_surface_water_depth := 1.0e-8 |}.

Definition config_error : exn :=
  ValueError "KinematicWaveRengers: dt must be > 0.0".

(** ** The methods of the class *)

Section KinematicWaveRengers.

(** numpy's [**] on float64 (the C library's [pow]); the component and
    everything proved of it are parametric in it. *)
Variable np_power : float → float → float.

Definition is_not (c : node_status) (s : node_status) : bool :=
  bool_decide (s ≠ c).
Definition is_status (c : node_status) (s : node_status) : bool :=
  bool_decide (s = c).

(** [np.fabs(grads[active]) ** 0.5] *)
Definition slopept5 (grads : list float) (active : list Z)
  : result (list float) :=
  ga ← take grads active;
  Ok (map (fun x => np_power (np_fabs x) 0.5) ga).

(** The positions, within [active], of the nodes listed in [nodes]:
    [blank_nodes[nodes] = True; np.where(blank_nodes[active])[0]]. *)
Definition positions_in_active (g : Grid) (nodes active : list Z)
  : result (list Z) :=
  blank_nodes ← put_scalar (grid_zeros g false) nodes true;
  marked ← take blank_nodes active;
  Ok (np_where marked).

(** [self._neighbors[self._neighbors == BAD_INDEX] = -1] on a copy of
    [adjacent_nodes_at_node] *)
Definition normalize_neighbors (g : Grid) : list neighbor_row :=
  map (map_row (fun j => if decide (j = BAD_INDEX g) then (-1)%Z else j))
      (adjacent_nodes_at_node g).

(** [KinematicWaveRengers.__init__].  The statement under
    [if not isinstance(grid, RasterModelGrid):] builds a ValueError and
    drops it (there is no [raise]), so neither branch of that test has an
    effect.  [np.isclose(None, 0.0)] is a TypeError. *)
Definition __init__ (g : Grid) (p : Params)
  : result KinematicWaveRengers :=
  let _ := if negb (is_RasterModelGrid g)
           then Some (ValueError "KinematicWaveRengers: grid must be regular")
           else None in
  dtm ← match arg_dt_max p with
        | None => Raise TypeError
        | Some d => Ok d
        end;
  if np_isclose dtm 0 then Raise config_error else
  let active := np_where (map (is_not BC_NODE_IS_CORE) (status_at_node g)) in
  let h := surface_water__depth g in
  active_depths ← take h active;
  let hoz_grads := hoz_grads_at_node g in
  let vert_grads := vert_grads_at_node g in
  hs ← slopept5 hoz_grads active;
  vs ← slopept5 vert_grads active;
  let eqd := np_isclose (dx g) (dy g) in
  status_active ← take (status_at_node g) active;
  let bcs := map (is_status BC_NODE_IS_FIXED_VALUE) status_active in
  h_active ← take h active;
  bcd ← take_mask h_active bcs;
  fgn ← positions_in_active g (fixed_gradient_boundary_nodes g) active;
  fga ← positions_in_active g
          (fixed_gradient_boundary_node_anchor_node g) active;
  Ok {| grid := g;
        _h := h;
        at_node_velocity := surface_water__velocity g;
        at_node_discharge := surface_water__discharge g;
        _active := active;
        _hc := critical_flow_depth p;
        _n := mannings_n p;
        _negepsilon := - mannings_epsilon p;
        dt_max := arg_dt_max p;
        min_surface_water_depth := arg_min_surface_water_depth p;
        _active_depths := active_depths;
        hozslopept5 := hs;
        vertslopept5 := vs;
        velx := grid_zeros g F.zero;
        vely := grid_zeros g F.zero;
        qy := replicate (number_of_nodes g + 1) F.zero;
        qx := replicate (number_of_nodes g + 1) F.zero;
        poshozgrads := map (fun x => F.gtb x 0) hoz_grads;
        posvertgrads := map (fun x => F.gtb x 0) vert_grads;
        equaldims := eqd;
        courant_prefactor :=
          (if eqd then max_courant p * dx g
           else max_courant p * dx g * dy g)%float;
        _neighbors := normalize_neighbors g;
        _water_balance := [];
        actives_BCs := bcs;
        actives_BCs_water_depth := bcd;
        fixed_grad_nodes_active := fgn;
        fixed_grad_anchors_active := fga;
        hnew := None;
        _internal_dt := None |}.

(** [KinematicWaveRengers.update_topographic_params] *)
Definition update_topographic_params (s : KinematicWaveRengers)
  : result KinematicWaveRengers :=
  let g := grid s in
  closed ← load_global "CLOSED_BOUNDARY";
  let active := np_where (map (is_not closed) (status_at_node g)) in
  let hoz_grads := hoz_grads_at_node g in
  let vert_grads := vert_grads_at_node g in
  hs ← slopept5 hoz_grads active;
  vs ← slopept5 vert_grads active;
  fgn ← positions_in_active g (fixed_gradient_boundary_nodes g) active;
  fga ← positions_in_active g
          (fixed_gradient_boundary_node_anchor_node g) active;
  let s1 := set_topography hs vs
              (map (fun x => F.gtb x 0) hoz_grads)
              (map (fun x => F.gtb x 0) vert_grads) fgn fga s in
  same ← arr2 Z.eqb (_active s) active;
  if negb (forallb id same) then
    status_active ← take (status_at_node g) active;
    let bcs := map (is_status BC_NODE_IS_FIXED_VALUE) status_active in
    bcd ← take_mask (_h s) bcs;
    Ok (set_topology active (normalize_neighbors g) bcs bcd s1)
  else Ok s1.

(** [a[mask] *= -1.0] *)
Definition negate_where (a : list float) (mask : list bool)
  : result (list float) :=
  v ← take_mask a mask;
  put_mask a mask (map (fun x => x * -1.0)%float v).

(** the Courant-limited step *)
Definition courant_dt (s : KinematicWaveRengers) (maxvelx maxvely : float)
  : float :=
  if equaldims s then (courant_prefactor s / (maxvelx + maxvely))%float
  else (courant_prefactor s
        / (dy (grid s) * maxvelx + dx (grid s) * maxvely))%float.

(** [np.min((self.dt_max, courant_dt))] unless [dt_max] is [None] *)
Definition limit_dt (s : KinematicWaveRengers) (c : float) : float :=
  match dt_max s with
  | Some m => np_minimum m c
  | None => c
  end.

(** [KinematicWaveRengers.calc_grads_and_timesteps] *)
Definition calc_grads_and_timesteps (s : KinematicWaveRengers)
  (update_topography track_min_depth : bool)
  : result (KinematicWaveRengers * float) :=
  let active := _active s in
  hnew0 ← match hnew s with
          | Some a => Ok a
          | None => Raise (AttributeError "hnew")
          end;
  s ← (if update_topography then update_topographic_params s else Ok s);
  let hnew1 := map (fun x => np_maximum x (min_surface_water_depth s)) hnew0 in
  let s := set_hnew hnew1 s in
  s ← (if track_min_depth then
         h_active ← take (_h s) active;
         diff ← arr2 PrimFloat.sub hnew1 h_active;
         Ok (set_water_balance
               (_water_balance s ++ [np_sum diff / np_sum h_active]%float) s)
       else Ok s);
  let n := map (fun x => _n s * np_power (x / _hc s) (_negepsilon s))%float
               hnew1 in
  let twothirdshnewbyn :=
    zip_with PrimFloat.div
      (map (fun x => np_power x 0.66666666) hnew1) n in
  vy ← arr2 PrimFloat.mul twothirdshnewbyn (vertslopept5 s);
  vely1 ← put (vely s) active vy;
  vx ← arr2 PrimFloat.mul twothirdshnewbyn (hozslopept5 s);
  velx1 ← put (velx s) active vx;
  vely2 ← negate_where vely1 (posvertgrads s);
  velx2 ← negate_where velx1 (poshozgrads s);
  vely_active ← take vely2 active;
  q_y ← arr2 PrimFloat.mul vely_active hnew1;
  qy1 ← put (qy s) active q_y;
  velx_active ← take velx2 active;
  q_x ← arr2 PrimFloat.mul velx_active hnew1;
  qx1 ← put (qx s) active q_x;
  maxvely ← np_max (map np_fabs vely2);
  maxvelx ← np_max (map np_fabs velx2);
  let internal_dt := limit_dt s (courant_dt s maxvelx maxvely) in
  Ok (set_fluxes velx2 vely2 qy1 qx1 internal_dt s, internal_dt).

(** The statements of the [while] body of [run_one_step] that follow the
    call of [calc_grads_and_timesteps], one definition per commented
    group of the source. *)

(** "now add the rainfall input" *)
Definition add_rainfall (active : list Z) (internal_dt : float)
  (rainfall_intensity : rainfall) (hnew : list float)
  : result (list float) :=
  match rainfall_intensity with
  | RainScalar r => Ok (map (fun x => x + internal_dt * r)%float hnew)
  | RainArray a =>
      ra ← take a active;
      arr2_inplace PrimFloat.add hnew
        (map (fun r => internal_dt * r)%float ra)
  end.

(** "set the BCs" *)
Definition set_the_BCs (s : KinematicWaveRengers) (hnew : list float)
  : result (list float) :=
  put_mask hnew (actives_BCs s) (actives_BCs_water_depth s).

(** "flux it round" *)
Definition flux_it_round (s : KinematicWaveRengers) (active : list Z)
  (internal_dt : float) (qx_left qx_right qy_top qy_bottom : list float)
  (hnew : list float) : result (list float) :=
  let g := grid s in
  qy_active ← take (qy s) active;
  hnew ← arr2_inplace PrimFloat.sub hnew
           (map (fun q => internal_dt / dx g * np_fabs q)%float qy_active);
  qx_active ← take (qx s) active;
  hnew ← arr2_inplace PrimFloat.sub hnew
           (map (fun q => internal_dt / dy g * np_fabs q)%float qx_active);
  dqy ← arr2 PrimFloat.sub qy_top qy_bottom;
  dqy_active ← take dqy active;
  hnew ← arr2_inplace PrimFloat.add hnew
           (map (fun q => internal_dt / dx g * q)%float dqy_active);
  dqx ← arr2 PrimFloat.sub qx_left qx_right;
  dqx_active ← take dqx active;
  arr2_inplace PrimFloat.add hnew
    (map (fun q => internal_dt / dy g * q)%float dqx_active).

(** [hnew[self.fixed_grad_nodes_active] =
     hnew[self.fixed_grad_anchors_active]] *)
Definition copy_anchors (s : KinematicWaveRengers) (hnew : list float)
  : result (list float) :=
  anchors ← take hnew (fixed_grad_anchors_active s);
  put hnew (fixed_grad_nodes_active s) anchors.

(** [self.q[self._neighbors[:, j]]], clipped on one side *)
Definition neighbor_flux (clip : float → float) (q : list float)
  (nb : list neighbor_row) (j : nat) : result (list float) :=
  v ← take q (map (column j) nb);
  Ok (map clip v).

(** One pass through the body of the [while] loop: the new instance, the
    new [elapsed_time_in_dt] and the sub-step length that was used. *)
Definition sub_step (s : KinematicWaveRengers) (active : list Z)
  (dt elapsed_time_in_dt : pyscalar) (rainfall_intensity : rainfall)
  (update_topography track_min_depth : bool)
  : result (KinematicWaveRengers * pyscalar * float) :=
  '(s, internal_dt) ←
    calc_grads_and_timesteps s update_topography track_min_depth;
  let remaining_dt := py_sub dt elapsed_time_in_dt in
  internal_dt ←
    scalar_clip (py_min (NpFloat64 internal_dt) remaining_dt) 0;
  qx_left ← neighbor_flux (fun q => np_maximum q 0) (qx s) (_neighbors s) 2;
  qx_right ← neighbor_flux (fun q => np_minimum q 0) (qx s) (_neighbors s) 0;
  qy_top ← neighbor_flux (fun q => np_maximum q 0) (qy s) (_neighbors s) 1;
  qy_bottom ←
    neighbor_flux (fun q => np_minimum q 0) (qy s) (_neighbors s) 3;
  hnew0 ← match hnew s with
          | Some a => Ok a
          | None => Raise (AttributeError "hnew")
          end;
  hnew1 ← add_rainfall active internal_dt rainfall_intensity hnew0;
  hnew2 ← set_the_BCs s hnew1;
  hnew3 ← flux_it_round s active internal_dt
            qx_left qx_right qy_top qy_bottom hnew2;
  hnew4 ← copy_anchors s hnew3;
  Ok (set_hnew hnew4 s,
      NpFloat64 (value elapsed_time_in_dt + internal_dt),
      internal_dt).

(** [while elapsed_time_in_dt < dt: ...], unrolled at most [fuel] times;
    [None] when the loop is still running after [fuel] passes.  Besides
    the instance, the list of the sub-step lengths used, in order. *)
Fixpoint while_loop (fuel : nat) (s : KinematicWaveRengers)
  (active : list Z) (dt elapsed_time_in_dt : pyscalar)
  (rainfall_intensity : rainfall)
  (update_topography track_min_depth : bool)
  : option (result (KinematicWaveRengers * list float)) :=
  if PrimFloat.ltb (value elapsed_time_in_dt) (value dt) then
    match fuel with
    | O => None
    | S fuel' =>
        match sub_step s active dt elapsed_time_in_dt rainfall_intensity
                update_topography track_min_depth with
        | Raise e => Some (Raise e)
        | Ok (s', elapsed', internal_dt) =>
            match while_loop fuel' s' active dt elapsed'
                    rainfall_intensity update_topography
                    track_min_depth with
            | Some (Ok (s'', steps)) => Some (Ok (s'', internal_dt :: steps))
            | other => other
            end
        end
    end
  else Some (Ok (s, [])).

(** "update the actual fields" *)
Definition update_the_actual_fields (s : KinematicWaveRengers)
  (active : list Z) : result KinematicWaveRengers :=
  hnew0 ← match hnew s with
          | Some a => Ok a
          | None => Raise (AttributeError "hnew")
          end;
  h ← put (_h s) active hnew0;
  speed2 ← arr2 PrimFloat.add (map np_square (velx s))
             (map np_square (vely s));
  vel ← broadcast_to (length (at_node_velocity s)) (map np_sqrt speed2);
  q2 ← arr2 PrimFloat.add (map np_square (removelast (qx s)))
         (map np_square (removelast (qy s)));
  dis ← broadcast_to (length (at_node_discharge s)) (map np_sqrt q2);
  Ok (set_fields h vel dis s).

(** [KinematicWaveRengers.run_one_step], with the sub-step lengths of its
    loop. *)
Definition run_one_step_steps (fuel : nat) (s : KinematicWaveRengers)
  (dt : pyscalar) (rainfall_intensity : rainfall)
  (update_topography track_min_depth : bool)
  : option (result (KinematicWaveRengers * list float)) :=
  let elapsed_time_in_dt := PyFloat 0.0 in
  let active := _active s in
  match
    (hnew0 ← take (_h s) active;
     let s := set_hnew hnew0 s in
     if update_topography then update_topographic_params s else Ok s)
  with
  | Raise e => Some (Raise e)
  | Ok s1 =>
      match while_loop fuel s1 active dt elapsed_time_in_dt
              rainfall_intensity update_topography track_min_depth with
      | None => None
      | Some (Raise e) => Some (Raise e)
      | Some (Ok (s2, steps)) =>
          Some (s3 ← update_the_actual_fields s2 active; Ok (s3, steps))
      end
  end.

Definition run_one_step (fuel : nat) (s : KinematicWaveRengers)
  (dt : pyscalar) (rainfall_intensity : rainfall)
  (update_topography track_min_depth : bool)
  : option (result KinematicWaveRengers) :=
  fmap (M := option) (fmap (M := result) fst)
    (run_one_step_steps fuel s dt rainfall_intensity
       update_topography track_min_depth).


(** The [internal_timestep] property: the instance after the read, and the
    value read. *)
Definition internal_timestep (s : KinematicWaveRengers)
  : result (KinematicWaveRengers * float) :=
  match _internal_dt s with
  | Some v => Ok (s, v)
  | None =>
      '(s', _) ← calc_grads_and_timesteps s false false;
      match _internal_dt s' with
      | Some v => Ok (s', v)
      | None => Raise (AttributeError "_internal_dt")
      end
  end.

(** One pass through the loop body that starts from [s], uses a sub-step of
    [used] and ends in [s'], with all its intermediate values; [pinned] is
    the array of working depths right after "set the BCs". *)
Definition pass_through_body (s : KinematicWaveRengers) (active : list Z)
  (dt elapsed : pyscalar) (rain : rainfall) (upd track : bool)
  (s' : KinematicWaveRengers) (used : float) (pinned : list float) : Prop :=
  ∃ s1 internal_dt qx_left qx_right qy_top qy_bottom
    after_clip with_rain fluxed final,
    calc_grads_and_timesteps s upd track = Ok (s1, internal_dt) ∧
    scalar_clip (py_min (NpFloat64 internal_dt) (py_sub dt elapsed)) 0
    = Ok used ∧
    neighbor_flux (fun q => np_maximum q 0) (qx s1) (_neighbors s1) 2
    = Ok qx_left ∧
    neighbor_flux (fun q => np_minimum q 0) (qx s1) (_neighbors s1) 0
    = Ok qx_right ∧
    neighbor_flux (fun q => np_maximum q 0) (qy s1) (_neighbors s1) 1
    = Ok qy_top ∧
    neighbor_flux (fun q => np_minimum q 0) (qy s1) (_neighbors s1) 3
    = Ok qy_bottom ∧
    hnew s1 = Some after_clip ∧
    add_rainfall active used rain after_clip = Ok with_rain ∧
    set_the_BCs s1 with_rain = Ok pinned ∧
    flux_it_round s1 active used qx_left qx_right qy_top qy_bottom pinned
    = Ok fluxed ∧
    copy_anchors s1 fluxed = Ok final ∧
    s' = set_hnew final s1.

(** ** Instances that occur *)

(** The instances that occur while a caller uses the class: the
    constructor's result, whatever a successful call of a method leaves
    behind and, inside [run_one_step], the instance after the working
    copy has been taken and after each pass through the loop body.  The
    number counts the gradient stages that ran with [track_min_depth]
    set. *)
Inductive reached (g : Grid) (p : Params)
  : KinematicWaveRengers → nat → Prop :=
  | reached_init s :
      __init__ g p = Ok s → reached g p s 0
  | reached_run_one_step s n fuel dt rain upd track s' steps :
      reached g p s n →
      run_one_step_steps fuel s dt rain upd track
      = Some (Ok (s', steps)) →
      reached g p s' (n + if track then length steps else 0)
  | reached_working_copy s n h0 :
      reached g p s n →
      take (_h s) (_active s) = Ok h0 →
      reached g p (set_hnew h0 s) n
  | reached_sub_step s n active dt elapsed rain upd track
      s' elapsed' used :
      reached g p s n →
      sub_step s active dt elapsed rain upd track
      = Ok (s', elapsed', used) →
      reached g p s' (n + if track then 1 else 0)
  | reached_calc s n upd track s' dt :
      reached g p s n →
      calc_grads_and_timesteps s upd track = Ok (s', dt) →
      reached g p s' (n + if track then 1 else 0)
  | reached_update s n s' :
      reached g p s n →
      update_topographic_params s = Ok s' →
      reached g p s' n
  | reached_internal_timestep s n s' v :
      reached g p s n →
      internal_timestep s = Ok (s', v) →
      reached g p s' n.

End KinematicWaveRengers.

(** ** What construction fixes *)

(** The attributes that no method reassigns after construction (the one
    method that would, [update_topographic_params], never gets there). *)
Record same_setup (s s' : KinematicWaveRengers) : Prop := {
  same_grid : grid s' = grid s;
  same_active : _active s' = _active s;
  same_actives_BCs : actives_BCs s' = actives_BCs s;
  same_actives_BCs_water_depth :
    actives_BCs_water_depth s' = actives_BCs_water_depth s;
  same_neighbors : _neighbors s' = _neighbors s;
  same_dt_max : dt_max s' = dt_max s;
  same_equaldims : equaldims s' = equaldims s;
  same_courant_prefactor : courant_prefactor s' = courant_prefactor s;
  same_floor : min_surface_water_depth s' = min_surface_water_depth s
}.

(** What holds of an instance that was built on [g] and has since been
    driven through [n] gradient stages with tracking switched on. *)
Record consistent (g : Grid) (s : KinematicWaveRengers) (n : nat)
  : Prop := {
  c_grid : grid s = g;
  c_active :
    _active s = np_where (map (is_not BC_NODE_IS_CORE) (status_at_node g));
  c_actives_BCs :
    ∃ sa, take (status_at_node g) (_active s) = Ok sa ∧
          actives_BCs s = map (is_status BC_NODE_IS_FIXED_VALUE) sa;
  c_actives_BCs_water_depth :
    ∃ ha, take (surface_water__depth g) (_active s) = Ok ha ∧
          actives_BCs_water_depth s = compress (actives_BCs s) ha;
  c_neighbors : _neighbors s = normalize_neighbors g;
  c_qx_length : length (qx s) = S (number_of_nodes g);
  c_qx_last : qx s !! number_of_nodes g = Some F.zero;
  c_qy_length : length (qy s) = S (number_of_nodes g);
  c_qy_last : qy s !! number_of_nodes g = Some F.zero;
  c_trace : length (_water_balance s) = n
}.

(** The grid hands over per-node arrays of one length and node ids that
    are nodes. *)
Record well_formed (g : Grid) : Prop := {
  wf_hoz_grads : length (hoz_grads_at_node g) = number_of_nodes g;
  wf_vert_grads : length (vert_grads_at_node g) = number_of_nodes g;
  wf_depth : length (surface_water__depth g) = number_of_nodes g;
  wf_fixed_gradient :
    Forall (fun i => 0 ≤ i < Z.of_nat (number_of_nodes g))%Z
      (fixed_gradient_boundary_nodes g);
  wf_anchor :
    Forall (fun i => 0 ≤ i < Z.of_nat (number_of_nodes g))%Z
      (fixed_gradient_boundary_node_anchor_node g)
}.

(** The shapes of the arrays of an instance built on [g]: per-node arrays
    have one entry per node, per-active-node arrays one per active node. *)
Record shaped (g : Grid) (s : KinematicWaveRengers) : Prop := {
  sh_h : length (_h s) = number_of_nodes g;
  sh_velx : length (velx s) = number_of_nodes g;
  sh_vely : length (vely s) = number_of_nodes g;
  sh_hozslopept5 : length (hozslopept5 s) = length (_active s);
  sh_vertslopept5 : length (vertslopept5 s) = length (_active s);
  sh_poshozgrads : length (poshozgrads s) = number_of_nodes g;
  sh_posvertgrads : length (posvertgrads s) = number_of_nodes g;
  sh_hnew : ∀ h, hnew s = Some h → length h = length (_active s)
}.

(** ** What the claims say *)

(** The depths of an instance built on [g] are pinned in [pinned]: at the
    position of every active fixed-value node stands the depth that node
    had in the grid's field when the instance was constructed. *)
Definition pinned_to_configured_depth (g : Grid) (s : KinematicWaveRengers)
  (pinned : list float) : Prop :=
  ∀ (i : nat) (node : Z),
    _active s !! i = Some node →
    status_at_node g !! Z.to_nat node = Some BC_NODE_IS_FIXED_VALUE →
    ∃ d, surface_water__depth g !! Z.to_nat node = Some d ∧
         pinned !! i = Some d.

(** The sub-step [internal_dt] that the gradient stage returns when it
    takes [s] to [s']: the smaller of [dt_max] and the Courant bound. *)
Definition stable_sub_step (s s' : KinematicWaveRengers)
  (internal_dt : float) : Prop :=
  ∃ maxvelx maxvely,
    np_max (map np_fabs (velx s')) = Ok maxvelx ∧
    np_max (map np_fabs (vely s')) = Ok maxvely ∧
    let denominator :=
      (if equaldims s then maxvelx + maxvely
       else dy (grid s) * maxvelx + dx (grid s) * maxvely)%float in
    let courant := (courant_prefactor s / denominator)%float in
    internal_dt = match dt_max s with
                  | Some m => np_minimum m courant
                  | None => courant
                  end ∧
    _internal_dt s' = Some internal_dt ∧
    (∀ m, dt_max s = Some m → F.gtb internal_dt m = false) ∧
    F.gtb internal_dt courant = false.


(** The extra slot of the discharge arrays and its use by the neighbour
    look-ups, on an instance built on [g]. *)
Definition trailing_slot_is_zero (g : Grid) (s : KinematicWaveRengers)
  : Prop :=
  let N := number_of_nodes g in
  (* one slot more than there are nodes, and zero in it *)
  length (qx s) = S N ∧ length (qy s) = S N
  ∧ qx s !! N = Some F.zero ∧ qy s !! N = Some F.zero
  (* the indices the gradient stage writes at are node ids *)
  ∧ Forall (fun i => 0 ≤ i < Z.of_nat N)%Z (_active s)
  (* a missing neighbour is -1 in [_neighbors] *)
  ∧ (∀ i row j,
       adjacent_nodes_at_node g !! i = Some row →
       column j row = BAD_INDEX g →
       ∃ row', _neighbors s !! i = Some row' ∧ column j row' = (-1)%Z)
  (* index -1 reads the extra slot *)
  ∧ getitem (qx s) (-1) = Ok F.zero ∧ getitem (qy s) (-1) = Ok F.zero
  (* so the look-up through a missing neighbour gives the clipped zero *)
  ∧ (∀ clip j v i row,
       _neighbors s !! i = Some row → column j row = (-1)%Z →
       neighbor_flux clip (qx s) (_neighbors s) j = Ok v
       ∨ neighbor_flux clip (qy s) (_neighbors s) j = Ok v →
       v !! i = Some (clip F.zero))
  ∧ np_maximum F.zero 0 = F.zero ∧ np_minimum F.zero 0 = F.zero.

(** ** What the further properties say *)

(** [elapsed_time_in_dt] after the loop of [run_one_step] has taken the
    sub-steps [steps]: it starts at [0.0] and each pass adds its sub-step. *)
Definition elapsed_time_after (steps : list float) : float :=
  fold_left PrimFloat.add steps 0%float.

(** The grid's two output fields have one entry per node. *)
Definition output_fields_fit (g : Grid) : Prop :=
  length (surface_water__velocity g) = number_of_nodes g
  ∧ length (surface_water__discharge g) = number_of_nodes g.

(** [+0.0] or [-0.0] *)
Definition signed_zero (x : float) : Prop :=
  x = 0%float ∨ x = (-0)%float.

(** No flow at the core nodes: the velocity components are zero of either
    sign there, and the discharge components are [+0.0]. *)
Definition still_at_core_nodes (g : Grid) (s : KinematicWaveRengers)
  : Prop :=
  ∀ k, status_at_node g !! k = Some BC_NODE_IS_CORE →
       (∀ x, velx s !! k = Some x → signed_zero x)
       ∧ (∀ y, vely s !! k = Some y → signed_zero y)
       ∧ (∀ q, qx s !! k = Some q → q = 0%float)
       ∧ (∀ q, qy s !! k = Some q → q = 0%float).

(** The neighbour table has a row per node, and every entry of it is a
    node id or [BAD_INDEX]. *)
Definition adjacency_fits (g : Grid) : Prop :=
  length (adjacent_nodes_at_node g) = number_of_nodes g
  ∧ Forall (fun row =>
              ∀ j, column j row = BAD_INDEX g
                   ∨ (0 ≤ column j row < Z.of_nat (number_of_nodes g))%Z)
      (adjacent_nodes_at_node g).

(** A rainfall array has an entry per node. *)
Definition rainfall_fits (g : Grid) (rain : rainfall) : Prop :=
  match rain with
  | RainScalar _ => True
  | RainArray a => length a = number_of_nodes g
  end.

(** * Concrete grids *)

(** What IEEE 754-2008 (9.2.1) fixes of [pow] and the examples below rely
    on: [pow(+1, y) = 1] for every [y], [pow(+0, 0.5) = +0] and
    [pow(NaN, 0.5) = NaN].  The examples are chosen so that the component
    takes no other power, and they are proved for every power function that
    has these three values. *)
Definition ieee_pow (np_power : float → float → float) : Prop :=
  (∀ y, np_power 1%float y = 1%float)
  ∧ np_power 0%float 0.5%float = 0%float
  ∧ np_power PrimFloat.nan 0.5%float = PrimFloat.nan.

(** One such function, to run the examples with: the cases of [pow] that
    the standard fixes for a base of 1, an exponent of 0 and a base of +-0
    with an exponent between 0 and 1, and NaN everywhere else, so that an
    example leaving these cases would show NaN and not a number. *)
Definition pow_special (x y : float) : float :=
  if PrimFloat.eqb x 1 then 1%float
  else if PrimFloat.eqb y 0 then 1%float
  else if PrimFloat.is_zero x && PrimFloat.ltb 0 y && PrimFloat.ltb y 1
       then 0%float
  else PrimFloat.nan.

(** [adjacent_nodes_at_node] of [RasterModelGrid((3, 3))]: nodes are numbered
    row by row from the lower left, the columns are east, north, west,
    south, and -1 stands for a missing neighbour. *)
Definition raster3x3_adjacency : list neighbor_row :=
  [ (1, 3, -1, -1); (2, 4, 0, -1); (-1, 5, 1, -1);
    (4, 6, -1, 0);  (5, 7, 3, 1);  (-1, 8, 4, 2);
    (7, -1, -1, 3); (8, -1, 6, 4); (-1, -1, 7, 5) ]%Z.

(** A 3 x 3 raster of unit spacing: the status of the centre node and of the
    eight edge nodes, the (uniform) horizontal and vertical gradient, and
    the (uniform) water depth. *)
Definition raster3x3 (center edge : node_status) (hoz vert depth : float)
  : Grid :=
  {| is_RasterModelGrid := true;
     status_at_node := replicate 4 edge ++ [center] ++ replicate 4 edge;
     dx := 1; dy := 1; BAD_INDEX := (-1)%Z;
     adjacent_nodes_at_node := raster3x3_adjacency;
     fixed_gradient_boundary_nodes := [];
     fixed_gradient_boundary_node_anchor_node := [];
     hoz_grads_at_node := replicate 9 hoz;
     vert_grads_at_node := replicate 9 vert;
     surface_water__depth := replicate 9 depth;
     surface_water__velocity := replicate 9 0%float;
     surface_water__discharge := replicate 9 0%float |}.

(** The usual set-up, a core node inside closed edges; no link is active,
    and the mapped gradient of a node without active links is 0.0. *)
Definition closed_edges : Grid :=
  raster3x3 BC_NODE_IS_CORE BC_NODE_IS_CLOSED 0 0 1.0e-8.

(** A fixed-value node among core nodes where the elevation field holds
    NaN (no data) at every node, so that every link gradient and both
    mapped gradients are NaN; one metre of water. *)
Definition no_elevation_data : Grid :=
  raster3x3 BC_NODE_IS_FIXED_VALUE BC_NODE_IS_CORE PrimFloat.nan
    PrimFloat.nan 1.

(** A fixed-value node among core nodes on a plane that rises eastwards
    ([rising]) or falls eastwards ([falling]) with gradient 1, under one
    metre of water. *)
Definition rising : Grid :=
  raster3x3 BC_NODE_IS_FIXED_VALUE BC_NODE_IS_CORE 1 0 1.
Definition falling : Grid :=
  raster3x3 BC_NODE_IS_FIXED_VALUE BC_NODE_IS_CORE (-1) 0 1.

(** Manning's n, the critical depth and the depth floor all 1, so that every
    power the component takes has base 1. *)
Definition unit_params (dtm : float) : Params :=
  {| mannings_n := 1; critical_flow_depth := 1;
     mannings_epsilon := 0.33333333; arg_dt_max := Some dtm;
     max_courant := 0.2; arg_min_surface_water_depth := 1 |}.

(** The centre node 4 a core node, node 3 to its west a fixed-gradient node
    anchored at it, the other edge nodes closed, under one metre of water.
    The link between nodes 3 and 4 is a fixed link and every other link is
    inactive: no node has an active link, so the mapped gradients are 0.0
    everywhere. *)
Definition open_to_the_west : Grid :=
  {| is_RasterModelGrid := true;
     status_at_node :=
       replicate 3 BC_NODE_IS_CLOSED
       ++ [BC_NODE_IS_FIXED_GRADIENT; BC_NODE_IS_CORE]
       ++ replicate 4 BC_NODE_IS_CLOSED;
     dx := 1; dy := 1; BAD_INDEX := (-1)%Z;
     adjacent_nodes_at_node := raster3x3_adjacency;
     fixed_gradient_boundary_nodes := [3%Z];
     fixed_gradient_boundary_node_anchor_node := [4%Z];
     hoz_grads_at_node := replicate 9 0%float;
     vert_grads_at_node := replicate 9 0%float;
     surface_water__depth := replicate 9 1%float;
     surface_water__velocity := replicate 9 0%float;
     surface_water__discharge := replicate 9 0%float |}.

(** * Properties *)

(** ** The result monad *)

Lemma bind_Ok {A B} (m : result A) (f : A → result B) (y : B) :
  m ≫= f = Ok y ↔ ∃ x, m = Ok x ∧ f x = Ok y.
Proof.
  destruct m as [a|e]; simpl; split.
  - intros H. exists a. done.
  - intros (x & [= ->] & H). done.
  - intros H. discriminate H.
  - intros (x & H & _). discriminate H.
Qed.

Lemma bind_Raise {A B} (m : result A) (f : A → result B) (e : exn) :
  m ≫= f = Raise e ↔ m = Raise e ∨ ∃ x, m = Ok x ∧ f x = Raise e.
Proof.
  destruct m as [a|e']; simpl; split.
  - intros H. right. exists a. done.
  - intros [H|(x & [= ->] & H)]; [discriminate H|done].
  - intros [= ->]. left. reflexivity.
  - intros [[= ->]|(x & H & _)]; [reflexivity|discriminate H].
Qed.

(** take apart a hypothesis saying that a sequence of binds returned *)
Ltac inv_ok :=
  repeat match goal with
    | H : _ ≫= _ = Ok _ |- _ =>
        let x := fresh "x" in
        let E := fresh "E" in
        apply bind_Ok in H as (x & E & H)
    | H : Ok _ = Ok _ |- _ => injection H as H
    | H : Raise _ = Ok _ |- _ => discriminate H
    | H : (_, _) = (_, _) |- _ => injection H as ? ?
    end.

(** ** Indexing *)

Section ndarray_facts.
Context {A : Type}.
Implicit Types (a v : list A) (idx : list Z) (ks : list nat).

Lemma normalize_index_lt n i k :
  normalize_index n i = Ok k → k < n.
Proof.
  unfold normalize_index.
  destruct (Z.ltb_spec i (- Z.of_nat n)), (Z.leb_spec (Z.of_nat n) i);
    simpl; try done.
  intros [= <-]. destruct (Z.ltb_spec i 0); lia.
Qed.

Lemma normalize_index_nonneg n i :
  (0 ≤ i < Z.of_nat n)%Z → normalize_index n i = Ok (Z.to_nat i).
Proof.
  intros Hi. unfold normalize_index.
  destruct (Z.ltb_spec i (- Z.of_nat n)), (Z.leb_spec (Z.of_nat n) i);
    simpl; try lia.
  destruct (Z.ltb_spec i 0); [lia|done].
Qed.

(** the index [-1] is the last slot *)
Lemma normalize_index_last n :
  normalize_index (S n) (-1) = Ok n.
Proof.
  unfold normalize_index.
  destruct (Z.ltb_spec (-1) (- Z.of_nat (S n))),
    (Z.leb_spec (Z.of_nat (S n)) (-1)); simpl; try lia.
  f_equal. lia.
Qed.

Lemma normalize_indices_nonneg n idx :
  Forall (fun i => 0 ≤ i < Z.of_nat n)%Z idx →
  normalize_indices n idx = Ok (map Z.to_nat idx).
Proof.
  induction 1 as [|i idx Hi _ IH]; simpl; [done|].
  rewrite normalize_index_nonneg by done. simpl. by rewrite IH.
Qed.

Lemma getitem_lookup a i x :
  getitem a i = Ok x →
  ∃ k, normalize_index (length a) i = Ok k ∧ a !! k = Some x.
Proof.
  unfold getitem. intros H. inv_ok. exists x0. split; [done|].
  destruct (a !! x0); by inv_ok; subst.
Qed.

Lemma getitem_nonneg a i x :
  a !! Z.to_nat i = Some x → (0 ≤ i)%Z → getitem a i = Ok x.
Proof.
  intros Hx Hi. unfold getitem.
  rewrite normalize_index_nonneg.
  - simpl. by rewrite Hx.
  - apply lookup_lt_Some in Hx. lia.
Qed.

Lemma take_length a idx v :
  take a idx = Ok v → length v = length idx.
Proof.
  revert v. induction idx as [|i idx IH]; simpl; intros v H.
  - by inv_ok; subst.
  - inv_ok. subst. simpl. f_equal. by apply IH.
Qed.

Lemma take_lookup a idx v n i :
  take a idx = Ok v → idx !! n = Some i →
  ∃ x, v !! n = Some x ∧ getitem a i = Ok x.
Proof.
  revert v n. induction idx as [|j idx IH]; simpl; intros v n H Hn.
  - done.
  - inv_ok. subst. destruct n as [|n]; simpl in *.
    + injection Hn as ->. by exists x.
    + by apply IH.
Qed.

Lemma take_nonneg a idx :
  Forall (fun i => 0 ≤ i < Z.of_nat (length a))%Z idx →
  ∃ v, take a idx = Ok v.
Proof.
  induction 1 as [|i idx Hi _ [v IH]]; simpl; [by eexists|].
  destruct (lookup_lt_is_Some_2 a (Z.to_nat i)) as [x Hx]; [lia|].
  rewrite (getitem_nonneg a i x) by (done || lia). simpl.
  rewrite IH. simpl. by eexists.
Qed.

Lemma put_loop_length a ks vs :
  length (put_loop a ks vs) = length a.
Proof.
  revert a vs. induction ks as [|k ks IH]; intros a [|x vs]; simpl;
    try done.
  by rewrite IH, length_insert.
Qed.

Lemma put_loop_lookup_other a ks vs n :
  n ∉ ks → put_loop a ks vs !! n = a !! n.
Proof.
  revert a vs. induction ks as [|k ks IH]; intros a [|x vs] Hn; simpl;
    try done.
  apply not_elem_of_cons in Hn as [Hk Hn].
  rewrite IH by done. by apply list_lookup_insert_ne.
Qed.

Lemma put_length a idx vals a' :
  put a idx vals = Ok a' → length a' = length a.
Proof.
  unfold put. intros H. inv_ok. subst. apply put_loop_length.
Qed.

End ndarray_facts.

(** ** Boolean masks *)

Lemma where_from_bounds k mask :
  Forall (fun i => k ≤ i < k + Z.of_nat (length mask))%Z (where_from k mask).
Proof.
  revert k. induction mask as [|b mask IH]; intros k; simpl; [done|].
  assert (Forall (fun i => k ≤ i < k + Z.of_nat (S (length mask)))%Z
            (where_from (k + 1) mask)) as Htl.
  { eapply Forall_impl; [apply IH|]. simpl. intros i Hi. lia. }
  destruct b; [constructor; [lia|]|]; done.
Qed.

Lemma np_where_bounds mask :
  Forall (fun i => 0 ≤ i < Z.of_nat (length mask))%Z (np_where mask).
Proof. apply (where_from_bounds 0). Qed.

Lemma where_from_elem k mask i :
  i ∈ where_from k mask ↔
  (k ≤ i)%Z ∧ mask !! Z.to_nat (i - k) = Some true.
Proof.
  revert k. induction mask as [|b mask IH]; intros k; simpl.
  - split; [intros H; by apply elem_of_nil in H|intros [_ H]; done].
  - assert (i ∈ where_from (k + 1) mask ↔
            (k < i)%Z ∧ (b :: mask) !! Z.to_nat (i - k) = Some true) as Htl.
    { rewrite IH. split.
      - intros [Hk Hi]. split; [lia|].
        replace (Z.to_nat (i - k)) with (S (Z.to_nat (i - (k + 1)))) by lia.
        done.
      - intros [Hk Hi]. split; [lia|].
        replace (Z.to_nat (i - k)) with (S (Z.to_nat (i - (k + 1))))
          in Hi by lia.
        done. }
    destruct b.
    + rewrite elem_of_cons, Htl. split.
      * intros [->|[Hk Hi]]; [|split; [lia|done]].
        split; [lia|]. by rewrite Z.sub_diag.
      * intros [Hk Hi]. destruct (decide (i = k)) as [->|Hne];
          [by left|right]. split; [lia|done].
    + rewrite Htl. split.
      * intros [Hk Hi]. split; [lia|done].
      * intros [Hk Hi]. destruct (decide (i = k)) as [->|Hne].
        -- by rewrite Z.sub_diag in Hi.
        -- split; [lia|done].
Qed.

Lemma np_where_elem mask i :
  i ∈ np_where mask ↔ (0 ≤ i)%Z ∧ mask !! Z.to_nat i = Some true.
Proof.
  unfold np_where. rewrite where_from_elem. by rewrite Z.sub_0_r.
Qed.

Section mask_facts.
Context {A : Type}.
Implicit Types (a b : list A) (mask : list bool).

Lemma compress_length k mask b :
  length mask ≤ length b →
  length (compress mask b) = length (where_from k mask).
Proof.
  revert k b. induction mask as [|c mask IH]; intros k [|x b] Hl;
    simpl in *; try done; try lia.
  destruct c; simpl; [f_equal|]; apply IH; lia.
Qed.

(** Writing the compressed values of [b] back through the same mask puts
    [b]'s value at every selected position and leaves the others. *)
Lemma put_loop_where a mask b k i :
  length b = length mask → k + length mask ≤ length a →
  put_loop a (map Z.to_nat (where_from (Z.of_nat k) mask))
    (compress mask b) !! i
  = if decide (k ≤ i) then
      match mask !! (i - k) with
      | Some true => b !! (i - k)
      | _ => a !! i
      end
    else a !! i.
Proof.
  revert a b k. induction mask as [|c mask IH]; intros a [|x b] k Hb Ha;
    simpl in *; try done.
  - by case_decide.
  - replace (Z.of_nat k + 1)%Z with (Z.of_nat (S k)) by lia.
    destruct c; simpl.
    + rewrite Nat2Z.id, IH by (rewrite ?length_insert; lia).
      destruct (decide (S k ≤ i)) as [Hi|Hi].
      * rewrite decide_True by lia.
        replace (i - k) with (S (i - S k)) by lia. simpl.
        rewrite list_lookup_insert_ne by lia. done.
      * destruct (decide (k ≤ i)) as [Hk|Hk].
        -- assert (i = k) as -> by lia. rewrite Nat.sub_diag. simpl.
           apply list_lookup_insert_eq. lia.
        -- apply list_lookup_insert_ne. lia.
    + rewrite IH by lia.
      destruct (decide (S k ≤ i)) as [Hi|Hi].
      * rewrite decide_True by lia.
        replace (i - k) with (S (i - S k)) by lia. done.
      * destruct (decide (k ≤ i)) as [Hk|Hk]; [|done].
        assert (i = k) as -> by lia. by rewrite Nat.sub_diag.
Qed.

Lemma put_mask_compress a mask b :
  length mask = length a → length b = length mask →
  ∃ a', put_mask a mask (compress mask b) = Ok a' ∧
        ∀ i, a' !! i = match mask !! i with
                       | Some true => b !! i
                       | _ => a !! i
                       end.
Proof.
  intros Ha Hb. unfold put_mask, put. rewrite decide_True by done.
  rewrite normalize_indices_nonneg
    by (rewrite <- Ha; apply np_where_bounds).
  simpl. unfold broadcast_to.
  rewrite decide_True
    by (rewrite length_map; apply compress_length; lia).
  simpl. eexists. split; [done|]. intros i.
  unfold np_where. change 0%Z with (Z.of_nat 0).
  rewrite put_loop_where by (simpl; lia).
  rewrite decide_True by lia. by rewrite Nat.sub_0_r.
Qed.

Lemma take_mask_Ok a mask v :
  take_mask a mask = Ok v → length mask = length a ∧ v = compress mask a.
Proof.
  unfold take_mask. case_decide; [|done]. by intros [= <-].
Qed.
End mask_facts.

Lemma normalize_indices_below n idx ks m k :
  normalize_indices n idx = Ok ks →
  Forall (fun i => 0 ≤ i < Z.of_nat m)%Z idx →
  k ∈ ks → k < m.
Proof.
  intros E Hidx. revert ks E.
  induction Hidx as [|i idx Hi _ IH]; simpl; intros ks E Hin.
  - inv_ok. subst. by apply elem_of_nil in Hin.
  - apply bind_Ok in E as (k0 & E0 & E).
    apply bind_Ok in E as (ks0 & E1 & E).
    injection E as <-. apply elem_of_cons in Hin as [->|Hin].
    + unfold normalize_index in E0.
      destruct (Z.ltb_spec i (- Z.of_nat n)), (Z.leb_spec (Z.of_nat n) i);
        simpl in E0; try done.
      destruct (Z.ltb_spec i 0); [lia|]. injection E0 as <-. lia.
    + by eapply IH.
Qed.

(** A write at non-negative indices below [n] leaves slot [n] and above. *)
Lemma put_lookup_above {A} (a : list A) idx vals a' n m :
  put a idx vals = Ok a' →
  Forall (fun i => 0 ≤ i < Z.of_nat n)%Z idx →
  n ≤ m → a' !! m = a !! m.
Proof.
  unfold put. intros H Hidx Hm.
  apply bind_Ok in H as (ks & E & H).
  apply bind_Ok in H as (vs & E' & H).
  injection H as <-.
  apply put_loop_lookup_other. intros Hin.
  pose proof (normalize_indices_below _ _ _ _ _ E Hidx Hin). lia.
Qed.

(** ** Comparisons of binary64 values *)

(** The comparisons of primitive floats are specified through
    [SFcompare] on their decoded form; NaN is unordered. *)

Lemma SFcompare_swap (x y : spec_float) :
  SFcompare y x = option_map CompOpp (SFcompare x y).
Proof.
  destruct x as [s1| s1| |s1 m1 e1], y as [s2| s2| |s2 m2 e2]; simpl;
    try done; try (by destruct s1); try (by destruct s2);
    try (by destruct s1, s2).
  f_equal. destruct s1, s2; try done.
  - rewrite (Z.compare_antisym e1 e2).
    destruct (e1 ?= e2)%Z; simpl; try done.
    by rewrite (Pos.compare_cont_antisym m1 m2 Eq).
  - rewrite (Z.compare_antisym e1 e2).
    destruct (e1 ?= e2)%Z; simpl; try done.
    by rewrite (Pos.compare_cont_antisym m1 m2 Eq).
Qed.

Lemma SFcompare_diag (x : spec_float) :
  SFcompare x x = Some Eq ∨ x = S754_nan.
Proof.
  destruct x as [s| s| |s m e]; simpl; auto.
  - left. by destruct s.
  - left. rewrite Z.compare_refl, Pos.compare_cont_refl. by destruct s.
Qed.

Lemma ltb_irrefl (x : float) : PrimFloat.ltb x x = false.
Proof.
  rewrite ltb_spec. unfold SFltb.
  destruct (SFcompare_diag (Prim2SF x)) as [->| ->]; done.
Qed.

Lemma leb_not_gt (x y : float) :
  PrimFloat.leb x y = true → PrimFloat.ltb y x = false.
Proof.
  rewrite leb_spec, ltb_spec. unfold SFleb, SFltb.
  rewrite (SFcompare_swap (Prim2SF x) (Prim2SF y)).
  by destruct (SFcompare (Prim2SF x) (Prim2SF y)) as [[]|].
Qed.

Lemma not_leb_not_ltb (x y : float) :
  PrimFloat.leb x y = false → PrimFloat.ltb x y = false.
Proof.
  rewrite leb_spec, ltb_spec. unfold SFleb, SFltb.
  by destruct (SFcompare (Prim2SF x) (Prim2SF y)) as [[]|].
Qed.

Lemma is_nan_not_gt (x y : float) :
  PrimFloat.is_nan x = true → PrimFloat.ltb y x = false.
Proof.
  unfold PrimFloat.is_nan. rewrite FloatAxioms.eqb_spec, ltb_spec.
  unfold SFeqb, SFltb.
  destruct (SFcompare_diag (Prim2SF x)) as [->| ->]; [done|].
  intros _. by destruct (Prim2SF y).
Qed.

(** [np.minimum] never returns more than either argument. *)
Lemma np_minimum_not_gt_l (m c : float) :
  F.gtb (np_minimum m c) m = false.
Proof.
  unfold np_minimum, F.gtb.
  destruct (PrimFloat.leb m c) eqn:Hle; simpl.
  - apply ltb_irrefl.
  - destruct (PrimFloat.is_nan m); [apply ltb_irrefl|].
    by apply not_leb_not_ltb.
Qed.

Lemma np_minimum_not_gt_r (m c : float) :
  F.gtb (np_minimum m c) c = false.
Proof.
  unfold np_minimum, F.gtb.
  destruct (PrimFloat.leb m c) eqn:Hle; simpl.
  - by apply leb_not_gt.
  - destruct (PrimFloat.is_nan m) eqn:Hnan; [|apply ltb_irrefl].
    by apply is_nan_not_gt.
Qed.

(** ** What the methods keep and what they change *)

Section method_facts.
Variable np_power : float → float → float.

(** [CLOSED_BOUNDARY] is not bound: the first statement of
    [update_topographic_params] raises, whatever the instance. *)
Lemma update_topographic_params_raises (s : KinematicWaveRengers) :
  update_topographic_params np_power s
  = Raise (NameError "CLOSED_BOUNDARY").
Proof. reflexivity. Qed.

(** What a successful call of [calc_grads_and_timesteps] did. *)
Lemma calc_grads_and_timesteps_Ok s upd track s' dt :
  calc_grads_and_timesteps np_power s upd track = Ok (s', dt) →
  upd = false ∧
  same_setup s s' ∧
  _h s' = _h s ∧
  (∃ hnew0, hnew s = Some hnew0 ∧
     hnew s' = Some (map (fun x => np_maximum x (min_surface_water_depth s))
                       hnew0)) ∧
  (∃ q_x, put (qx s) (_active s) q_x = Ok (qx s')) ∧
  (∃ q_y, put (qy s) (_active s) q_y = Ok (qy s')) ∧
  (∃ sample, _water_balance s'
             = _water_balance s ++ (if track then [sample] else [])) ∧
  (∃ maxvelx maxvely,
     np_max (map np_fabs (velx s')) = Ok maxvelx ∧
     np_max (map np_fabs (vely s')) = Ok maxvely ∧
     dt = limit_dt s' (courant_dt s' maxvelx maxvely)) ∧
  _internal_dt s' = Some dt.
Proof.
  unfold calc_grads_and_timesteps. intros H.
  destruct (hnew s) as [hnew0|] eqn:Hh; simpl in H; [|done].
  destruct upd; simpl in H; [done|].
  destruct track; simpl in H; inv_ok; subst; simpl in *;
    (split_and!; [done|done|done|by eexists|by eexists|by eexists
                 | |by eexists _, _|done]).
  - by eexists.
  - exists F.zero. by rewrite app_nil_r.
Qed.

(** What a successful pass through the loop body did: the gradient stage,
    the look-ups through the neighbour table, then the four groups of
    statements on the working depths. *)
Lemma sub_step_Ok s active dt elapsed rain upd track s' elapsed' used :
  sub_step np_power s active dt elapsed rain upd track
  = Ok (s', elapsed', used) →
  elapsed' = NpFloat64 (value elapsed + used) ∧
  ∃ pinned,
    pass_through_body np_power s active dt elapsed rain upd track
      s' used pinned.
Proof.
  unfold sub_step, pass_through_body. intros H.
  apply bind_Ok in H as ([s1 internal_dt] & Hcalc & H).
  apply bind_Ok in H as (used' & Hclip & H).
  apply bind_Ok in H as (qx_left & Hxl & H).
  apply bind_Ok in H as (qx_right & Hxr & H).
  apply bind_Ok in H as (qy_top & Hyt & H).
  apply bind_Ok in H as (qy_bottom & Hyb & H).
  apply bind_Ok in H as (h0 & Hh0 & H).
  apply bind_Ok in H as (h1 & Hh1 & H).
  apply bind_Ok in H as (h2 & Hh2 & H).
  apply bind_Ok in H as (h3 & Hh3 & H).
  apply bind_Ok in H as (h4 & Hh4 & H).
  injection H as <- <- <-. split; [done|].
  exists h2, s1, internal_dt, qx_left, qx_right, qy_top, qy_bottom,
    h0, h1, h3, h4.
  destruct (hnew s1); [|done]. injection Hh0 as ->. done.
Qed.

(** A property that every pass through the body carries forward holds
    after the loop, counted in passes. *)
Lemma while_loop_ind (P : KinematicWaveRengers → nat → Prop)
  active dt rain upd track :
  (∀ s k elapsed s' elapsed' used,
     P s k →
     sub_step np_power s active dt elapsed rain upd track
     = Ok (s', elapsed', used) →
     P s' (S k)) →
  ∀ fuel s elapsed k s' steps,
    P s k →
    while_loop np_power fuel s active dt elapsed rain upd track
    = Some (Ok (s', steps)) →
    P s' (k + length steps).
Proof.
  intros Hstep. induction fuel as [|fuel IH]; intros s elapsed k s' steps HP;
    simpl; destruct (PrimFloat.ltb (value elapsed) (value dt)); try done.
  - intros [= <- <-]. simpl. by rewrite Nat.add_0_r.
  - destruct (sub_step np_power s active dt elapsed rain upd track)
      as [[[s1 e1] d1]|] eqn:Hs; [|done].
    destruct (while_loop np_power fuel s1 active dt e1 rain upd track)
      as [[[s2 steps2]|]|] eqn:Hl; try done.
    intros [= <- <-]. simpl.
    replace (k + S (length steps2)) with (S k + length steps2) by lia.
    eapply IH; [|done]. by eapply Hstep.
  - intros [= <- <-]. simpl. by rewrite Nat.add_0_r.
Qed.

(** What a successful call of [run_one_step] did. *)
Lemma run_one_step_steps_Ok fuel s dt rain upd track s' steps :
  run_one_step_steps np_power fuel s dt rain upd track
  = Some (Ok (s', steps)) →
  ∃ h0 s2,
    upd = false ∧
    take (_h s) (_active s) = Ok h0 ∧
    while_loop np_power fuel (set_hnew h0 s) (_active s) dt (PyFloat 0)
      rain upd track = Some (Ok (s2, steps)) ∧
    update_the_actual_fields s2 (_active s) = Ok s'.
Proof.
  unfold run_one_step_steps. intros H.
  destruct (take (_h s) (_active s)) as [h0|] eqn:Hh0; simpl in H; [|done].
  destruct upd; simpl in H; [done|].
  destruct (while_loop np_power fuel (set_hnew h0 s) (_active s) dt
              (PyFloat 0) rain false track) as [[[s2 steps2]|]|] eqn:Hl;
    try done.
  injection H as H. apply bind_Ok in H as (s3 & Hf & [= <- <-]).
  by exists h0, s2.
Qed.

Lemma update_the_actual_fields_Ok s active s' :
  update_the_actual_fields s active = Ok s' →
  ∃ h0 h vel dis,
    hnew s = Some h0 ∧ put (_h s) active h0 = Ok h ∧
    s' = set_fields h vel dis s.
Proof.
  unfold update_the_actual_fields. intros H.
  destruct (hnew s) as [h0|]; simpl in H; [|done].
  inv_ok. subst. by eexists _, _, _, _.
Qed.

Lemma active_in_range (g : Grid) :
  Forall (fun i => 0 ≤ i < Z.of_nat (number_of_nodes g))%Z
    (np_where (map (is_not BC_NODE_IS_CORE) (status_at_node g))).
Proof.
  unfold number_of_nodes.
  rewrite <- (length_map (is_not BC_NODE_IS_CORE) (status_at_node g)).
  apply np_where_bounds.
Qed.

Lemma __init___consistent g p s :
  __init__ np_power g p = Ok s → consistent g s 0.
Proof.
  unfold __init__. intros H.
  destruct (arg_dt_max p) as [d|]; simpl in H; [|done].
  destruct (np_isclose d 0); [done|].
  inv_ok. subst. constructor; simpl; try done.
  - by eexists.
  - eexists. split; [done|].
    match goal with H : take_mask _ _ = Ok _ |- _ =>
      by apply take_mask_Ok in H as [_ ->] end.
  - by rewrite length_replicate, Nat.add_1_r.
  - apply lookup_replicate_2. lia.
  - by rewrite length_replicate, Nat.add_1_r.
  - apply lookup_replicate_2. lia.
Qed.

Lemma consistent_transfer g s n s' n' :
  consistent g s n → same_setup s s' →
  length (qx s') = length (qx s) →
  qx s' !! number_of_nodes g = qx s !! number_of_nodes g →
  length (qy s') = length (qy s) →
  qy s' !! number_of_nodes g = qy s !! number_of_nodes g →
  length (_water_balance s') = n' →
  consistent g s' n'.
Proof.
  intros [Hg Ha Hb Hd Hn Hxl Hx Hyl Hy Ht] [Eg Ea Eb Ed En _ _ _ _]
    Lx Sx Ly Sy Hn'.
  constructor; try congruence.
  - rewrite Ea, Eb. done.
  - rewrite Ea, Eb, Ed. done.
Qed.

Lemma consistent_calc g s n upd track s' dt :
  consistent g s n →
  calc_grads_and_timesteps np_power s upd track = Ok (s', dt) →
  consistent g s' (n + if track then 1 else 0).
Proof.
  intros Hc H.
  apply calc_grads_and_timesteps_Ok in H
    as (_ & Hsame & _ & _ & [q_x Hqx] & [q_y Hqy] & [w Hw] & _).
  pose proof (active_in_range g) as Hact.
  rewrite <- (c_active _ _ _ Hc) in Hact.
  eapply consistent_transfer; [done|done|..].
  - by eapply put_length.
  - by eapply put_lookup_above.
  - by eapply put_length.
  - by eapply put_lookup_above.
  - rewrite Hw, length_app, (c_trace _ _ _ Hc). by destruct track.
Qed.

Lemma consistent_set_hnew g s n h :
  consistent g s n → consistent g (set_hnew h s) n.
Proof. intros []. by constructor. Qed.

Lemma consistent_sub_step g s n active dt elapsed rain upd track
  s' elapsed' used :
  consistent g s n →
  sub_step np_power s active dt elapsed rain upd track
  = Ok (s', elapsed', used) →
  consistent g s' (n + if track then 1 else 0).
Proof.
  intros Hc H.
  apply sub_step_Ok in H
    as (_ & pinned & s1 & d & ? & ? & ? & ? & ? & ? & ? & h4 &
        Hcalc & _ & _ & _ & _ & _ & _ & _ & _ & _ & _ & ->).
  apply consistent_set_hnew. by eapply consistent_calc.
Qed.

Lemma consistent_run_one_step g s n fuel dt rain upd track s' steps :
  consistent g s n →
  run_one_step_steps np_power fuel s dt rain upd track
  = Some (Ok (s', steps)) →
  consistent g s' (n + if track then length steps else 0).
Proof.
  intros Hc H.
  apply run_one_step_steps_Ok in H as (h0 & s2 & -> & _ & Hloop & Hfin).
  apply update_the_actual_fields_Ok in Hfin
    as (? & h & vel & dis & _ & _ & ->).
  assert (consistent g s2 (n + if track then length steps else 0))
    as [].
  { destruct track.
    - apply (while_loop_ind (fun s k => consistent g s (n + k))
               (_active s) dt rain false true) with (k := 0) in Hloop;
        [done| |].
      + intros ? k ? ? ? ? Hk Hs.
        replace (n + S k) with (n + k + 1) by lia.
        by eapply (consistent_sub_step _ _ _ _ _ _ _ _ true).
      + rewrite Nat.add_0_r. by apply consistent_set_hnew.
    - rewrite Nat.add_0_r.
      apply (while_loop_ind (fun s k => consistent g s n)
               (_active s) dt rain false false) with (k := 0) in Hloop;
        [done| |].
      + intros ? k ? ? ? ? Hk Hs. rewrite <- (Nat.add_0_r n).
        by eapply (consistent_sub_step _ _ _ _ _ _ _ _ false).
      + by apply consistent_set_hnew. }
  by constructor.
Qed.

Lemma internal_timestep_Ok s s' v :
  internal_timestep np_power s = Ok (s', v) →
  (_internal_dt s = Some v ∧ s' = s) ∨
  (_internal_dt s = None ∧
   ∃ dt, calc_grads_and_timesteps np_power s false false = Ok (s', dt)).
Proof.
  unfold internal_timestep. destruct (_internal_dt s) as [v0|].
  - intros [= <- <-]. by left.
  - intros H. right. split; [done|].
    apply bind_Ok in H as ([s1 dt] & Hcalc & H).
    destruct (_internal_dt s1); [|done]. injection H as <- <-.
    by exists dt.
Qed.

Lemma reached_consistent g p s n :
  reached np_power g p s n → consistent g s n.
Proof.
  induction 1 as [s H|s n fuel dt rain upd track s' steps _ IH H
                 |s n h0 _ IH H
                 |s n active dt elapsed rain upd track s' elapsed' used
                    _ IH H
                 |s n upd track s' dt _ IH H|s n s' _ IH H
                 |s n s' v _ IH H].
  - by eapply __init___consistent.
  - by eapply consistent_run_one_step.
  - by apply consistent_set_hnew.
  - by eapply consistent_sub_step.
  - by eapply consistent_calc.
  - by rewrite update_topographic_params_raises in H.
  - apply internal_timestep_Ok in H as [[_ ->]|[_ [dt H]]]; [done|].
    rewrite <- (Nat.add_0_r n).
    by eapply (consistent_calc _ _ _ false false).
Qed.


(** ** The loop that does not advance *)

(** A pass through the body that returns the instance and the clock it
    started from, while the loop condition holds, will do so again. *)
Lemma while_loop_stalls s active dt elapsed rain upd track used :
  PrimFloat.ltb (value elapsed) (value dt) = true →
  sub_step np_power s active dt elapsed rain upd track
  = Ok (s, elapsed, used) →
  ∀ fuel,
    while_loop np_power fuel s active dt elapsed rain upd track = None.
Proof.
  intros Hlt Hstep. induction fuel as [|fuel IH]; simpl; rewrite Hlt.
  - done.
  - by rewrite Hstep, IH.
Qed.

Lemma run_one_step_stalls s dt rain track h0 s1 elapsed1 used0 used1 :
  take (_h s) (_active s) = Ok h0 →
  PrimFloat.ltb 0 (value dt) = true →
  sub_step np_power (set_hnew h0 s) (_active s) dt (PyFloat 0) rain
    false track = Ok (s1, elapsed1, used0) →
  PrimFloat.ltb (value elapsed1) (value dt) = true →
  sub_step np_power s1 (_active s) dt elapsed1 rain false track
  = Ok (s1, elapsed1, used1) →
  ∀ fuel, run_one_step np_power fuel s dt rain false track = None.
Proof.
  intros Hh0 Hdt Hfirst Hlt Hagain fuel.
  unfold run_one_step, run_one_step_steps. rewrite Hh0. simpl.
  destruct fuel as [|fuel]; simpl; rewrite Hdt; [done|].
  rewrite Hfirst.
  by rewrite (while_loop_stalls _ _ _ _ _ _ _ _ Hlt Hagain).
Qed.

(** ** Construction *)

Lemma take_raises {A} (a : list A) idx e :
  take a idx = Raise e → e = IndexError.
Proof.
  induction idx as [|i idx IH]; simpl; [done|].
  intros H. apply bind_Raise in H as [H|(x & _ & H)].
  - unfold getitem in H. apply bind_Raise in H as [H|(k & _ & H)].
    + unfold normalize_index in H. by case_match; simplify_eq.
    + by destruct (a !! k); simplify_eq.
  - apply bind_Raise in H as [H|(xs & _ & H)]; [by apply IH|done].
Qed.

Lemma normalize_indices_raises n idx e :
  normalize_indices n idx = Raise e → e = IndexError.
Proof.
  induction idx as [|i idx IH]; simpl; [done|].
  intros H. apply bind_Raise in H as [H|(x & _ & H)].
  - unfold normalize_index in H. by case_match; simplify_eq.
  - apply bind_Raise in H as [H|(xs & _ & H)]; [by apply IH|done].
Qed.

Lemma positions_in_active_raises g nodes active e :
  positions_in_active g nodes active = Raise e → e = IndexError.
Proof.
  unfold positions_in_active, put_scalar, put. intros H.
  apply bind_Raise in H as [H|(blank & _ & H)].
  - apply bind_Raise in H as [H|(ks & _ & H)].
    + by eapply normalize_indices_raises.
    + apply bind_Raise in H as [H|(vs & _ & H)]; [|done].
      unfold broadcast_to in H. by case_decide.
  - apply bind_Raise in H as [H|(v & _ & H)]; [|done].
    by eapply take_raises.
Qed.

Lemma slopept5_raises grads active e :
  slopept5 np_power grads active = Raise e → e = IndexError.
Proof.
  unfold slopept5. intros H.
  apply bind_Raise in H as [H|(v & _ & H)]; [|done].
  by eapply take_raises.
Qed.

Lemma positions_in_active_Ok g nodes :
  Forall (fun i => 0 ≤ i < Z.of_nat (number_of_nodes g))%Z nodes →
  ∃ v, positions_in_active g nodes
         (np_where (map (is_not BC_NODE_IS_CORE) (status_at_node g)))
       = Ok v.
Proof.
  intros Hn. unfold positions_in_active, put_scalar, put, grid_zeros.
  rewrite length_replicate, normalize_indices_nonneg by done. simpl.
  assert (∃ vs, broadcast_to (length (map Z.to_nat nodes)) [true] = Ok vs)
    as [vs ->].
  { unfold broadcast_to. case_decide; by eexists. }
  simpl.
  destruct (take_nonneg
              (put_loop (replicate (number_of_nodes g) false)
                 (map Z.to_nat nodes) vs)
              (np_where (map (is_not BC_NODE_IS_CORE) (status_at_node g))))
    as [v ->].
  { rewrite put_loop_length, length_replicate. apply active_in_range. }
  simpl. by eexists.
Qed.

Lemma __init___Ok g p d :
  arg_dt_max p = Some d → np_isclose d 0 = false → well_formed g →
  ∃ s, __init__ np_power g p = Ok s.
Proof.
  intros Hd Hclose [Hh Hv Hdep Hfg Han].
  pose proof (active_in_range g) as Hact.
  unfold __init__. rewrite Hd. simpl. rewrite Hclose.
  destruct (take_nonneg (surface_water__depth g) _
              ltac:(rewrite Hdep; exact Hact)) as [ha Ha].
  rewrite Ha. simpl. unfold slopept5.
  destruct (take_nonneg (hoz_grads_at_node g) _
              ltac:(rewrite Hh; exact Hact)) as [hg ->].
  destruct (take_nonneg (vert_grads_at_node g) _
              ltac:(rewrite Hv; exact Hact)) as [vg ->].
  simpl.
  destruct (take_nonneg (status_at_node g) _ Hact) as [sa Hsa].
  rewrite Hsa. simpl. unfold take_mask.
  rewrite decide_True
    by (rewrite length_map, (take_length _ _ _ Hsa),
          (take_length _ _ _ Ha); done).
  simpl.
  destruct (positions_in_active_Ok g _ Hfg) as [fgn ->].
  destruct (positions_in_active_Ok g _ Han) as [fga ->].
  simpl. by eexists.
Qed.

Lemma __init___config_error g p d :
  arg_dt_max p = Some d →
  (__init__ np_power g p = Raise config_error ↔ np_isclose d 0 = true).
Proof.
  intros Hd. unfold __init__. rewrite Hd. simpl.
  destruct (np_isclose d 0); [done|]. split; [|done]. intros H.
  repeat match type of H with
    | _ ≫= _ = Raise _ =>
        apply bind_Raise in H as [H|(? & _ & H)]
    end;
    first [ apply take_raises in H
          | apply slopept5_raises in H
          | apply positions_in_active_raises in H
          | idtac ];
    try discriminate H.
  unfold take_mask in H. by case_decide.
Qed.

Lemma __init___fresh g p s :
  __init__ np_power g p = Ok s → hnew s = None ∧ _internal_dt s = None.
Proof.
  unfold __init__. intros H.
  destruct (arg_dt_max p) as [d|]; simpl in H; [|done].
  destruct (np_isclose d 0); [done|].
  inv_ok. by subst.
Qed.
End method_facts.

Lemma raster3x3_well_formed center edge hoz vert depth :
  well_formed (raster3x3 center edge hoz vert depth).
Proof. constructor; try done; apply Forall_nil_2. Qed.

(** ** The gradient stage returns *)

Lemma arr2_same_length {A B C} (f : A → B → C) (a : list A) (b : list B) :
  length a = length b → arr2 f a b = Ok (zip_with f a b).
Proof. intros H. unfold arr2. by rewrite decide_True. Qed.

Lemma arr2_inplace_length {A B} (f : A → B → A) (a : list A) (b : list B)
  (c : list A) :
  arr2_inplace f a b = Ok c → length c = length a.
Proof.
  unfold arr2_inplace. case_decide as Hl.
  - intros [= <-]. rewrite length_zip_with. lia.
  - destruct b as [|y [|]]; try done. intros [= <-]. apply length_map.
Qed.

Lemma put_in_range {A} (a : list A) (idx : list Z) (vals : list A) :
  Forall (fun i => 0 ≤ i < Z.of_nat (length a))%Z idx →
  length vals = length idx →
  ∃ a', put a idx vals = Ok a' ∧ length a' = length a.
Proof.
  intros Hidx Hl. unfold put.
  rewrite normalize_indices_nonneg by done. simpl.
  unfold broadcast_to. rewrite decide_True by (by rewrite length_map).
  simpl. eexists. split; [done|]. apply put_loop_length.
Qed.

Lemma negate_where_in_range (a : list float) (mask : list bool) :
  length mask = length a →
  ∃ a', negate_where a mask = Ok a' ∧ length a' = length a.
Proof.
  intros Hl. unfold negate_where, take_mask, put_mask.
  rewrite decide_True by done. simpl. rewrite decide_True by done.
  apply put_in_range.
  - rewrite <- Hl. apply np_where_bounds.
  - rewrite length_map. apply compress_length. lia.
Qed.

Lemma negate_where_length (a : list float) (mask : list bool) a' :
  negate_where a mask = Ok a' → length a' = length a.
Proof.
  unfold negate_where, put_mask. intros H.
  apply bind_Ok in H as (v & _ & H). case_decide; [|done].
  by eapply put_length.
Qed.

Section shape_facts.
Variable np_power : float → float → float.

Lemma __init___shaped g p s :
  well_formed g → __init__ np_power g p = Ok s → shaped g s.
Proof.
  intros [Hh Hv Hd _ _]. unfold __init__, slopept5. intros H.
  destruct (arg_dt_max p) as [d|]; simpl in H; [|done].
  destruct (np_isclose d 0); [done|].
  inv_ok. subst. constructor; simpl; try done.
  - unfold grid_zeros. by rewrite length_replicate.
  - unfold grid_zeros. by rewrite length_replicate.
  - rewrite length_map. by eapply take_length.
  - rewrite length_map. by eapply take_length.
  - by rewrite length_map.
  - by rewrite length_map.
Qed.

(** The gradient stage leaves the shapes as they are. *)
Lemma calc_grads_and_timesteps_shaped g s upd track s' dt :
  shaped g s →
  calc_grads_and_timesteps np_power s upd track = Ok (s', dt) →
  _active s' = _active s ∧ shaped g s'.
Proof.
  intros [Hh Hx Hy Hhs Hvs Hph Hpv Hn]. unfold calc_grads_and_timesteps.
  intros H.
  destruct (hnew s) as [hnew0|] eqn:Hh0; simpl in H; [|done].
  destruct upd; simpl in H; [done|].
  assert (∀ a b c d : list float,
            put (velx s) (_active s) a = Ok b →
            negate_where b (poshozgrads s) = Ok c →
            length c = number_of_nodes g) as Lx.
  { intros a b c _ Ha Hb. apply negate_where_length in Hb.
    apply put_length in Ha. congruence. }
  assert (∀ a b c : list float,
            put (vely s) (_active s) a = Ok b →
            negate_where b (posvertgrads s) = Ok c →
            length c = number_of_nodes g) as Ly.
  { intros a b c Ha Hb. apply negate_where_length in Hb.
    apply put_length in Ha. congruence. }
  destruct track; simpl in H; inv_ok; subst; simpl in *;
    (split; [done|]); constructor; simpl; try done;
    try (by eapply (Lx _ _ _ []));
    try (by eapply Ly);
    try (by intros h [= <-]; rewrite length_map; apply Hn).
Qed.

Lemma sub_step_shaped g s active dt elapsed rain upd track
  s' elapsed' used :
  shaped g s →
  sub_step np_power s active dt elapsed rain upd track
  = Ok (s', elapsed', used) →
  _active s' = _active s ∧ shaped g s'.
Proof.
  intros Hs H.
  apply sub_step_Ok in H
    as (_ & pinned & s1 & d & ? & ? & ? & ? & h0 & h1 & h3 & h4 &
        Hcalc & _ & _ & _ & _ & _ & Hh0 & Hrain & Hpin & Hflux & Hcopy & ->).
  destruct (calc_grads_and_timesteps_shaped _ _ _ _ _ _ Hs Hcalc)
    as [Ea [Hh Hx Hy Hhs Hvs Hph Hpv Hn]].
  split; [done|]. constructor; simpl; try done.
  intros h [= <-]. rewrite <- (Hn _ Hh0).
  unfold copy_anchors in Hcopy. apply bind_Ok in Hcopy as (? & _ & Hcopy).
  apply put_length in Hcopy. rewrite Hcopy.
  assert (length h3 = length pinned) as ->.
  { unfold flux_it_round in Hflux.
    apply bind_Ok in Hflux as (? & _ & Hflux).
    apply bind_Ok in Hflux as (a1 & H1 & Hflux).
    apply bind_Ok in Hflux as (? & _ & Hflux).
    apply bind_Ok in Hflux as (a2 & H2 & Hflux).
    apply bind_Ok in Hflux as (? & _ & Hflux).
    apply bind_Ok in Hflux as (? & _ & Hflux).
    apply bind_Ok in Hflux as (a3 & H3 & Hflux).
    apply bind_Ok in Hflux as (? & _ & Hflux).
    apply bind_Ok in Hflux as (? & _ & Hflux).
    apply arr2_inplace_length in H1, H2, H3, Hflux. congruence. }
  unfold set_the_BCs, put_mask in Hpin. case_decide; [|done].
  apply put_length in Hpin. rewrite Hpin.
  unfold add_rainfall in Hrain. destruct rain as [r|a].
  - injection Hrain as <-. apply length_map.
  - apply bind_Ok in Hrain as (? & _ & Hrain).
    by apply arr2_inplace_length in Hrain.
Qed.

Lemma working_copy_shaped g s h0 :
  shaped g s → take (_h s) (_active s) = Ok h0 → shaped g (set_hnew h0 s).
Proof.
  intros [] Hh0. constructor; simpl; try done.
  intros h [= <-]. by eapply take_length.
Qed.

Lemma run_one_step_shaped g s fuel dt rain upd track s' steps :
  shaped g s →
  run_one_step_steps np_power fuel s dt rain upd track
  = Some (Ok (s', steps)) →
  _active s' = _active s ∧ shaped g s'.
Proof.
  intros Hs H.
  apply run_one_step_steps_Ok in H as (h0 & s2 & -> & Hh0 & Hloop & Hfin).
  apply update_the_actual_fields_Ok in Hfin
    as (? & h & vel & dis & _ & Hput & ->).
  apply (while_loop_ind np_power
           (fun s' _ => _active s' = _active s ∧ shaped g s')
           (_active s) dt rain false track) with (k := 0) in Hloop.
  - destruct Hloop as [Ea [Hh Hx Hy Hhs Hvs Hph Hpv Hn]].
    split; [done|]. constructor; simpl; try done.
    apply put_length in Hput. congruence.
  - intros s1 k e1 s1' e1' used [Ea Hs1] Hstep.
    destruct (sub_step_shaped _ _ _ _ _ _ _ _ _ _ _ Hs1 Hstep) as [Ea' Hs1'].
    split; [congruence|done].
  - split; [done|]. by apply working_copy_shaped.
Qed.

Lemma reached_shaped g p s n :
  well_formed g → reached np_power g p s n → shaped g s.
Proof.
  intros Hwf.
  induction 1 as [s H|s n fuel dt rain upd track s' steps _ IH H
                 |s n h0 _ IH H
                 |s n active dt elapsed rain upd track s' elapsed' used
                    _ IH H
                 |s n upd track s' dt _ IH H|s n s' _ IH H
                 |s n s' v _ IH H].
  - by eapply __init___shaped.
  - by eapply run_one_step_shaped.
  - by apply working_copy_shaped.
  - by eapply sub_step_shaped.
  - by eapply calc_grads_and_timesteps_shaped.
  - by rewrite update_topographic_params_raises in H.
  - apply internal_timestep_Ok in H as [[_ ->]|[_ [dt H]]]; [done|].
    by eapply calc_grads_and_timesteps_shaped.
Qed.

(** On a grid that has a node and whose arrays fit its nodes, the gradient
    stage returns on every instance that has its working depths. *)
Lemma calc_grads_and_timesteps_returns g p s n track :
  well_formed g → 0 < number_of_nodes g →
  reached np_power g p s n → is_Some (hnew s) →
  returns (calc_grads_and_timesteps np_power s false track).
Proof.
  intros Hwf HN Hreached [h0 Hh0].
  pose proof (reached_shaped _ _ _ _ Hwf Hreached)
    as [Hh Hx Hy Hhs Hvs Hph Hpv Hn].
  apply reached_consistent in Hreached
    as [_ Hact _ _ _ Hqxl _ Hqyl _ _].
  pose proof (active_in_range g) as Hr. rewrite <- Hact in Hr.
  assert (Forall (fun i => 0 ≤ i < Z.of_nat (S (number_of_nodes g)))%Z
            (_active s)) as Hr'.
  { eapply Forall_impl; [exact Hr|]. simpl. lia. }
  specialize (Hn _ Hh0).
  unfold calc_grads_and_timesteps. rewrite Hh0. cbn [mbind result_bind].
  assert (∀ k : KinematicWaveRengers → result (KinematicWaveRengers * float),
            (∀ w, returns (k (set_water_balance w
                     (set_hnew
                        (map (fun x =>
                                np_maximum x (min_surface_water_depth s)) h0)
                        s)))) →
            returns (k (set_hnew
                          (map (fun x =>
                                  np_maximum x (min_surface_water_depth s))
                             h0) s)) →
            returns
              ((if track then
                  h_active ← take (_h s) (_active s);
                  diff ← arr2 PrimFloat.sub
                           (map (fun x =>
                                   np_maximum x (min_surface_water_depth s))
                              h0) h_active;
                  Ok (set_water_balance
                        (_water_balance s
                         ++ [np_sum diff / np_sum h_active]%float)
                        (set_hnew
                           (map (fun x =>
                                   np_maximum x (min_surface_water_depth s))
                              h0) s))
                else Ok (set_hnew
                           (map (fun x =>
                                   np_maximum x (min_surface_water_depth s))
                              h0) s)) ≫= k)) as Htrack.
  { intros k Hk1 Hk2. destruct track; [|exact Hk2].
    destruct (take_nonneg (_h s) (_active s)) as [ha Hha];
      [by rewrite Hh|].
    rewrite Hha. cbn [mbind result_bind].
    rewrite arr2_same_length
      by (rewrite length_map, Hn; symmetry; by eapply take_length).
    cbn [mbind result_bind]. apply Hk1. }
  apply Htrack; clear Htrack; [intros w|]; cbn -[np_maximum].
  all: match goal with
       | |- returns (arr2 ?f ?a ?b ≫= _) =>
           rewrite (arr2_same_length f a b)
             by (rewrite length_zip_with, !length_map; lia)
       end;
       cbn [mbind result_bind].
  all: match goal with
       | |- returns (put ?a ?idx ?vals ≫= _) =>
           destruct (put_in_range a idx vals) as (vely1 & -> & Lvy1);
           [rewrite Hy; exact Hr
           |rewrite !length_zip_with, !length_map; lia|]
       end;
       cbn [mbind result_bind].
  all: match goal with
       | |- returns (arr2 ?f ?a ?b ≫= _) =>
           rewrite (arr2_same_length f a b)
             by (rewrite length_zip_with, !length_map; lia)
       end;
       cbn [mbind result_bind].
  all: match goal with
       | |- returns (put ?a ?idx ?vals ≫= _) =>
           destruct (put_in_range a idx vals) as (velx1 & -> & Lvx1);
           [rewrite Hx; exact Hr
           |rewrite !length_zip_with, !length_map; lia|]
       end;
       cbn [mbind result_bind].
  all: destruct (negate_where_in_range vely1 (posvertgrads s))
         as (vely2 & -> & Lvy2); [lia|];
       cbn [mbind result_bind].
  all: destruct (negate_where_in_range velx1 (poshozgrads s))
         as (velx2 & -> & Lvx2); [lia|];
       cbn [mbind result_bind].
  all: destruct (take_nonneg vely2 (_active s)) as [vya Hvya];
         [rewrite Lvy2, Lvy1, Hy; exact Hr|];
       rewrite Hvya; apply take_length in Hvya;
       cbn [mbind result_bind].
  all: match goal with
       | |- returns (arr2 ?f ?a ?b ≫= _) =>
           rewrite (arr2_same_length f a b) by (rewrite length_map; lia)
       end;
       cbn [mbind result_bind].
  all: match goal with
       | |- returns (put ?a ?idx ?vals ≫= _) =>
           destruct (put_in_range a idx vals) as (qy1 & -> & _);
           [rewrite Hqyl; exact Hr'
           |rewrite !length_zip_with, !length_map; lia|]
       end;
       cbn [mbind result_bind].
  all: destruct (take_nonneg velx2 (_active s)) as [vxa Hvxa];
         [rewrite Lvx2, Lvx1, Hx; exact Hr|];
       rewrite Hvxa; apply take_length in Hvxa;
       cbn [mbind result_bind].
  all: match goal with
       | |- returns (arr2 ?f ?a ?b ≫= _) =>
           rewrite (arr2_same_length f a b) by (rewrite length_map; lia)
       end;
       cbn [mbind result_bind].
  all: match goal with
       | |- returns (put ?a ?idx ?vals ≫= _) =>
           destruct (put_in_range a idx vals) as (qx1 & -> & _);
           [rewrite Hqxl; exact Hr'
           |rewrite !length_zip_with, !length_map; lia|]
       end;
       cbn [mbind result_bind].
  all: destruct vely2 as [|vy0 vely2]; [simpl in Lvy2; lia|];
       destruct velx2 as [|vx0 velx2]; [simpl in Lvx2; lia|].
  all: eexists; reflexivity.
Qed.

End shape_facts.

(** ** The active set, the pinned depths and the neighbour look-ups *)

(** The active set the constructor caches, for every grid: the nodes whose
    status is not [BC_NODE_IS_CORE]. *)
Lemma __init___active np_power g p s (i : Z) :
  __init__ np_power g p = Ok s →
  i ∈ _active s ↔
  (0 ≤ i)%Z ∧ ∃ st, status_at_node g !! Z.to_nat i = Some st ∧
                    st ≠ BC_NODE_IS_CORE.
Proof.
  intros H. apply (__init___consistent np_power) in H as [].
  rewrite c_active0, np_where_elem, list_lookup_fmap.
  split; intros [Hi H]; (split; [done|]).
  - destruct (status_at_node g !! Z.to_nat i) as [st|]; [|done].
    exists st. split; [done|]. simpl in H. injection H as H.
    by apply bool_decide_eq_true in H.
  - destruct H as (st & -> & Hst). simpl. f_equal.
    by apply bool_decide_eq_true.
Qed.

Lemma getitem_nonneg_inv {A} (a : list A) (i : Z) (x : A) :
  getitem a i = Ok x → (0 ≤ i)%Z → a !! Z.to_nat i = Some x.
Proof.
  intros H Hi. apply getitem_lookup in H as (k & Hk & Hx).
  unfold normalize_index in Hk.
  destruct (Z.ltb_spec i (- Z.of_nat (length a))),
    (Z.leb_spec (Z.of_nat (length a)) i); simpl in Hk; try done.
  destruct (Z.ltb_spec i 0); [lia|]. by injection Hk as <-.
Qed.

Lemma set_the_BCs_pins g s n hnew pinned :
  consistent g s n →
  set_the_BCs s hnew = Ok pinned →
  pinned_to_configured_depth g s pinned.
Proof.
  intros [_ Hact (sa & Hsa & Hbcs) (ha & Hha & Hbcd) _ _ _ _ _ _] Hpin
    i node Hi Hst.
  unfold set_the_BCs in Hpin. rewrite Hbcd in Hpin.
  assert (length (actives_BCs s) = length hnew) as Hlen.
  { unfold put_mask in Hpin. by case_decide. }
  assert (length ha = length (actives_BCs s)) as Hlen'.
  { rewrite Hbcs, length_map, (take_length _ _ _ Hsa).
    by apply take_length in Hha. }
  destruct (put_mask_compress hnew (actives_BCs s) ha Hlen Hlen')
    as (pinned' & Hpin' & Hlookup).
  rewrite Hpin in Hpin'. injection Hpin' as <-.
  assert (0 ≤ node)%Z as Hnode.
  { pose proof (active_in_range g) as Hr. rewrite <- Hact in Hr.
    rewrite Forall_forall in Hr.
    apply Hr, list_elem_of_lookup. by exists i. }
  destruct (take_lookup _ _ _ _ _ Hsa Hi) as (st & Hsti & Hget).
  apply getitem_nonneg_inv in Hget; [|done].
  rewrite Hst in Hget. injection Hget as <-.
  destruct (take_lookup _ _ _ _ _ Hha Hi) as (d & Hdi & Hgetd).
  apply getitem_nonneg_inv in Hgetd; [|done].
  exists d. split; [done|].
  rewrite Hlookup, Hbcs, list_lookup_fmap, Hsti. done.
Qed.

Lemma column_map_row f r j : column j (map_row f r) = f (column j r).
Proof. destruct r as [[[c0 c1] c2] c3]. by destruct j as [|[|[|j]]]. Qed.

Lemma getitem_minus_one {A} (q : list A) n x :
  length q = S n → q !! n = Some x → getitem q (-1) = Ok x.
Proof.
  intros Hl Hx. unfold getitem.
  rewrite Hl, normalize_index_last. simpl. by rewrite Hx.
Qed.

Lemma neighbor_flux_lookup clip q nb j v i row x :
  neighbor_flux clip q nb j = Ok v →
  nb !! i = Some row →
  getitem q (column j row) = Ok x →
  v !! i = Some (clip x).
Proof.
  unfold neighbor_flux. intros H Hrow Hx.
  apply bind_Ok in H as (v0 & Htake & [= <-]).
  assert (map (column j) nb !! i = Some (column j row)) as Hi.
  { by rewrite list_lookup_fmap, Hrow. }
  destruct (take_lookup _ _ _ _ _ Htake Hi) as (x' & Hv0 & Hx').
  rewrite Hx in Hx'. injection Hx' as <-.
  by rewrite list_lookup_fmap, Hv0.
Qed.

(** ** The examples, for every power function *)

Lemma pow_special_ieee : ieee_pow pow_special.
Proof.
  split_and!; reflexivity.
Qed.

(** evaluate, replacing the powers the standard fixes as they appear *)
Ltac evaluate Hpow :=
  let H1 := fresh in
  let H2 := fresh in
  let H3 := fresh in
  pose proof Hpow as (H1 & H2 & H3);
  vm_compute;
  repeat (progress rewrite ?H1, ?H2, ?H3; vm_compute);
  reflexivity.

(** On [closed_edges] the constructor's active set is the eight closed edge
    nodes. *)
Lemma closed_edges_active np_power :
  ieee_pow np_power →
  _active <$> __init__ np_power closed_edges default_params
  = Ok [0; 1; 2; 3; 5; 6; 7; 8]%Z.
Proof. intros Hpow. evaluate Hpow. Qed.

(** On [rising], one call over 0.2 takes one sub-step and leaves 0.8 at the
    fixed-value node 4, whose configured depth is 1. *)
Lemma rising_one_sub_step np_power :
  ieee_pow np_power →
  ∃ s0 s1,
    __init__ np_power rising (unit_params 0.3) = Ok s0 ∧
    status_at_node rising !! 4 = Some BC_NODE_IS_FIXED_VALUE ∧
    _active s0 = [4%Z] ∧
    actives_BCs s0 = [true] ∧
    actives_BCs_water_depth s0 = [1%float] ∧
    run_one_step_steps np_power 1 s0 (PyFloat 0.2) (RainScalar 0.00001)
      false false = Some (Ok (s1, [0.2%float])) ∧
    _h s1 !! 4 = Some 0.8%float ∧
    PrimFloat.eqb 0.8 1 = false.
Proof.
  intros Hpow. eexists _, _. split; [evaluate Hpow|].
  do 4 (split; [reflexivity|]).
  split; [evaluate Hpow|].
  split; reflexivity.
Qed.

(** On [rising], where every depth starts at the floor of 1, one call over
    0.4 takes two sub-steps and leaves 0.8 at the active node 4. *)
Lemma rising_two_sub_steps np_power :
  ieee_pow np_power →
  ∃ s0 s1,
    __init__ np_power rising (unit_params 0.3) = Ok s0 ∧
    min_surface_water_depth s0 = 1%float ∧
    forallb (fun h => PrimFloat.leb (min_surface_water_depth s0) h) (_h s0)
    = true ∧
    run_one_step_steps np_power 2 s0 (PyFloat 0.4) (RainScalar 0)
      false false = Some (Ok (s1, [0.2; 0.2]%float)) ∧
    _active s1 = [4%Z] ∧
    _h s1 !! 4 = Some 0.8%float ∧
    PrimFloat.ltb 0.8 (min_surface_water_depth s1) = true.
Proof.
  intros Hpow. eexists _, _. split; [evaluate Hpow|].
  split; [reflexivity|]. split; [reflexivity|].
  split; [evaluate Hpow|].
  split_and!; vm_compute; reflexivity.
Qed.

(** On [falling] with a maximum sub-step of -1, a call over 60 is still in
    its loop after any number of passes. *)
Lemma falling_never_returns np_power :
  ieee_pow np_power →
  ∃ s0,
    __init__ np_power falling (unit_params (-1)) = Ok s0 ∧
    PrimFloat.ltb 0 60 = true ∧
    ∀ fuel,
      run_one_step np_power fuel s0 (PyFloat 60) (RainScalar 0.00001)
        false false = None.
Proof.
  intros Hpow. eexists. split; [evaluate Hpow|]. split; [reflexivity|].
  eapply run_one_step_stalls.
  - vm_compute. reflexivity.
  - reflexivity.
  - evaluate Hpow.
  - reflexivity.
  - evaluate Hpow.
Qed.

(** * The claims *)

(** ** C1 *)

(** C1 (code defect).  On a 3 x 3 raster with a core node inside closed
    edges, the constructor's active set is the eight closed edge nodes: the
    core node 4 is left out, and every closed node is in.  The claim has
    it the other way round (active = not closed, core nodes included). *)
Theorem C1_active_set_is_the_non_core_nodes :
  _active <$> __init__ pow_special closed_edges default_params
  = Ok [0; 1; 2; 3; 5; 6; 7; 8]%Z
  ∧ status_at_node closed_edges !! 4 = Some BC_NODE_IS_CORE
  ∧ status_at_node closed_edges !! 0 = Some BC_NODE_IS_CLOSED.
Proof.
  split; [exact (closed_edges_active pow_special pow_special_ieee)|].
  split; reflexivity.
Qed.

(** ** C2 *)

(** C2 (code defect).  Node 4 of [rising] is an active fixed-value node
    whose configured depth is 1; after one call of [run_one_step] that takes
    a single sub-step of 0.2, the depth field holds 0.8 there.  The pass
    fixes the depth of the node and then takes the outflow of the sub-step
    off it, and nothing fixes it again before the write-back: the depth at
    the open edge is not the one that was fixed. *)
Theorem C2_fixed_value_node_after_run_one_step :
  ∃ s0 s1,
    __init__ pow_special rising (unit_params 0.3) = Ok s0 ∧
    status_at_node rising !! 4 = Some BC_NODE_IS_FIXED_VALUE ∧
    _active s0 = [4%Z] ∧
    actives_BCs s0 = [true] ∧
    actives_BCs_water_depth s0 = [1%float] ∧
    run_one_step_steps pow_special 1 s0 (PyFloat 0.2) (RainScalar 0.00001)
      false false = Some (Ok (s1, [0.2%float])) ∧
    _h s1 !! 4 = Some 0.8%float ∧
    PrimFloat.eqb 0.8 1 = false.
Proof. exact (rising_one_sub_step pow_special pow_special_ieee). Qed.

(** ** C3 *)

(** C3 (code defect).  On [rising] every depth starts at the floor of 1.
    A call of [run_one_step] over 0.4 takes two sub-steps of 0.2 and
    returns with 0.8, less than the floor, in the depth field at the
    active node 4: the floor is applied when a sub-step starts, the fluxes
    after it, and nothing before the write-back. *)
Theorem C3_depth_below_the_floor_after_run_one_step :
  ∃ s0 s1,
    __init__ pow_special rising (unit_params 0.3) = Ok s0 ∧
    min_surface_water_depth s0 = 1%float ∧
    forallb (fun h => PrimFloat.leb (min_surface_water_depth s0) h) (_h s0)
    = true ∧
    run_one_step_steps pow_special 2 s0 (PyFloat 0.4) (RainScalar 0)
      false false = Some (Ok (s1, [0.2; 0.2]%float)) ∧
    _active s1 = [4%Z] ∧
    _h s1 !! 4 = Some 0.8%float ∧
    PrimFloat.ltb 0.8 (min_surface_water_depth s1) = true.
Proof. exact (rising_two_sub_steps pow_special pow_special_ieee). Qed.

(** ** C4 *)

(** C4 (code defect).  A maximum sub-step of -1 passes the constructor's
    test (it is not close to zero).  Every sub-step is then
    [min(-1, remaining).clip(0.0) = 0], the clock stays at 0, and
    [run_one_step] over a positive step of 60 is still in its loop after
    any number of passes. *)
Theorem C4_negative_dt_max_never_terminates :
  ∃ s0,
    __init__ pow_special falling (unit_params (-1)) = Ok s0 ∧
    PrimFloat.ltb 0 60 = true ∧
    ∀ fuel,
      run_one_step pow_special fuel s0 (PyFloat 60) (RainScalar 0.00001)
        false false = None.
Proof. exact (falling_never_returns pow_special pow_special_ieee). Qed.

(** ** C5 *)

(** C5.  Whenever the gradient stage returns, the sub-step it returns (and
    caches) is [np.min((dt_max, courant_dt))], or [courant_dt] alone when
    [dt_max] is [None], where [courant_dt] is the Courant prefactor divided
    by [max|velx| + max|vely|] on grids of equal spacing and by
    [dy * max|velx| + dx * max|vely|] otherwise, the maxima being taken
    over the whole velocity arrays as the stage has just left them; hence
    the sub-step is greater than neither [dt_max] nor [courant_dt].  And the
    stage does return, on every instance that has its working depths, if
    the grid has a node and its arrays fit its nodes. *)
Theorem C5_internal_dt_is_the_smaller_bound :
  ∀ np_power s upd track,
    (∀ s' internal_dt,
       calc_grads_and_timesteps np_power s upd track = Ok (s', internal_dt) →
       stable_sub_step s s' internal_dt)
    ∧ (∀ g p n,
         well_formed g → 0 < number_of_nodes g →
         reached np_power g p s n → is_Some (hnew s) →
         returns (calc_grads_and_timesteps np_power s false track)).
Proof.
  intros np_power s upd track. split;
    [|intros g p n; apply calc_grads_and_timesteps_returns].
  intros s' internal_dt H.
  apply calc_grads_and_timesteps_Ok in H
    as (_ & [Eg _ _ _ _ Em Ee Ep _] & _ & _ & _ & _ & _ &
        (maxvelx & maxvely & Hx & Hy & Hdt) & Hc).
  exists maxvelx, maxvely. split; [done|]. split; [done|]. simpl.
  unfold limit_dt, courant_dt in Hdt. rewrite Em, Ee, Ep, Eg in Hdt.
  assert (internal_dt
          = match dt_max s with
            | Some m =>
                np_minimum m
                  (courant_prefactor s /
                   (if equaldims s then maxvelx + maxvely
                    else dy (grid s) * maxvelx + dx (grid s) * maxvely))
            | None =>
                (courant_prefactor s /
                 (if equaldims s then maxvelx + maxvely
                  else dy (grid s) * maxvelx + dx (grid s) * maxvely))%float
            end) as Hval.
  { rewrite Hdt. by destruct (equaldims s). }
  split; [exact Hval|]. split; [done|]. rewrite Hval. split.
  - intros m ->. apply np_minimum_not_gt_l.
  - destruct (dt_max s) as [m|].
    + apply np_minimum_not_gt_r.
    + apply ltb_irrefl.
Qed.

(** The first gradient stage on [rising]: the Courant bound 0.2 is the
    smaller one. *)
Lemma C5_internal_dt_is_the_smaller_bound_witness :
  ∃ s0 s s' internal_dt,
    __init__ pow_special rising (unit_params 0.3) = Ok s0 ∧
    s = set_hnew [1%float] s0 ∧
    calc_grads_and_timesteps pow_special s false false
    = Ok (s', internal_dt) ∧
    internal_dt = 0.2%float ∧
    stable_sub_step s s' internal_dt.
Proof.
  eexists _, _, _, _. split; [vm_compute; reflexivity|].
  split; [reflexivity|]. split; [vm_compute; reflexivity|].
  split; [reflexivity|].
  apply (proj1 (C5_internal_dt_is_the_smaller_bound pow_special _
                  false false)).
  vm_compute. reflexivity.
Defined.

(** ** C6 *)

(** C6, as stated, fails: a maximum sub-step of 1e-9 is not zero, the grid
    is a raster, and the constructor raises the configuration error. *)
Lemma C6_small_nonzero_dt_max_is_rejected :
  is_RasterModelGrid rising = true
  ∧ PrimFloat.eqb 1e-9 0 = false
  ∧ __init__ pow_special rising (unit_params 1e-9) = Raise config_error.
Proof. split_and!; vm_compute; reflexivity. Qed.

(** C6 (amended).  With a number as [dt_max], the constructor raises the
    configuration error whenever [dt_max] is close to zero in the sense of
    [np.isclose] (within 1e-8 of it; zero is); on a raster grid it raises
    that error in no other case, and construction succeeds when the
    grid's arrays fit its nodes. *)
Theorem C6_configuration_error :
  ∀ np_power g p d,
    arg_dt_max p = Some d →
    np_isclose 0 0 = true
    ∧ (np_isclose d 0 = true → __init__ np_power g p = Raise config_error)
    ∧ (is_RasterModelGrid g = true →
       __init__ np_power g p = Raise config_error → np_isclose d 0 = true)
    ∧ (is_RasterModelGrid g = true →
       np_isclose d 0 = false → well_formed g →
       ∃ s, __init__ np_power g p = Ok s).
Proof.
  intros np_power g p d Hd. split; [reflexivity|]. split_and!.
  - by apply __init___config_error.
  - intros _. by apply __init___config_error.
  - intros _ Hclose Hwf. by eapply __init___Ok.
Qed.

(** [rising] with a maximum sub-step of 0.3, on which construction
    succeeds. *)
Lemma C6_configuration_error_witness :
  arg_dt_max (unit_params 0.3) = Some 0.3%float
  ∧ (np_isclose 0 0 = true
     ∧ (np_isclose 0.3 0 = true →
        __init__ pow_special rising (unit_params 0.3) = Raise config_error)
     ∧ (is_RasterModelGrid rising = true →
        __init__ pow_special rising (unit_params 0.3) = Raise config_error →
        np_isclose 0.3 0 = true)
     ∧ (is_RasterModelGrid rising = true →
        np_isclose 0.3 0 = false → well_formed rising →
        ∃ s, __init__ pow_special rising (unit_params 0.3) = Ok s))
  ∧ ∃ s, __init__ pow_special rising (unit_params 0.3) = Ok s.
Proof.
  pose proof (C6_configuration_error pow_special rising (unit_params 0.3)
                0.3 eq_refl) as H.
  split; [reflexivity|]. split; [exact H|].
  destruct H as (_ & _ & _ & H).
  apply H; [reflexivity|reflexivity|apply raster3x3_well_formed].
Defined.

(** ** C7 *)

(** C7 (code defect).  On an instance fresh from the constructor, reading
    [internal_timestep] raises AttributeError: the fallback calls
    [calc_grads_and_timesteps], which reads [self.hnew], an attribute that
    only [run_one_step] assigns. *)
Theorem C7_internal_timestep_on_a_fresh_instance :
  ∀ np_power g p s,
    __init__ np_power g p = Ok s →
    internal_timestep np_power s = Raise (AttributeError "hnew").
Proof.
  intros np_power g p s H.
  apply __init___fresh in H as [Hh Hdt].
  unfold internal_timestep, calc_grads_and_timesteps.
  by rewrite Hdt, Hh.
Qed.

(** A fresh instance on [rising]. *)
Lemma C7_internal_timestep_on_a_fresh_instance_witness :
  ∃ s, __init__ pow_special rising (unit_params 0.3) = Ok s ∧
       internal_timestep pow_special s = Raise (AttributeError "hnew").
Proof.
  eexists. split.
  - vm_compute. reflexivity.
  - apply (C7_internal_timestep_on_a_fresh_instance pow_special rising
             (unit_params 0.3)).
    vm_compute. reflexivity.
Defined.

(** ** C8 *)

(** C8 (code defect).  [update_topographic_params] raises NameError on
    every instance: its first statement reads the global
    [CLOSED_BOUNDARY], which the module never binds.  So it does not
    succeed once, let alone twice with the same cached state. *)
Theorem C8_update_topographic_params_raises_NameError :
  ∀ np_power (s : KinematicWaveRengers),
    update_topographic_params np_power s
    = Raise (NameError "CLOSED_BOUNDARY").
Proof. intros. apply update_topographic_params_raises. Qed.

(** ** C9 *)



(** ** C10 *)

(** C10.  On every instance that occurs, [qx] and [qy] have one slot more
    than the grid has nodes, that slot holds zero (the constructor puts it
    there and the gradient stage writes at node ids only), missing
    neighbours are -1 in [_neighbors], and a discharge looked up through a
    missing neighbour is exactly zero, before and after clipping. *)
Theorem C10_trailing_slot_reads_zero :
  ∀ np_power g p s n,
    reached np_power g p s n → trailing_slot_is_zero g s.
Proof.
  intros np_power g p s n H.
  apply reached_consistent in H
    as [_ Hact _ _ Hnb Hxl Hx Hyl Hy _].
  pose proof (getitem_minus_one _ _ _ Hxl Hx) as Hgx.
  pose proof (getitem_minus_one _ _ _ Hyl Hy) as Hgy.
  unfold trailing_slot_is_zero. split_and!; try done.
  - rewrite Hact. apply active_in_range.
  - intros i row j Hrow Hbad. exists (map_row
      (fun j => if decide (j = BAD_INDEX g) then (-1)%Z else j) row).
    split.
    + rewrite Hnb. unfold normalize_neighbors.
      by rewrite list_lookup_fmap, Hrow.
    + rewrite column_map_row. by rewrite decide_True.
  - intros clip j v i row Hrow Hcol [Hv|Hv];
      eapply neighbor_flux_lookup; try done; by rewrite Hcol.
Qed.

(** On [rising], after a call that takes three sub-steps and leaves a
    discharge of -1 at node 4. *)
Lemma C10_trailing_slot_reads_zero_witness :
  ∃ s0 s1 steps,
    __init__ pow_special rising (unit_params 0.3) = Ok s0 ∧
    run_one_step_steps pow_special 3 s0 (PyFloat 0.5) (RainScalar 0.00001)
      false false = Some (Ok (s1, steps)) ∧
    qx s1 !! 4 = Some (-1)%float ∧
    trailing_slot_is_zero rising s1.
Proof.
  eexists _, _, _. split; [vm_compute; reflexivity|].
  split; [vm_compute; reflexivity|]. split; [reflexivity|].
  apply (C10_trailing_slot_reads_zero pow_special rising (unit_params 0.3)
           _ (0 + 0)).
  eapply (reached_run_one_step pow_special rising (unit_params 0.3)
            _ 0 3 (PyFloat 0.5) (RainScalar 0.00001) false false).
  - apply reached_init. vm_compute. reflexivity.
  - vm_compute. reflexivity.
Defined.

(** * Further properties *)

(** ** More comparisons of binary64 values *)

Lemma is_nan_not_lt (x y : float) :
  PrimFloat.is_nan x = true → PrimFloat.ltb x y = false.
Proof.
  unfold PrimFloat.is_nan. rewrite FloatAxioms.eqb_spec, ltb_spec.
  unfold SFeqb, SFltb.
  destruct (SFcompare_diag (Prim2SF x)) as [->| ->]; [done|].
  intros _. done.
Qed.

Lemma ltb_asym (x y : float) :
  PrimFloat.ltb x y = true → PrimFloat.ltb y x = false.
Proof.
  rewrite !ltb_spec. unfold SFltb.
  rewrite (SFcompare_swap (Prim2SF x) (Prim2SF y)).
  by destruct (SFcompare (Prim2SF x) (Prim2SF y)) as [[]|].
Qed.

Lemma np_maximum_not_lt (x lo : float) :
  PrimFloat.ltb (np_maximum x lo) lo = false.
Proof.
  unfold np_maximum, F.geb.
  destruct (PrimFloat.leb lo x) eqn:Hle; simpl.
  - by apply leb_not_gt.
  - destruct (PrimFloat.is_nan x) eqn:Hnan;
      [by apply is_nan_not_lt|apply ltb_irrefl].
Qed.

Lemma np_maximum_above (x lo : float) :
  PrimFloat.leb lo x = true → np_maximum x lo = x.
Proof. unfold np_maximum, F.geb. by intros ->. Qed.

Lemma sub_zero_r (x : float) : (x - 0)%float = x.
Proof.
  rewrite <- (SF2Prim_Prim2SF (x - 0)), sub_spec.
  rewrite <- (SF2Prim_Prim2SF x) at 2. f_equal.
  change (Prim2SF 0) with (S754_zero false).
  unfold SF64sub, SFsub. by destruct (Prim2SF x) as [[]| | |].
Qed.

(** A NaN summand makes the sum compare below nothing. *)
Lemma add_nan_not_lt (x y z : float) :
  PrimFloat.is_nan y = true → PrimFloat.ltb (x + y) z = false.
Proof.
  unfold PrimFloat.is_nan. rewrite FloatAxioms.eqb_spec, ltb_spec, add_spec.
  unfold SFeqb, SFltb.
  destruct (SFcompare_diag (Prim2SF y)) as [->| ->]; [done|].
  intros _. by destruct (Prim2SF x).
Qed.

Lemma np_maximum_cases (x lo : float) :
  np_maximum x lo = x ∨ np_maximum x lo = lo.
Proof. unfold np_maximum. destruct (_ || _); auto. Qed.

(** ** Invariants, and the sub-steps of the loop *)

Section sub_step_facts.
Variable np_power : float → float → float.

(** The attributes that the gradient stage passes on untouched, besides
    those of [same_setup]. *)
Lemma calc_grads_and_timesteps_keeps s upd track s' dt :
  calc_grads_and_timesteps np_power s upd track = Ok (s', dt) →
  at_node_velocity s' = at_node_velocity s ∧
  at_node_discharge s' = at_node_discharge s ∧
  fixed_grad_nodes_active s' = fixed_grad_nodes_active s ∧
  fixed_grad_anchors_active s' = fixed_grad_anchors_active s ∧
  poshozgrads s' = poshozgrads s ∧
  posvertgrads s' = posvertgrads s ∧
  (∃ vx velx1,
     put (velx s) (_active s) vx = Ok velx1 ∧
     negate_where velx1 (poshozgrads s) = Ok (velx s')) ∧
  (∃ vy vely1,
     put (vely s) (_active s) vy = Ok vely1 ∧
     negate_where vely1 (posvertgrads s) = Ok (vely s')).
Proof.
  unfold calc_grads_and_timesteps. intros H.
  destruct (hnew s) as [hnew0|] eqn:Hh; simpl in H; [|done].
  destruct upd; simpl in H; [done|].
  destruct track; simpl in H; inv_ok; subst; simpl in *;
    (split_and!; [done|done|done|done|done|done
                 |by eexists _, _|by eexists _, _]).
Qed.

(** A property of instances that the constructor establishes and that the
    working copy, the gradient stage and the write-back each carry forward
    holds of every instance that occurs. *)
Lemma reached_invariant g p (P : KinematicWaveRengers → Prop) :
  (∀ s, __init__ np_power g p = Ok s → P s) →
  (∀ s n h, reached np_power g p s n → P s → P (set_hnew h s)) →
  (∀ s n track s' dt,
     reached np_power g p s n → P s →
     calc_grads_and_timesteps np_power s false track = Ok (s', dt) → P s') →
  (∀ s n active s',
     reached np_power g p s n → P s →
     update_the_actual_fields s active = Ok s' → P s') →
  ∀ s n, reached np_power g p s n → P s.
Proof.
  intros Hinit Hhnew Hcalc Hfields.
  assert (∀ s n active dt elapsed rain upd track s' elapsed' used,
            reached np_power g p s n → P s →
            sub_step np_power s active dt elapsed rain upd track
            = Ok (s', elapsed', used) → P s') as Hsub.
  { intros s n active dt elapsed rain upd track s' elapsed' used Hr HP H.
    apply sub_step_Ok in H
      as (_ & pinned & s1 & d & ? & ? & ? & ? & ? & ? & ? & h4 &
          Hc & _ & _ & _ & _ & _ & _ & _ & _ & _ & _ & ->).
    pose proof (calc_grads_and_timesteps_Ok _ _ _ _ _ _ Hc) as [-> _].
    eapply Hhnew; [by eapply reached_calc|]. by eapply Hcalc. }
  induction 1 as [s H|s n fuel dt rain upd track s' steps Hr IH H
                 |s n h0 Hr IH H
                 |s n active dt elapsed rain upd track s' elapsed' used
                    Hr IH H
                 |s n upd track s' dt Hr IH H|s n s' _ IH H
                 |s n s' v Hr IH H].
  - by apply Hinit.
  - apply run_one_step_steps_Ok in H as (h0 & s2 & -> & Hh0 & Hloop & Hfin).
    apply (while_loop_ind np_power
             (fun s _ => (∃ n, reached np_power g p s n) ∧ P s)
             (_active s) dt rain false track) with (k := 0) in Hloop.
    + destruct Hloop as [[n2 Hr2] HP2]. by eapply Hfields.
    + intros s1 k e1 s1' e1' used [[n1 Hr1] HP1] Hstep. split.
      * eexists. by eapply reached_sub_step.
      * by eapply Hsub.
    + split.
      * eexists. by eapply reached_working_copy.
      * by eapply Hhnew.
  - by eapply Hhnew.
  - by eapply Hsub.
  - pose proof (calc_grads_and_timesteps_Ok _ _ _ _ _ _ H) as [-> _].
    by eapply Hcalc.
  - by rewrite update_topographic_params_raises in H.
  - apply internal_timestep_Ok in H as [[_ ->]|[_ [dt H]]]; [done|].
    by eapply Hcalc.
Qed.

Lemma sub_step_used s active dt elapsed rain upd track s' elapsed' used :
  sub_step np_power s active dt elapsed rain upd track
  = Ok (s', elapsed', used) →
  ∃ v, _internal_dt s' = Some v
       ∧ PrimFloat.ltb used 0 = false
       ∧ (F.gtb used v = false ∨ used = 0%float)
       ∧ (F.gtb used (value dt - value elapsed) = false ∨ used = 0%float)
       ∧ value elapsed' = (value elapsed + used)%float.
Proof.
  intros H.
  apply sub_step_Ok in H
    as (-> & pinned & s1 & v & ? & ? & ? & ? & ? & ? & ? & h4 &
        Hc & Hclip & _ & _ & _ & _ & _ & _ & _ & _ & _ & ->).
  apply calc_grads_and_timesteps_Ok in Hc
    as (_ & _ & _ & _ & _ & _ & _ & _ & Hv).
  exists v. split; [done|].
  assert (value (py_sub dt elapsed) = (value dt - value elapsed)%float)
    as Hrem.
  { by destruct dt, elapsed. }
  revert Hclip. unfold py_min, scalar_clip. rewrite Hrem. simpl.
  destruct (PrimFloat.ltb (value dt - value elapsed) v) eqn:Hlt.
  - destruct (py_sub dt elapsed) as [r|r] eqn:Hr; [done|].
    simpl in Hrem. subst r. intros [= <-].
    split; [apply np_maximum_not_lt|].
    destruct (np_maximum_cases (value dt - value elapsed) 0) as [-> | ->];
      [|by split_and!; try right].
    unfold F.gtb.
    split_and!; try left; [by apply ltb_asym|apply ltb_irrefl|done].
  - intros [= <-]. split; [apply np_maximum_not_lt|].
    destruct (np_maximum_cases v 0) as [-> | ->];
      [|by split_and!; try right].
    unfold F.gtb. split_and!; try left; [apply ltb_irrefl|done|done].
Qed.

Lemma while_loop_steps fuel s active dt elapsed rain upd track s' steps :
  while_loop np_power fuel s active dt elapsed rain upd track
  = Some (Ok (s', steps)) →
  Forall (fun used => PrimFloat.ltb used 0 = false) steps
  ∧ PrimFloat.ltb (fold_left PrimFloat.add steps (value elapsed)) (value dt)
    = false
  ∧ ∀ k, k < length steps →
         PrimFloat.ltb (fold_left PrimFloat.add (firstn k steps)
                          (value elapsed)) (value dt) = true.
Proof.
  revert s elapsed s' steps.
  induction fuel as [|fuel IH]; intros s elapsed s' steps; simpl;
    destruct (PrimFloat.ltb (value elapsed) (value dt)) eqn:Hlt; try done.
  - intros [= <- <-]. simpl. split_and!; [done|done|]. intros k Hk. lia.
  - destruct (sub_step np_power s active dt elapsed rain upd track)
      as [[[s1 e1] d1]|] eqn:Hs; [|done].
    destruct (while_loop np_power fuel s1 active dt e1 rain upd track)
      as [[[s2 steps2]|]|] eqn:Hl; try done.
    intros [= <- <-].
    apply sub_step_used in Hs as (v & _ & Hneg & _ & _ & He1).
    apply IH in Hl as (Hall & Hexit & Hpre). rewrite He1 in Hexit, Hpre.
    split_and!.
    + by constructor.
    + done.
    + intros [|k] Hk; simpl in *; [done|]. apply Hpre. lia.
  - intros [= <- <-]. simpl. split_and!; [done|done|]. intros k Hk. lia.
Qed.

End sub_step_facts.

(** ** More on indexing, and the loop of a returning call *)

Lemma normalize_indices_length n idx ks :
  normalize_indices n idx = Ok ks → length ks = length idx.
Proof.
  revert ks. induction idx as [|i idx IH]; simpl; intros ks H.
  - by inv_ok; subst.
  - apply bind_Ok in H as (k & _ & H). apply bind_Ok in H as (ks' & E & H).
    injection H as <-. simpl. f_equal. by apply IH.
Qed.

Lemma normalize_indices_nonneg_inv n idx ks :
  normalize_indices n idx = Ok ks →
  Forall (fun i => 0 ≤ i)%Z idx →
  ks = map Z.to_nat idx ∧ Forall (fun i => 0 ≤ i < Z.of_nat n)%Z idx.
Proof.
  intros E Hidx. revert ks E.
  induction Hidx as [|i idx Hi _ IH]; simpl; intros ks E.
  - inv_ok. by subst.
  - apply bind_Ok in E as (k0 & E0 & E).
    apply bind_Ok in E as (ks0 & E1 & E).
    injection E as <-. destruct (IH _ E1) as [-> Hr].
    unfold normalize_index in E0.
    destruct (Z.ltb_spec i (- Z.of_nat n)), (Z.leb_spec (Z.of_nat n) i);
      simpl in E0; try done.
    destruct (Z.ltb_spec i 0); [lia|]. injection E0 as <-.
    split; [done|]. constructor; [lia|done].
Qed.

(** A write through non-negative indices leaves every other slot. *)
Lemma put_lookup_outside {A} (a : list A) idx vals a' (k : nat) :
  put a idx vals = Ok a' →
  Forall (fun i => 0 ≤ i)%Z idx →
  Z.of_nat k ∉ idx → a' !! k = a !! k.
Proof.
  unfold put. intros H Hidx Hk.
  apply bind_Ok in H as (ks & E & H).
  apply bind_Ok in H as (vs & E' & H).
  injection H as <-.
  apply normalize_indices_nonneg_inv in E as [-> Hr]; [|done].
  apply put_loop_lookup_other. intros Hin.
  apply list_elem_of_fmap in Hin as (i & -> & Hi).
  rewrite Forall_forall in Hidx. specialize (Hidx _ Hi).
  by rewrite Z2Nat.id in Hk.
Qed.

Lemma put_loop_lookup_NoDup {A} (a : list A) ks vs i k :
  NoDup ks → length vs = length ks → ks !! i = Some k → k < length a →
  put_loop a ks vs !! k = vs !! i.
Proof.
  revert a vs i.
  induction ks as [|k0 ks IH]; intros a [|v0 vs] i Hnd Hl Hi Hk;
    simpl in *; try done.
  apply NoDup_cons in Hnd as [Hk0 Hnd].
  destruct i as [|i]; simpl in *.
  - injection Hi as ->. rewrite put_loop_lookup_other by done.
    by apply list_lookup_insert_eq.
  - apply IH; [done|lia|done|by rewrite length_insert].
Qed.

(** [np.where] lists positions in increasing order. *)
Lemma where_from_increasing k mask i j x y :
  i < j → where_from k mask !! i = Some x → where_from k mask !! j = Some y →
  (x < y)%Z.
Proof.
  revert k i j. induction mask as [|b mask IH]; intros k i j Hij Hx Hy;
    simpl in *; [done|].
  destruct b; [|by eapply IH].
  destruct i as [|i], j as [|j]; simpl in *; try lia.
  - injection Hx as <-.
    pose proof (where_from_bounds (k + 1) mask) as Hb.
    rewrite Forall_lookup in Hb. specialize (Hb _ _ Hy). simpl in Hb. lia.
  - eapply (IH (k + 1)%Z i j); [lia|done|done].
Qed.

Lemma np_where_NoDup mask : NoDup (map Z.to_nat (np_where mask)).
Proof.
  apply NoDup_alt. intros i j k Hi Hj.
  rewrite list_lookup_fmap in Hi, Hj.
  destruct (np_where mask !! i) as [x|] eqn:Hx; [|done].
  destruct (np_where mask !! j) as [y|] eqn:Hy; [|done].
  simpl in *. injection Hi as Hi. injection Hj as Hj.
  pose proof (np_where_bounds mask) as Hb. rewrite Forall_lookup in Hb.
  pose proof (Hb _ _ Hx). pose proof (Hb _ _ Hy). simpl in *.
  destruct (Nat.lt_trichotomy i j) as [Hlt|[->|Hlt]]; [|done|].
  - pose proof (where_from_increasing _ _ _ _ _ _ Hlt Hx Hy). lia.
  - pose proof (where_from_increasing _ _ _ _ _ _ Hlt Hy Hx). lia.
Qed.

Section run_one_step_facts.
Variable np_power : float → float → float.

(** A returning call has run its loop on instances that occur, and the
    loop has left the depth field and the active set alone. *)
Lemma run_one_step_reaches g p s n fuel dt rain upd track s' steps :
  reached np_power g p s n →
  run_one_step_steps np_power fuel s dt rain upd track
  = Some (Ok (s', steps)) →
  ∃ s2 n2, reached np_power g p s2 n2 ∧
           update_the_actual_fields s2 (_active s) = Ok s' ∧
           _h s2 = _h s ∧ _active s2 = _active s ∧
           (∃ w, _water_balance s2 = _water_balance s ++ w
                 ∧ length w = if track then length steps else 0).
Proof.
  intros Hr H.
  apply run_one_step_steps_Ok in H as (h0 & s2 & -> & Hh0 & Hloop & Hfin).
  apply (while_loop_ind np_power
           (fun s1 k => (∃ n1, reached np_power g p s1 n1)
                        ∧ _h s1 = _h s ∧ _active s1 = _active s
                        ∧ ∃ w, _water_balance s1 = _water_balance s ++ w
                               ∧ length w = if track then k else 0)
           (_active s) dt rain false track) with (k := 0) in Hloop.
  - destruct Hloop as ([n2 Hr2] & Eh & Ea & Hw). by exists s2, n2.
  - intros s1 k e1 s1' e1' used ([n1 Hr1] & Eh & Ea & w & Ew & Lw) Hstep.
    split; [eexists; by eapply reached_sub_step|].
    apply sub_step_Ok in Hstep
      as (_ & pinned & sc & d & ? & ? & ? & ? & ? & ? & ? & h4 &
          Hc & _ & _ & _ & _ & _ & _ & _ & _ & _ & _ & ->).
    apply calc_grads_and_timesteps_Ok in Hc
      as (_ & [_ Ea' _ _ _ _ _ _ _] & Eh' & _ & _ & _ & [smp Hx] & _).
    simpl. split; [congruence|]. split; [congruence|].
    exists (w ++ if track then [smp] else []). rewrite Hx, Ew, app_assoc.
    split; [done|]. rewrite length_app, Lw. destruct track; simpl; lia.
  - split; [eexists; by eapply reached_working_copy|]. simpl.
    split; [done|]. split; [done|]. exists [].
    split; [by rewrite app_nil_r|by destruct track].
Qed.

End run_one_step_facts.

(** ** The cached sub-step *)

Section cached_step_facts.
Variable np_power : float → float → float.

Lemma reached_dt_max g p s n :
  reached np_power g p s n →
  ∃ m, arg_dt_max p = Some m ∧ dt_max s = Some m ∧ np_isclose m 0 = false.
Proof.
  apply (reached_invariant np_power g p
           (fun s => ∃ m, arg_dt_max p = Some m ∧ dt_max s = Some m
                          ∧ np_isclose m 0 = false)).
  - unfold __init__. intros s0 H.
    destruct (arg_dt_max p) as [d|]; simpl in H; [|done].
    destruct (np_isclose d 0) eqn:Hd; [done|].
    inv_ok. subst. by exists d.
  - done.
  - intros s1 _ track s1' dt _ (m & Hp & Hm & Hc) H.
    apply calc_grads_and_timesteps_Ok in H as (_ & [_ _ _ _ _ Em _ _ _] & _).
    exists m. by rewrite Em.
  - intros s1 _ active s1' _ HP H.
    apply update_the_actual_fields_Ok in H as (? & ? & ? & ? & _ & _ & ->).
    done.
Qed.


Lemma take_active_returns g p s n :
  well_formed g → reached np_power g p s n →
  ∃ h0, take (_h s) (_active s) = Ok h0.
Proof.
  intros Hwf Hr.
  pose proof (reached_shaped _ _ _ _ _ Hwf Hr) as [Hh _ _ _ _ _ _ _].
  apply reached_consistent in Hr as [_ Hact _ _ _ _ _ _ _ _].
  apply take_nonneg. rewrite Hh, Hact. apply active_in_range.
Qed.

Lemma while_loop_nil fuel s active dt elapsed rain upd track s' :
  while_loop np_power fuel s active dt elapsed rain upd track
  = Some (Ok (s', [])) → s' = s.
Proof.
  destruct fuel as [|fuel]; simpl;
    destruct (PrimFloat.ltb (value elapsed) (value dt)); try done;
    try (by intros [= ->]).
  destruct (sub_step np_power s active dt elapsed rain upd track)
    as [[[s1 e1] d1]|]; [|done].
  by destruct (while_loop np_power fuel s1 active dt e1 rain upd track)
    as [[[s2 steps2]|]|].
Qed.

(** The last pass of a loop that returns: the instance and the clock it
    began with, the gradient stage it ran and the sub-step that stage
    returned, and the sub-step the pass used. *)
Lemma while_loop_last fuel s active dt elapsed rain upd track s' steps used :
  while_loop np_power fuel s active dt elapsed rain upd track
  = Some (Ok (s', steps)) →
  last steps = Some used →
  ∃ s_last e_last s_calc v,
    value e_last
    = fold_left PrimFloat.add (removelast steps) (value elapsed)
    ∧ PrimFloat.ltb (value e_last) (value dt) = true
    ∧ sub_step np_power s_last active dt e_last rain upd track
      = Ok (s', NpFloat64 (value e_last + used), used)
    ∧ calc_grads_and_timesteps np_power s_last upd track = Ok (s_calc, v)
    ∧ scalar_clip (py_min (NpFloat64 v) (py_sub dt e_last)) 0 = Ok used
    ∧ _internal_dt s' = Some v
    ∧ (F.gtb used v = false ∨ used = 0%float).
Proof.
  revert s elapsed s' steps.
  induction fuel as [|fuel IH]; intros s elapsed s' steps; simpl;
    destruct (PrimFloat.ltb (value elapsed) (value dt)) eqn:Hlt; try done;
    try (by intros [= <- <-]).
  destruct (sub_step np_power s active dt elapsed rain upd track)
    as [[[s1 e1] d1]|] eqn:Hs; [|done].
  destruct (while_loop np_power fuel s1 active dt e1 rain upd track)
    as [[[s2 steps2]|]|] eqn:Hl; try done.
  intros [= <- <-] Hlast. destruct steps2 as [|u steps2].
  - simpl in Hlast. injection Hlast as <-.
    apply while_loop_nil in Hl as ->.
    destruct (sub_step_used _ _ _ _ _ _ _ _ _ _ _ Hs)
      as (v & Hv & _ & Hle & _ & _).
    destruct (sub_step_Ok _ _ _ _ _ _ _ _ _ _ _ Hs)
      as (-> & pinned & sc & v' & ? & ? & ? & ? & ? & ? & ? & h4 &
          Hc & Hclip & _ & _ & _ & _ & _ & _ & _ & _ & _ & Es1).
    assert (v' = v) as ->.
    { apply calc_grads_and_timesteps_Ok in Hc
        as (_ & _ & _ & _ & _ & _ & _ & _ & Hv').
      rewrite Es1 in Hv. simpl in Hv. congruence. }
    by exists s, elapsed, sc, v.
  - destruct (IH s1 e1 s2 (u :: steps2) Hl)
      as (s_last & e_last & s_calc & v & He & H);
      [by rewrite last_cons_cons in Hlast|].
    exists s_last, e_last, s_calc, v. split; [|done].
    rewrite He. apply sub_step_used in Hs as (_ & _ & _ & _ & _ & ->).
    done.
Qed.

End cached_step_facts.

(** ** Flow at the core nodes *)

Lemma compress_map {A B} (f : A → B) mask (a : list A) :
  compress mask (map f a) = map f (compress mask a).
Proof.
  revert a. induction mask as [|b mask IH]; intros [|x a]; simpl; try done.
  destruct b; simpl; by rewrite IH.
Qed.

Lemma negate_where_lookup a mask a' k :
  negate_where a mask = Ok a' →
  a' !! k = match mask !! k with
            | Some true => (fun x => x * -1.0)%float <$> a !! k
            | _ => a !! k
            end.
Proof.
  unfold negate_where. intros H. apply bind_Ok in H as (v & Hv & H).
  apply take_mask_Ok in Hv as [Hl ->].
  rewrite <- compress_map in H.
  destruct (put_mask_compress a mask (map (fun x => x * -1.0)%float a) Hl)
    as (a'' & Ha & Hlookup); [by rewrite length_map|].
  rewrite H in Ha. injection Ha as <-.
  rewrite Hlookup. by rewrite list_lookup_fmap.
Qed.

Lemma signed_zero_negated x : signed_zero x → signed_zero (x * -1.0).
Proof. intros [-> | ->]; [right|left]; reflexivity. Qed.

Lemma signed_zero_speed x y :
  signed_zero x → signed_zero y →
  np_sqrt (np_square x + np_square y) = 0%float.
Proof. by intros [-> | ->] [-> | ->]. Qed.

Lemma broadcast_to_length {A} n (v w : list A) :
  broadcast_to n v = Ok w → length w = n.
Proof.
  unfold broadcast_to. case_decide as Hl; [by intros [= <-]|].
  destruct v as [|x [|]]; try done. intros [= <-]. apply length_replicate.
Qed.

Lemma broadcast_to_same {A} (v : list A) : broadcast_to (length v) v = Ok v.
Proof. unfold broadcast_to. by rewrite decide_True. Qed.

Lemma lookup_removelast {A} (l : list A) k :
  S k < length l → removelast l !! k = l !! k.
Proof.
  revert k. induction l as [|x l IH]; intros k Hk; simpl in *; [lia|].
  destruct l as [|y l]; simpl in *; [lia|].
  destruct k as [|k]; [done|]. simpl. apply IH. simpl. lia.
Qed.

Lemma length_removelast {A} (l : list A) :
  length (removelast l) = pred (length l).
Proof.
  induction l as [|x l IH]; simpl; [done|].
  destruct l as [|y l]; simpl in *; [done|]. by rewrite IH.
Qed.

(** Writing back what was read through the same indices changes nothing. *)
Lemma put_take {A} (a : list A) idx v :
  take a idx = Ok v → put a idx v = Ok a.
Proof.
  intros H.
  assert (∃ ks, normalize_indices (length a) idx = Ok ks
                ∧ length ks = length v ∧ put_loop a ks v = a)
    as (ks & E & L & P).
  { revert v H. induction idx as [|i idx IH]; simpl; intros v H.
    - inv_ok. subst. by exists [].
    - apply bind_Ok in H as (x & Hx & H).
      apply bind_Ok in H as (xs & Hxs & H). injection H as <-.
      destruct (IH _ Hxs) as (ks & E & L & P).
      apply getitem_lookup in Hx as (k & Hk & Hx).
      exists (k :: ks). rewrite Hk, E. simpl. split; [done|].
      split; [by rewrite L|]. by rewrite list_insert_id. }
  unfold put. rewrite E. simpl. rewrite L, broadcast_to_same. simpl.
  by rewrite P.
Qed.

Lemma update_the_actual_fields_outputs s active s' :
  update_the_actual_fields s active = Ok s' →
  ∃ speed2 q2,
    arr2 PrimFloat.add (map np_square (velx s)) (map np_square (vely s))
    = Ok speed2
    ∧ broadcast_to (length (at_node_velocity s)) (map np_sqrt speed2)
      = Ok (at_node_velocity s')
    ∧ arr2 PrimFloat.add (map np_square (removelast (qx s)))
        (map np_square (removelast (qy s))) = Ok q2
    ∧ broadcast_to (length (at_node_discharge s)) (map np_sqrt q2)
      = Ok (at_node_discharge s').
Proof.
  unfold update_the_actual_fields. intros H.
  destruct (hnew s) as [h0|]; simpl in H; [|done].
  inv_ok. subst. simpl. by eexists _, _.
Qed.

Section core_node_facts.
Variable np_power : float → float → float.

Lemma core_not_active g s n k :
  consistent g s n → status_at_node g !! k = Some BC_NODE_IS_CORE →
  Z.of_nat k ∉ _active s.
Proof.
  intros [_ Hact _ _ _ _ _ _ _ _] Hk. rewrite Hact, np_where_elem.
  intros [_ H]. rewrite Nat2Z.id, list_lookup_fmap, Hk in H.
  simpl in H. injection H as H. by apply bool_decide_eq_true in H.
Qed.

Lemma active_nonneg g s n :
  consistent g s n → Forall (fun i => 0 ≤ i)%Z (_active s).
Proof.
  intros [_ Hact _ _ _ _ _ _ _ _]. rewrite Hact.
  eapply Forall_impl; [apply active_in_range|]. simpl. lia.
Qed.

Lemma reached_output_fields g p s n :
  output_fields_fit g → reached np_power g p s n →
  length (at_node_velocity s) = number_of_nodes g
  ∧ length (at_node_discharge s) = number_of_nodes g.
Proof.
  intros [Hv Hd].
  apply (reached_invariant np_power g p
           (fun s => length (at_node_velocity s) = number_of_nodes g
                     ∧ length (at_node_discharge s) = number_of_nodes g)).
  - unfold __init__. intros s0 H.
    destruct (arg_dt_max p) as [d|]; simpl in H; [|done].
    destruct (np_isclose d 0) eqn:Hd0; [done|].
    inv_ok. by subst.
  - done.
  - intros s1 _ track s1' dt _ [H1 H2] H.
    apply calc_grads_and_timesteps_keeps in H as (-> & -> & _). done.
  - intros s1 _ active s1' _ [H1 H2] H.
    apply update_the_actual_fields_outputs in H
      as (speed2 & q2 & _ & Hvel & _ & Hdis).
    apply broadcast_to_length in Hvel, Hdis. by rewrite Hvel, Hdis.
Qed.

Lemma reached_still_at_core_nodes g p s n :
  reached np_power g p s n → still_at_core_nodes g s.
Proof.
  apply (reached_invariant np_power g p (still_at_core_nodes g)).
  - unfold __init__. intros s0 H.
    destruct (arg_dt_max p) as [d|]; simpl in H; [|done].
    destruct (np_isclose d 0) eqn:Hd0; [done|].
    inv_ok. subst. intros k Hk. simpl. unfold grid_zeros.
    split_and!; intros z Hz; apply lookup_replicate in Hz as [-> _];
      try done; by left.
  - done.
  - intros s1 n1 track s1' dt Hr1 HP H k Hk.
    apply reached_consistent in Hr1.
    pose proof (core_not_active _ _ _ _ Hr1 Hk) as Hout.
    pose proof (active_nonneg _ _ _ Hr1) as Hnn.
    destruct (HP k Hk) as (Hx & Hy & Hqx & Hqy).
    pose proof (calc_grads_and_timesteps_keeps _ _ _ _ _ _ H)
      as (_ & _ & _ & _ & _ & _ & (vx & velx1 & Hpx & Hnx)
          & (vy & vely1 & Hpy & Hny)).
    apply calc_grads_and_timesteps_Ok in H
      as (_ & _ & _ & _ & [q_x Hq_x] & [q_y Hq_y] & _).
    split_and!.
    + intros x. rewrite (negate_where_lookup _ _ _ _ Hnx).
      rewrite (put_lookup_outside _ _ _ _ _ Hpx Hnn Hout).
      destruct (poshozgrads s1 !! k) as [[]|]; try apply Hx.
      destruct (velx s1 !! k) as [x0|]; [|done]. intros [= <-].
      by apply signed_zero_negated, Hx.
    + intros y. rewrite (negate_where_lookup _ _ _ _ Hny).
      rewrite (put_lookup_outside _ _ _ _ _ Hpy Hnn Hout).
      destruct (posvertgrads s1 !! k) as [[]|]; try apply Hy.
      destruct (vely s1 !! k) as [y0|]; [|done]. intros [= <-].
      by apply signed_zero_negated, Hy.
    + intros q. rewrite (put_lookup_outside _ _ _ _ _ Hq_x Hnn Hout).
      apply Hqx.
    + intros q. rewrite (put_lookup_outside _ _ _ _ _ Hq_y Hnn Hout).
      apply Hqy.
  - intros s1 _ active s1' _ HP H.
    apply update_the_actual_fields_Ok in H as (? & ? & ? & ? & _ & _ & ->).
    done.
Qed.

End core_node_facts.

(** ** The write-back *)

Lemma raster3x3_output_fields_fit center edge hoz vert depth :
  output_fields_fit (raster3x3 center edge hoz vert depth).
Proof. by split. Qed.

Section write_back_facts.
Variable np_power : float → float → float.

(** The write-back returns on instances that occur and have their working
    depths, and computes the two output fields entry by entry. *)
Lemma update_the_actual_fields_returns g p s n h0 :
  well_formed g → output_fields_fit g → reached np_power g p s n →
  hnew s = Some h0 →
  ∃ h, put (_h s) (_active s) h0 = Ok h ∧
       update_the_actual_fields s (_active s)
       = Ok (set_fields h
               (map np_sqrt
                  (zip_with PrimFloat.add (map np_square (velx s))
                     (map np_square (vely s))))
               (map np_sqrt
                  (zip_with PrimFloat.add
                     (map np_square (removelast (qx s)))
                     (map np_square (removelast (qy s))))) s).
Proof.
  intros Hwf Hfit Hr Hh0.
  pose proof (reached_shaped _ _ _ _ _ Hwf Hr)
    as [Hh Hx Hy _ _ _ _ Hn].
  destruct (reached_output_fields _ _ _ _ _ Hfit Hr) as [Hvel Hdis].
  apply reached_consistent in Hr as [_ Hact _ _ _ Hqx _ Hqy _ _].
  pose proof (active_in_range g) as Hrange. rewrite <- Hact in Hrange.
  destruct (put_in_range (_h s) (_active s) h0) as (h & Hput & _);
    [by rewrite Hh|by apply Hn|].
  exists h. split; [done|].
  unfold update_the_actual_fields. rewrite Hh0. simpl. rewrite Hput. simpl.
  rewrite (arr2_same_length PrimFloat.add (map np_square (velx s))
             (map np_square (vely s)))
    by (rewrite !length_map; congruence).
  simpl. rewrite Hvel, <- Hx.
  replace (length (velx s))
    with (length (map np_sqrt
                    (zip_with PrimFloat.add (map np_square (velx s))
                       (map np_square (vely s)))))
    by (rewrite length_map, length_zip_with, !length_map; lia).
  rewrite broadcast_to_same. simpl.
  rewrite (arr2_same_length PrimFloat.add
             (map np_square (removelast (qx s)))
             (map np_square (removelast (qy s))))
    by (rewrite !length_map, !length_removelast; congruence).
  simpl. rewrite Hdis.
  replace (number_of_nodes g)
    with (length (map np_sqrt
                    (zip_with PrimFloat.add
                       (map np_square (removelast (qx s)))
                       (map np_square (removelast (qy s))))))
    by (rewrite length_map, length_zip_with, !length_map,
          !length_removelast, Hqx, Hqy; simpl; lia).
  by rewrite broadcast_to_same.
Qed.

End write_back_facts.

(** ** Fixed-gradient nodes *)

Lemma broadcast_to_singleton {A} n (x : A) :
  broadcast_to n [x] = Ok (replicate n x).
Proof.
  unfold broadcast_to. case_decide as Hl; [|done]. by rewrite <- Hl.
Qed.

(** Writing one value through a list of indices. *)
Lemma put_loop_fill {A} (a : list A) ks x k :
  put_loop a ks (replicate (length ks) x) !! k
  = if decide (k ∈ ks) then (if decide (k < length a) then Some x else None)
    else a !! k.
Proof.
  revert a. induction ks as [|k0 ks IH]; intros a;
    cbn [put_loop length replicate].
  - rewrite decide_False; [done|]. apply not_elem_of_nil.
  - rewrite IH, length_insert.
    destruct (decide (k ∈ ks)) as [Hin|Hin].
    + destruct (decide (k ∈ k0 :: ks)) as [_|Hn]; [done|].
      destruct Hn. by right.
    + destruct (decide (k = k0)) as [->|Hne].
      * destruct (decide (k0 ∈ k0 :: ks)) as [_|Hn];
          [|destruct Hn; by left].
        case_decide as Hlt.
        -- by apply list_lookup_insert_eq.
        -- apply lookup_ge_None. rewrite length_insert. lia.
      * destruct (decide (k ∈ k0 :: ks)) as [Hn|_].
        -- apply elem_of_cons in Hn as [?|?]; done.
        -- by apply list_lookup_insert_ne.
Qed.

Lemma take_lookup_inv {A} (a : list A) idx v n x :
  take a idx = Ok v → v !! n = Some x →
  ∃ i, idx !! n = Some i ∧ getitem a i = Ok x.
Proof.
  intros H Hx.
  destruct (lookup_lt_is_Some_2 idx n) as [i Hi].
  { rewrite <- (take_length _ _ _ H). by eapply lookup_lt_Some. }
  exists i. split; [done|].
  destruct (take_lookup _ _ _ _ _ H Hi) as (x' & Hx' & Hg). congruence.
Qed.

(** What [positions_in_active] lists: the positions in [active] of the
    nodes of [nodes]. *)
Lemma positions_in_active_elem g nodes active v (j : Z) :
  Forall (fun i => 0 ≤ i < Z.of_nat (number_of_nodes g))%Z nodes →
  Forall (fun i => 0 ≤ i)%Z active →
  positions_in_active g nodes active = Ok v →
  j ∈ v ↔ (0 ≤ j)%Z ∧ ∃ a, active !! Z.to_nat j = Some a ∧ a ∈ nodes.
Proof.
  intros Hnodes Hactive. unfold positions_in_active, put_scalar, put.
  unfold grid_zeros. rewrite length_replicate.
  rewrite normalize_indices_nonneg by done. simpl.
  rewrite broadcast_to_singleton. simpl. intros H.
  apply bind_Ok in H as (marked & Hm & [= <-]).
  rewrite np_where_elem.
  assert (∀ a : Z, (0 ≤ a)%Z →
            put_loop (replicate (number_of_nodes g) false)
              (map Z.to_nat nodes)
              (replicate (length (map Z.to_nat nodes)) true) !! Z.to_nat a
            = Some true ↔ a ∈ nodes) as Hblank.
  { intros a Ha. rewrite put_loop_fill, length_replicate. split.
    - case_decide as Hin.
      + intros _. apply list_elem_of_fmap in Hin as (i & Hi & Hin).
        rewrite Forall_forall in Hnodes. specialize (Hnodes _ Hin).
        replace a with i by lia. done.
      + intros Hl. by apply lookup_replicate in Hl as [? _].
    - intros Hin. rewrite Forall_forall in Hnodes.
      specialize (Hnodes _ Hin).
      rewrite decide_True by (apply list_elem_of_fmap; by exists a).
      rewrite decide_True by lia. done. }
  split; intros [Hj H]; (split; [done|]).
  - destruct (take_lookup_inv _ _ _ _ _ Hm H) as (a & Ha & Hg).
    exists a. split; [done|].
    rewrite Forall_lookup in Hactive. specialize (Hactive _ _ Ha).
    apply getitem_nonneg_inv in Hg; [|done]. by apply Hblank.
  - destruct H as (a & Ha & Hin).
    destruct (take_lookup _ _ _ _ _ Hm Ha) as (x & Hx & Hg).
    rewrite Forall_lookup in Hactive. specialize (Hactive _ _ Ha).
    apply getitem_nonneg_inv in Hg; [|done].
    apply Hblank in Hin; [|done]. congruence.
Qed.

Lemma positions_in_active_bounds g nodes active v :
  positions_in_active g nodes active = Ok v →
  Forall (fun j => 0 ≤ j < Z.of_nat (length active))%Z v.
Proof.
  unfold positions_in_active. intros H.
  apply bind_Ok in H as (blank & _ & H).
  apply bind_Ok in H as (marked & Hm & [= <-]).
  rewrite <- (take_length _ _ _ Hm). apply np_where_bounds.
Qed.

Section fixed_gradient_facts.
Variable np_power : float → float → float.

Lemma reached_fixed_gradient g p s n :
  reached np_power g p s n →
  positions_in_active g (fixed_gradient_boundary_nodes g) (_active s)
  = Ok (fixed_grad_nodes_active s)
  ∧ positions_in_active g (fixed_gradient_boundary_node_anchor_node g)
      (_active s)
    = Ok (fixed_grad_anchors_active s).
Proof.
  apply (reached_invariant np_power g p
           (fun s =>
              positions_in_active g (fixed_gradient_boundary_nodes g)
                (_active s) = Ok (fixed_grad_nodes_active s)
              ∧ positions_in_active g
                  (fixed_gradient_boundary_node_anchor_node g) (_active s)
                = Ok (fixed_grad_anchors_active s))).
  - unfold __init__. intros s0 H.
    destruct (arg_dt_max p) as [d|]; simpl in H; [|done].
    destruct (np_isclose d 0) eqn:Hd0; [done|].
    inv_ok. by subst.
  - done.
  - intros s1 _ track s1' dt _ [H1 H2] H.
    pose proof (calc_grads_and_timesteps_keeps _ _ _ _ _ _ H)
      as (_ & _ & -> & -> & _).
    apply calc_grads_and_timesteps_Ok in H as (_ & [_ -> _ _ _ _ _ _ _] & _).
    done.
  - intros s1 _ active s1' _ HP H.
    apply update_the_actual_fields_Ok in H as (? & ? & ? & ? & _ & _ & ->).
    done.
Qed.

End fixed_gradient_facts.

(** ** Rainfall *)

Lemma take_uniform {A} (a : list A) idx x :
  Forall (fun i => (0 ≤ i)%Z ∧ a !! Z.to_nat i = Some x) idx →
  take a idx = Ok (replicate (length idx) x).
Proof.
  induction 1 as [|i idx [Hi Hx] _ IH]; simpl; [done|].
  rewrite (getitem_nonneg a i x) by done. simpl. by rewrite IH.
Qed.

(** An array of rainfall intensities is read at the active nodes only: if
    it holds [r] at each of them, it adds what the scalar [r] adds. *)
Lemma add_rainfall_uniform active internal_dt a r h :
  Forall (fun i => (0 ≤ i)%Z ∧ a !! Z.to_nat i = Some r) active →
  length h = length active →
  add_rainfall active internal_dt (RainArray a) h
  = add_rainfall active internal_dt (RainScalar r) h.
Proof.
  intros Ha Hl. unfold add_rainfall. rewrite (take_uniform _ _ _ Ha). simpl.
  unfold arr2_inplace. rewrite decide_True
    by (by rewrite length_map, length_replicate).
  by rewrite fmap_replicate, zip_with_replicate_r_eq.
Qed.

Section rainfall_facts.
Variable np_power : float → float → float.

Lemma sub_step_uniform_rainfall g p s n dt elapsed a r upd track :
  well_formed g → reached np_power g p s n →
  Forall (fun i => (0 ≤ i)%Z ∧ a !! Z.to_nat i = Some r) (_active s) →
  sub_step np_power s (_active s) dt elapsed (RainArray a) upd track
  = sub_step np_power s (_active s) dt elapsed (RainScalar r) upd track.
Proof.
  intros Hwf Hr Ha. unfold sub_step.
  destruct (calc_grads_and_timesteps np_power s upd track)
    as [[s1 d]|] eqn:Hc; [|done].
  cbn [mbind result_bind].
  destruct (scalar_clip _ _) as [used|]; [|done]. cbn [mbind result_bind].
  do 4 (destruct (neighbor_flux _ _ _ _); [|done]; cbn [mbind result_bind]).
  destruct (hnew s1) as [h|] eqn:Hh; [|done]. cbn [mbind result_bind].
  pose proof (reached_shaped _ _ _ _ _ Hwf Hr) as Hs.
  destruct (calc_grads_and_timesteps_shaped _ _ _ _ _ _ _ Hs Hc)
    as [Ea [_ _ _ _ _ _ _ Hn]].
  rewrite (add_rainfall_uniform _ _ _ _ _ Ha); [done|].
  rewrite <- Ea. by apply Hn.
Qed.

Lemma while_loop_uniform_rainfall g p active dt a r upd track :
  well_formed g →
  Forall (fun i => (0 ≤ i)%Z ∧ a !! Z.to_nat i = Some r) active →
  ∀ fuel s n elapsed,
    reached np_power g p s n → _active s = active →
    while_loop np_power fuel s active dt elapsed (RainArray a) upd track
    = while_loop np_power fuel s active dt elapsed (RainScalar r) upd track.
Proof.
  intros Hwf Ha. induction fuel as [|fuel IH]; intros s n elapsed Hr Es;
    simpl; [done|].
  destruct (PrimFloat.ltb (value elapsed) (value dt)); [|done].
  subst active.
  rewrite (sub_step_uniform_rainfall g p s n dt elapsed a r) by done.
  destruct (sub_step np_power s (_active s) dt elapsed (RainScalar r) upd
              track) as [[[s1 e1] d1]|] eqn:Hs; [|done].
  pose proof (reached_sub_step _ _ _ _ _ _ _ _ _ _ _ _ _ _ Hr Hs) as Hr1.
  pose proof (reached_shaped _ _ _ _ _ Hwf Hr) as Hsh.
  destruct (sub_step_shaped _ _ _ _ _ _ _ _ _ _ _ _ Hsh Hs) as [Ea _].
  by rewrite (IH s1 _ e1 Hr1 Ea).
Qed.

End rainfall_facts.

(** ** A pass that returns *)

Lemma normalize_index_signed n i :
  (- Z.of_nat n ≤ i < Z.of_nat n)%Z → ∃ k, normalize_index n i = Ok k.
Proof.
  intros Hi. unfold normalize_index.
  destruct (Z.ltb_spec i (- Z.of_nat n)), (Z.leb_spec (Z.of_nat n) i);
    simpl; try lia.
  by eexists.
Qed.

(** Reading through indices that may count from the end. *)
Lemma take_signed {A} (a : list A) idx :
  Forall (fun i => - Z.of_nat (length a) ≤ i < Z.of_nat (length a))%Z idx →
  ∃ v, take a idx = Ok v.
Proof.
  induction 1 as [|i idx Hi _ [v IH]]; simpl; [by eexists|].
  unfold getitem. destruct (normalize_index_signed _ _ Hi) as [k Hk].
  rewrite Hk. simpl.
  destruct (lookup_lt_is_Some_2 a k) as [x Hx];
    [by eapply normalize_index_lt|].
  rewrite Hx. simpl. rewrite IH. simpl. by eexists.
Qed.

Lemma neighbor_flux_returns g clip q j :
  adjacency_fits g → length q = S (number_of_nodes g) →
  ∃ v, neighbor_flux clip q (normalize_neighbors g) j = Ok v
       ∧ length v = number_of_nodes g.
Proof.
  intros [Hl Hrows] Hq. unfold neighbor_flux.
  destruct (take_signed q (map (column j) (normalize_neighbors g)))
    as [v Hv].
  { rewrite Hq. unfold normalize_neighbors. rewrite <- list_fmap_compose.
    apply Forall_fmap. eapply Forall_impl; [exact Hrows|].
    intros row Hrow. simpl. rewrite column_map_row.
    destruct (Hrow j) as [Hb|Hr]; case_decide; lia. }
  rewrite Hv. simpl. eexists. split; [done|].
  rewrite length_map, (take_length _ _ _ Hv), length_map.
  unfold normalize_neighbors. by rewrite length_map.
Qed.

Lemma arr2_inplace_same_length {A B} (f : A → B → A) (a : list A)
  (b : list B) :
  length a = length b →
  ∃ c, arr2_inplace f a b = Ok c ∧ length c = length a.
Proof.
  intros H. unfold arr2_inplace. rewrite decide_True by done.
  eexists. split; [done|]. rewrite length_zip_with. lia.
Qed.

Lemma add_rainfall_returns (N : nat) active internal_dt rain h :
  Forall (fun i => 0 ≤ i < Z.of_nat N)%Z active →
  match rain with
  | RainScalar _ => True
  | RainArray a => length a = N
  end →
  length h = length active →
  ∃ h', add_rainfall active internal_dt rain h = Ok h'
        ∧ length h' = length h.
Proof.
  intros Hact Hrain Hl. unfold add_rainfall. destruct rain as [r|a].
  - eexists. split; [done|]. apply length_map.
  - destruct (take_nonneg a active) as [ra Hra]; [by rewrite Hrain|].
    rewrite Hra. simpl. apply arr2_inplace_same_length.
    rewrite length_map, (take_length _ _ _ Hra). done.
Qed.

Lemma set_the_BCs_returns g s n h :
  consistent g s n → length h = length (_active s) →
  ∃ h', set_the_BCs s h = Ok h' ∧ length h' = length h.
Proof.
  intros [_ _ (sa & Hsa & Hbcs) (ha & Hha & Hbcd) _ _ _ _ _ _] Hl.
  unfold set_the_BCs. rewrite Hbcd.
  assert (length (actives_BCs s) = length h) as Hm.
  { by rewrite Hbcs, length_map, (take_length _ _ _ Hsa). }
  destruct (put_mask_compress h (actives_BCs s) ha Hm) as (h' & Hh' & _).
  { by rewrite (take_length _ _ _ Hha), Hm. }
  exists h'. split; [done|].
  unfold put_mask in Hh'. rewrite decide_True in Hh' by done.
  by eapply put_length.
Qed.

Lemma flux_it_round_returns g s n internal_dt ql qr qt qb h :
  consistent g s n →
  length ql = number_of_nodes g → length qr = number_of_nodes g →
  length qt = number_of_nodes g → length qb = number_of_nodes g →
  length h = length (_active s) →
  ∃ h', flux_it_round s (_active s) internal_dt ql qr qt qb h = Ok h'
        ∧ length h' = length h.
Proof.
  intros [_ Hact _ _ _ Lqx _ Lqy _ _] Ll Lr Lt Lb Lh.
  pose proof (active_in_range g) as Hr. rewrite <- Hact in Hr.
  assert (Forall (fun i => 0 ≤ i < Z.of_nat (S (number_of_nodes g)))%Z
            (_active s)) as Hr'.
  { eapply Forall_impl; [exact Hr|]. simpl. lia. }
  unfold flux_it_round.
  destruct (take_nonneg (qy s) (_active s)) as [qya Hqya];
    [by rewrite Lqy|].
  rewrite Hqya. cbn [mbind result_bind].
  destruct (arr2_inplace_same_length PrimFloat.sub h
              (map (fun q => internal_dt / dx (grid s) * np_fabs q)%float
                 qya)) as (h1 & -> & L1).
  { by rewrite length_map, (take_length _ _ _ Hqya). }
  cbn [mbind result_bind].
  destruct (take_nonneg (qx s) (_active s)) as [qxa Hqxa];
    [by rewrite Lqx|].
  rewrite Hqxa. cbn [mbind result_bind].
  destruct (arr2_inplace_same_length PrimFloat.sub h1
              (map (fun q => internal_dt / dy (grid s) * np_fabs q)%float
                 qxa)) as (h2 & -> & L2).
  { rewrite length_map, (take_length _ _ _ Hqxa). congruence. }
  cbn [mbind result_bind].
  rewrite (arr2_same_length PrimFloat.sub qt qb) by congruence.
  cbn [mbind result_bind].
  destruct (take_nonneg (zip_with PrimFloat.sub qt qb) (_active s))
    as [dqya Hdqya].
  { rewrite length_zip_with, Lt, Lb, Nat.min_id. exact Hr. }
  rewrite Hdqya. cbn [mbind result_bind].
  destruct (arr2_inplace_same_length PrimFloat.add h2
              (map (fun q => internal_dt / dx (grid s) * q)%float dqya))
    as (h3 & -> & L3).
  { rewrite length_map, (take_length _ _ _ Hdqya). congruence. }
  cbn [mbind result_bind].
  rewrite (arr2_same_length PrimFloat.sub ql qr) by congruence.
  cbn [mbind result_bind].
  destruct (take_nonneg (zip_with PrimFloat.sub ql qr) (_active s))
    as [dqxa Hdqxa].
  { rewrite length_zip_with, Ll, Lr, Nat.min_id. exact Hr. }
  rewrite Hdqxa. cbn [mbind result_bind].
  destruct (arr2_inplace_same_length PrimFloat.add h3
              (map (fun q => internal_dt / dy (grid s) * q)%float dqxa))
    as (h4 & -> & L4).
  { rewrite length_map, (take_length _ _ _ Hdqxa). congruence. }
  exists h4. split; [done|]. congruence.
Qed.

Lemma copy_anchors_returns s h :
  Forall (fun j => 0 ≤ j < Z.of_nat (length h))%Z
    (fixed_grad_nodes_active s) →
  Forall (fun j => 0 ≤ j < Z.of_nat (length h))%Z
    (fixed_grad_anchors_active s) →
  length (fixed_grad_anchors_active s)
  = length (fixed_grad_nodes_active s) →
  ∃ h', copy_anchors s h = Ok h' ∧ length h' = length h.
Proof.
  intros Hn Ha Hl. unfold copy_anchors.
  destruct (take_nonneg h (fixed_grad_anchors_active s) Ha) as [v Hv].
  rewrite Hv. simpl. apply put_in_range; [done|].
  by rewrite (take_length _ _ _ Hv).
Qed.

Lemma raster3x3_adjacency_fits center edge hoz vert depth :
  adjacency_fits (raster3x3 center edge hoz vert depth).
Proof.
  split; [reflexivity|].
  assert (number_of_nodes (raster3x3 center edge hoz vert depth) = 9) as ->
    by reflexivity.
  simpl. unfold raster3x3_adjacency.
  repeat (apply Forall_cons; split;
          [intros [|[|[|j]]]; simpl; ((by left) || (right; lia))|]).
  apply Forall_nil_2.
Qed.

Section pass_facts.
Variable np_power : float → float → float.

(** On a grid whose arrays fit, a pass through the loop body returns when
    [dt] is a [float64], the working depths are there and there is an
    anchor position for every fixed-gradient position. *)
Lemma sub_step_returns g p s n x elapsed rain track :
  well_formed g → adjacency_fits g → 0 < number_of_nodes g →
  rainfall_fits g rain →
  reached np_power g p s n → is_Some (hnew s) →
  length (fixed_grad_anchors_active s)
  = length (fixed_grad_nodes_active s) →
  ∃ s' elapsed' used,
    sub_step np_power s (_active s) (NpFloat64 x) elapsed rain false track
    = Ok (s', elapsed', used)
    ∧ is_Some (hnew s')
    ∧ _active s' = _active s
    ∧ length (fixed_grad_anchors_active s')
      = length (fixed_grad_nodes_active s').
Proof.
  intros Hwf Hadj HN Hrain Hr Hh Hfg.
  destruct (calc_grads_and_timesteps_returns np_power g p s n track
              Hwf HN Hr Hh) as [[s1 idt] Hc].
  pose proof (reached_calc _ _ _ _ _ _ _ _ _ Hr Hc) as Hr1.
  pose proof (reached_shaped _ _ _ _ _ Hwf Hr1) as [_ _ _ _ _ _ _ Ln].
  pose proof (reached_consistent _ _ _ _ _ Hr1) as Hc1.
  destruct (reached_fixed_gradient _ _ _ _ _ Hr1) as [Pn Pa].
  apply positions_in_active_bounds in Pn, Pa.
  pose proof (calc_grads_and_timesteps_keeps _ _ _ _ _ _ Hc)
    as (_ & _ & En & Ea & _).
  pose proof (calc_grads_and_timesteps_Ok _ _ _ _ _ _ Hc)
    as (_ & [_ Eact _ _ _ _ _ _ _] & _ & (h0 & _ & Hh1) & _).
  pose proof Hc1 as [_ Hact _ _ Hnb Lqx _ Lqy _ _].
  pose proof (active_in_range g) as Hrange. rewrite <- Hact in Hrange.
  unfold sub_step. rewrite Hc. cbn [mbind result_bind].
  assert (∃ u, scalar_clip (py_min (NpFloat64 idt)
                              (py_sub (NpFloat64 x) elapsed)) 0 = Ok u)
    as [u ->].
  { unfold py_min. destruct elapsed; simpl;
      destruct (PrimFloat.ltb _ _); by eexists. }
  cbn [mbind result_bind]. rewrite Hnb.
  destruct (neighbor_flux_returns g (fun q => np_maximum q 0) (qx s1) 2
              Hadj Lqx) as (ql & -> & Ll).
  cbn [mbind result_bind].
  destruct (neighbor_flux_returns g (fun q => np_minimum q 0) (qx s1) 0
              Hadj Lqx) as (qr & -> & Lr).
  cbn [mbind result_bind].
  destruct (neighbor_flux_returns g (fun q => np_maximum q 0) (qy s1) 1
              Hadj Lqy) as (qt & -> & Lt).
  cbn [mbind result_bind].
  destruct (neighbor_flux_returns g (fun q => np_minimum q 0) (qy s1) 3
              Hadj Lqy) as (qb & -> & Lb).
  cbn [mbind result_bind]. rewrite Hh1. cbn [mbind result_bind].
  specialize (Ln _ Hh1). rewrite <- Eact.
  destruct (add_rainfall_returns (number_of_nodes g) (_active s1) u rain _
              Hrange Hrain Ln) as (h2 & -> & L2).
  cbn [mbind result_bind].
  destruct (set_the_BCs_returns g s1 _ h2 Hc1) as (h3 & -> & L3);
    [congruence|].
  cbn [mbind result_bind].
  destruct (flux_it_round_returns g s1 _ u ql qr qt qb h3 Hc1 Ll Lr Lt Lb)
    as (h4 & -> & L4); [congruence|].
  cbn [mbind result_bind].
  destruct (copy_anchors_returns s1 h4) as (h5 & -> & L5).
  { replace (length h4) with (length (_active s1)) by congruence. done. }
  { replace (length h4) with (length (_active s1)) by congruence. done. }
  { congruence. }
  cbn [mbind result_bind]. eexists _, _, _. split; [done|]. simpl.
  split; [by eexists|]. split; [done|]. congruence.
Qed.

(** ...so the loop raises nothing: after any number of passes it has
    returned or is still running. *)
Lemma while_loop_raises_nothing g p x rain track :
  well_formed g → adjacency_fits g → 0 < number_of_nodes g →
  rainfall_fits g rain →
  ∀ fuel s n elapsed,
    reached np_power g p s n → is_Some (hnew s) →
    length (fixed_grad_anchors_active s)
    = length (fixed_grad_nodes_active s) →
    while_loop np_power fuel s (_active s) (NpFloat64 x) elapsed rain
      false track = None
    ∨ ∃ s' steps n',
        while_loop np_power fuel s (_active s) (NpFloat64 x) elapsed rain
          false track = Some (Ok (s', steps))
        ∧ reached np_power g p s' n' ∧ is_Some (hnew s')
        ∧ _active s' = _active s.
Proof.
  intros Hwf Hadj HN Hrain.
  induction fuel as [|fuel IH]; intros s n elapsed Hr Hh Hfg; simpl;
    destruct (PrimFloat.ltb (value elapsed) x);
    try (by left); try (by right; eexists _, _, _).
  destruct (sub_step_returns g p s n x elapsed rain track Hwf Hadj HN Hrain
              Hr Hh Hfg) as (s1 & e1 & u & Hs & Hh1 & Ea & Hfg1).
  rewrite Hs.
  pose proof (reached_sub_step _ _ _ _ _ _ _ _ _ _ _ _ _ _ Hr Hs) as Hr1.
  rewrite <- Ea.
  destruct (IH s1 _ e1 Hr1 Hh1 Hfg1) as [->|(s2 & steps & n2 & -> & H2)];
    [by left|].
  right. exists s2, (u :: steps), n2. split; [done|].
  destruct H2 as (? & ? & ?). split_and!; try done; congruence.
Qed.

End pass_facts.

(** ** The properties *)

(** X1.  On every instance that occurs, the active set holds exactly the
    node ids whose status is not [BC_NODE_IS_CORE], each once and in
    increasing order. *)
Theorem X1_active_set_of_every_instance :
  ∀ np_power g p s n,
    reached np_power g p s n →
    (∀ i : Z,
       i ∈ _active s ↔
       (0 ≤ i)%Z ∧ ∃ st, status_at_node g !! Z.to_nat i = Some st
                         ∧ st ≠ BC_NODE_IS_CORE)
    ∧ (∀ j k x y,
         j < k → _active s !! j = Some x → _active s !! k = Some y →
         (x < y)%Z).
Proof.
  intros np_power g p s n H.
  apply reached_consistent in H as [_ Hact _ _ _ _ _ _ _ _].
  rewrite Hact. split.
  - intros i. rewrite np_where_elem, list_lookup_fmap.
    split; intros [Hi H]; (split; [done|]).
    + destruct (status_at_node g !! Z.to_nat i) as [st|]; [|done].
      exists st. split; [done|]. simpl in H. injection H as H.
      by apply bool_decide_eq_true in H.
    + destruct H as (st & -> & Hst). simpl. f_equal.
      by apply bool_decide_eq_true.
  - intros j k x y. apply where_from_increasing.
Qed.

Lemma X1_active_set_of_every_instance_witness :
  ∃ s,
    __init__ pow_special closed_edges default_params = Ok s
    ∧ (∀ i : Z,
         i ∈ _active s ↔
         (0 ≤ i)%Z ∧ ∃ st, status_at_node closed_edges !! Z.to_nat i = Some st
                           ∧ st ≠ BC_NODE_IS_CORE)
    ∧ (∀ j k x y,
         j < k → _active s !! j = Some x → _active s !! k = Some y →
         (x < y)%Z).
Proof.
  eexists. split; [vm_compute; reflexivity|].
  apply (X1_active_set_of_every_instance pow_special closed_edges
           default_params _ 0).
  apply reached_init. vm_compute. reflexivity.
Defined.

(** X2.  [dt_max=None] does not get past the constructor (numpy's [isclose]
    raises TypeError on it), so every instance that occurs carries a number
    as [dt_max], one that is not close to zero, and the gradient stage
    always takes the smaller of it and the Courant bound: the branch for
    [dt_max is None] never runs. *)
Theorem X2_dt_max_is_a_number_on_every_instance :
  ∀ np_power g p,
    (arg_dt_max p = None → __init__ np_power g p = Raise TypeError)
    ∧ (∀ s n,
         reached np_power g p s n →
         ∃ m, arg_dt_max p = Some m ∧ dt_max s = Some m
              ∧ np_isclose m 0 = false
              ∧ ∀ c, limit_dt s c = np_minimum m c).
Proof.
  intros np_power g p. split.
  - intros H. unfold __init__. by rewrite H.
  - intros s n H. apply reached_dt_max in H as (m & Hp & Hm & Hc).
    exists m. split_and!; try done. intros c. unfold limit_dt. by rewrite Hm.
Qed.

Lemma X2_dt_max_is_a_number_on_every_instance_witness :
  ∃ s, __init__ pow_special rising (unit_params 0.3) = Ok s
       ∧ ∃ m, arg_dt_max (unit_params 0.3) = Some m ∧ dt_max s = Some m
              ∧ np_isclose m 0 = false
              ∧ ∀ c, limit_dt s c = np_minimum m c.
Proof.
  eexists. split; [vm_compute; reflexivity|].
  apply (proj2 (X2_dt_max_is_a_number_on_every_instance pow_special rising
                  (unit_params 0.3)) _ 0).
  apply reached_init. vm_compute. reflexivity.
Defined.

(** X3.  With [update_topography=True], [run_one_step] raises NameError on
    every instance that occurs, whatever the step, the rainfall and the
    tracking flag: the working copy is taken, then
    [update_topographic_params] is called.  The gradient stage called with
    the flag raises the same once the working depths are there. *)
Theorem X3_update_topography_flag_raises_NameError :
  ∀ np_power g p s n fuel dt rain track,
    well_formed g → reached np_power g p s n →
    run_one_step np_power fuel s dt rain true track
    = Some (Raise (NameError "CLOSED_BOUNDARY"))
    ∧ (∀ h, calc_grads_and_timesteps np_power (set_hnew h s) true track
            = Raise (NameError "CLOSED_BOUNDARY")).
Proof.
  intros np_power g p s n fuel dt rain track Hwf Hr.
  destruct (take_active_returns _ _ _ _ _ Hwf Hr) as [h0 Hh0].
  split.
  - unfold run_one_step, run_one_step_steps. by rewrite Hh0.
  - intros h. reflexivity.
Qed.

Lemma X3_update_topography_flag_raises_NameError_witness :
  ∃ s, __init__ pow_special rising (unit_params 0.3) = Ok s
       ∧ run_one_step pow_special 9 s (PyFloat 60) (RainScalar 0.00001)
           true false
         = Some (Raise (NameError "CLOSED_BOUNDARY"))
       ∧ (∀ h, calc_grads_and_timesteps pow_special (set_hnew h s) true false
               = Raise (NameError "CLOSED_BOUNDARY")).
Proof.
  eexists. split; [vm_compute; reflexivity|].
  apply (X3_update_topography_flag_raises_NameError pow_special rising
           (unit_params 0.3) _ 0).
  - apply raster3x3_well_formed.
  - apply reached_init. vm_compute. reflexivity.
Defined.

(** X4.  A step given as a Python float that is positive and smaller than
    the sub-step the first gradient stage returns makes [run_one_step] raise
    AttributeError: [min(internal_dt, remaining_dt)] is then the Python
    float [dt - 0.0], which has no [clip]. *)
Theorem X4_python_float_step_below_the_stable_step :
  ∀ np_power s x rain track h0 s1 first fuel,
    take (_h s) (_active s) = Ok h0 →
    calc_grads_and_timesteps np_power (set_hnew h0 s) false track
    = Ok (s1, first) →
    PrimFloat.ltb 0 x = true →
    PrimFloat.ltb x first = true →
    run_one_step np_power (S fuel) s (PyFloat x) rain false track
    = Some (Raise (AttributeError "clip")).
Proof.
  intros np_power s x rain track h0 s1 first fuel Hh0 Hc Hx Hlt.
  unfold run_one_step, run_one_step_steps. rewrite Hh0. simpl.
  rewrite Hx. unfold sub_step. rewrite Hc. simpl.
  unfold py_min. simpl. rewrite sub_zero_r, Hlt. done.
Qed.

Lemma X4_python_float_step_below_the_stable_step_witness :
  ∃ s s1,
    __init__ pow_special rising (unit_params 0.3) = Ok s
    ∧ calc_grads_and_timesteps pow_special (set_hnew [1%float] s) false false
      = Ok (s1, 0.2%float)
    ∧ run_one_step pow_special 1 s (PyFloat 0.1) (RainScalar 0.00001)
        false false
      = Some (Raise (AttributeError "clip")).
Proof.
  eexists _, _. split; [vm_compute; reflexivity|].
  split; [vm_compute; reflexivity|].
  eapply (X4_python_float_step_below_the_stable_step pow_special _ 0.1
            (RainScalar 0.00001) false [1%float] _ 0.2 0).
  - vm_compute. reflexivity.
  - vm_compute. reflexivity.
  - reflexivity.
  - reflexivity.
Defined.

(** X5.  With a step that is not positive (zero, negative or NaN),
    [run_one_step] returns without a pass through its loop, on every
    instance that occurs: the depth field, the water-balance trace and the
    cached sub-step are what they were, and the working depths are the
    depths of the active nodes. *)
Theorem X5_a_step_that_is_not_positive :
  ∀ np_power g p s n fuel dt rain track,
    well_formed g → output_fields_fit g → reached np_power g p s n →
    PrimFloat.ltb 0 (value dt) = false →
    ∃ s' h0,
      run_one_step_steps np_power fuel s dt rain false track
      = Some (Ok (s', []))
      ∧ _h s' = _h s
      ∧ _water_balance s' = _water_balance s
      ∧ _internal_dt s' = _internal_dt s
      ∧ take (_h s) (_active s) = Ok h0
      ∧ hnew s' = Some h0.
Proof.
  intros np_power g p s n fuel dt rain track Hwf Hfit Hr Hdt.
  destruct (take_active_returns _ _ _ _ _ Hwf Hr) as [h0 Hh0].
  pose proof (reached_working_copy _ _ _ _ _ _ Hr Hh0) as Hr0.
  destruct (update_the_actual_fields_returns _ _ _ _ _ h0 Hwf Hfit Hr0
              eq_refl) as (h & Hput & Hfin).
  simpl in Hput, Hfin. rewrite (put_take _ _ _ Hh0) in Hput.
  injection Hput as <-.
  eexists _, h0. split.
  - unfold run_one_step_steps. rewrite Hh0. simpl.
    assert (while_loop np_power fuel (set_hnew h0 s) (_active s) dt
              (PyFloat 0) rain false track
            = Some (Ok (set_hnew h0 s, []))) as ->.
    { destruct fuel; simpl; by rewrite Hdt. }
    rewrite Hfin. reflexivity.
  - by split_and!.
Qed.

Lemma X5_a_step_that_is_not_positive_witness :
  ∃ s,
    __init__ pow_special rising (unit_params 0.3) = Ok s
    ∧ ∃ s' h0,
        run_one_step_steps pow_special 0 s (PyFloat (-60))
          (RainScalar 0.00001) false true = Some (Ok (s', []))
        ∧ _h s' = _h s
        ∧ _water_balance s' = _water_balance s
        ∧ _internal_dt s' = _internal_dt s
        ∧ take (_h s) (_active s) = Ok h0
        ∧ hnew s' = Some h0.
Proof.
  eexists. split; [vm_compute; reflexivity|].
  apply (X5_a_step_that_is_not_positive pow_special rising
           (unit_params 0.3) _ 0).
  - apply raster3x3_well_formed.
  - apply raster3x3_output_fields_fit.
  - apply reached_init. vm_compute. reflexivity.
  - reflexivity.
Defined.

(** X6.  When [run_one_step] returns, none of the sub-steps it took is
    negative; [elapsed_time_in_dt], the sum of the sub-steps taken so far,
    was below [dt] when each pass began and is not below [dt] at the end. *)
Theorem X6_sub_steps_and_the_clock :
  ∀ np_power fuel s dt rain upd track s' steps,
    run_one_step_steps np_power fuel s dt rain upd track
    = Some (Ok (s', steps)) →
    Forall (fun used => PrimFloat.ltb used 0 = false) steps
    ∧ PrimFloat.ltb (elapsed_time_after steps) (value dt) = false
    ∧ ∀ k, k < length steps →
           PrimFloat.ltb (elapsed_time_after (firstn k steps)) (value dt)
           = true.
Proof.
  intros np_power fuel s dt rain upd track s' steps H.
  apply run_one_step_steps_Ok in H as (h0 & s2 & -> & _ & Hloop & _).
  by apply while_loop_steps in Hloop.
Qed.

Lemma X6_sub_steps_and_the_clock_witness :
  ∃ s s' steps,
    __init__ pow_special rising (unit_params 0.3) = Ok s
    ∧ run_one_step_steps pow_special 3 s (PyFloat 0.5) (RainScalar 0.00001)
        false false = Some (Ok (s', steps))
    ∧ length steps = 3
    ∧ Forall (fun used => PrimFloat.ltb used 0 = false) steps
    ∧ PrimFloat.ltb (elapsed_time_after steps) 0.5 = false
    ∧ ∀ k, k < length steps →
           PrimFloat.ltb (elapsed_time_after (firstn k steps)) 0.5 = true.
Proof.
  eexists _, _, _.
  match goal with
  | |- ?A ∧ ?B ∧ _ =>
      assert A as Hinit by (vm_compute; reflexivity);
      assert B as Hrun by (vm_compute; reflexivity)
  end.
  split; [exact Hinit|]. split; [exact Hrun|]. split; [reflexivity|].
  exact (X6_sub_steps_and_the_clock _ _ _ _ _ _ _ _ _ Hrun).
Defined.



(** X8.  After a call of [run_one_step] that took a sub-step,
    [internal_timestep] returns, leaving the instance as it is, the value
    [v] that the gradient stage of the last pass returned: that pass began
    on some instance with the clock at the sum of the earlier sub-steps,
    ran the gradient stage there, which returned [v], used
    [min(v, remaining_dt).clip(0.0)] as its sub-step, and left the instance
    that the call then wrote back.  The sub-step used is not above [v],
    unless it is zero. *)
Theorem X8_last_sub_step_and_internal_timestep :
  ∀ np_power fuel s dt rain upd track s' steps used,
    run_one_step_steps np_power fuel s dt rain upd track
    = Some (Ok (s', steps)) →
    last steps = Some used →
    ∃ s_last elapsed s_calc v s2,
      value elapsed = elapsed_time_after (removelast steps)
      ∧ PrimFloat.ltb (value elapsed) (value dt) = true
      ∧ sub_step np_power s_last (_active s) dt elapsed rain upd track
        = Ok (s2, NpFloat64 (value elapsed + used), used)
      ∧ update_the_actual_fields s2 (_active s) = Ok s'
      ∧ calc_grads_and_timesteps np_power s_last upd track = Ok (s_calc, v)
      ∧ scalar_clip (py_min (NpFloat64 v) (py_sub dt elapsed)) 0 = Ok used
      ∧ internal_timestep np_power s' = Ok (s', v)
      ∧ (F.gtb used v = false ∨ used = 0%float).
Proof.
  intros np_power fuel s dt rain upd track s' steps used H Hlast.
  apply run_one_step_steps_Ok in H as (h0 & s2 & -> & _ & Hloop & Hfin).
  destruct (while_loop_last _ _ _ _ _ _ _ _ _ _ _ _ Hloop Hlast)
    as (s_last & e_last & s_calc & v & He & Hlt & Hs & Hc & Hclip & Hv & Hle).
  exists s_last, e_last, s_calc, v, s2. split_and!; try done.
  apply update_the_actual_fields_Ok in Hfin as (? & ? & ? & ? & _ & _ & ->).
  unfold internal_timestep. simpl. by rewrite Hv.
Qed.

Lemma X8_last_sub_step_and_internal_timestep_witness :
  ∃ s s' steps used,
    __init__ pow_special rising (unit_params 0.3) = Ok s
    ∧ run_one_step_steps pow_special 3 s (PyFloat 0.5) (RainScalar 0.00001)
        false false = Some (Ok (s', steps))
    ∧ last steps = Some used
    ∧ PrimFloat.ltb used 0.2 = true
    ∧ internal_timestep pow_special s' = Ok (s', 0.2%float)
    ∧ ∃ s_last elapsed s_calc v s2,
        value elapsed = elapsed_time_after (removelast steps)
        ∧ PrimFloat.ltb (value elapsed) (value (PyFloat 0.5)) = true
        ∧ sub_step pow_special s_last (_active s) (PyFloat 0.5) elapsed
            (RainScalar 0.00001) false false
          = Ok (s2, NpFloat64 (value elapsed + used), used)
        ∧ update_the_actual_fields s2 (_active s) = Ok s'
        ∧ calc_grads_and_timesteps pow_special s_last false false
          = Ok (s_calc, v)
        ∧ scalar_clip (py_min (NpFloat64 v) (py_sub (PyFloat 0.5) elapsed)) 0
          = Ok used
        ∧ internal_timestep pow_special s' = Ok (s', v)
        ∧ (F.gtb used v = false ∨ used = 0%float).
Proof.
  eexists _, _, _, _.
  match goal with
  | |- ?A ∧ ?B ∧ _ =>
      assert A as Hinit by (vm_compute; reflexivity);
      assert B as Hrun by (vm_compute; reflexivity)
  end.
  split; [exact Hinit|]. split; [exact Hrun|]. split; [reflexivity|].
  split; [reflexivity|]. split; [vm_compute; reflexivity|].
  exact (X8_last_sub_step_and_internal_timestep _ _ _ _ _ _ _ _ _ _ Hrun
           eq_refl).
Defined.

(** X9.  When [run_one_step] returns, the depth field holds at every active
    node the working depth the loop ended with for that node, and holds
    what it held before the call everywhere else. *)
Theorem X9_write_back_of_the_working_depths :
  ∀ np_power g p s n fuel dt rain upd track s' steps,
    well_formed g → reached np_power g p s n →
    run_one_step_steps np_power fuel s dt rain upd track
    = Some (Ok (s', steps)) →
    ∃ depths,
      hnew s' = Some depths
      ∧ length depths = length (_active s)
      ∧ length (_h s') = length (_h s)
      ∧ (∀ i node,
           _active s !! i = Some node →
           _h s' !! Z.to_nat node = depths !! i)
      ∧ (∀ k, Z.of_nat k ∉ _active s → _h s' !! k = _h s !! k).
Proof.
  intros np_power g p s n fuel dt rain upd track s' steps Hwf Hr H.
  pose proof (reached_run_one_step _ _ _ _ _ _ _ _ _ _ _ _ Hr H) as Hr'.
  apply (reached_shaped _ _ _ _ _ Hwf) in Hr' as [_ _ _ _ _ _ _ Hn].
  pose proof (reached_shaped _ _ _ _ _ Hwf Hr) as [Hh _ _ _ _ _ _ _].
  destruct (run_one_step_reaches _ _ _ _ _ _ _ _ _ _ _ _ Hr H)
    as (s2 & n2 & _ & Hfin & Eh & Ea & _).
  apply reached_consistent in Hr as [_ Hact _ _ _ _ _ _ _ _].
  pose proof (active_in_range g) as Hrange. rewrite <- Hact in Hrange.
  apply update_the_actual_fields_Ok in Hfin
    as (depths & h & vel & dis & Hd & Hput & ->).
  simpl in *. specialize (Hn _ Hd). rewrite Ea in Hn. rewrite Eh in Hput.
  exists depths. split; [done|]. split; [done|].
  split; [by eapply put_length|]. split.
  - intros i node Hi. unfold put in Hput.
    rewrite normalize_indices_nonneg in Hput by (by rewrite Hh).
    simpl in Hput. unfold broadcast_to in Hput.
    rewrite decide_True in Hput by (by rewrite length_map).
    simpl in Hput. injection Hput as <-.
    apply put_loop_lookup_NoDup.
    + rewrite Hact. apply np_where_NoDup.
    + by rewrite length_map.
    + by rewrite list_lookup_fmap, Hi.
    + rewrite Forall_lookup in Hrange. specialize (Hrange _ _ Hi).
      simpl in Hrange. lia.
  - intros k Hk. eapply put_lookup_outside; [done| |done].
    eapply Forall_impl; [exact Hrange|]. simpl. lia.
Qed.

Lemma X9_write_back_of_the_working_depths_witness :
  ∃ s s' steps,
    __init__ pow_special rising (unit_params 0.3) = Ok s
    ∧ run_one_step_steps pow_special 3 s (PyFloat 0.5) (RainScalar 0.00001)
        false false = Some (Ok (s', steps))
    ∧ ∃ depths,
        hnew s' = Some depths
        ∧ length depths = length (_active s)
        ∧ length (_h s') = length (_h s)
        ∧ (∀ i node,
             _active s !! i = Some node →
             _h s' !! Z.to_nat node = depths !! i)
        ∧ (∀ k, Z.of_nat k ∉ _active s → _h s' !! k = _h s !! k).
Proof.
  eexists _, _, _.
  match goal with
  | |- ?A ∧ ?B ∧ _ =>
      assert A as Hinit by (vm_compute; reflexivity);
      assert B as Hrun by (vm_compute; reflexivity)
  end.
  split; [exact Hinit|]. split; [exact Hrun|].
  exact (X9_write_back_of_the_working_depths pow_special rising
           (unit_params 0.3) _ 0 _ _ _ _ _ _ _
           (raster3x3_well_formed _ _ _ _ _)
           (reached_init _ _ _ _ Hinit) Hrun).
Defined.

(** X10.  A call of [run_one_step] that returns leaves every core node out:
    the depth field holds there what it held before the call, and the
    velocity and discharge fields hold zero there. *)
Theorem X10_core_nodes_are_left_out :
  ∀ np_power g p s n fuel dt rain upd track s' steps k,
    well_formed g → output_fields_fit g → reached np_power g p s n →
    run_one_step_steps np_power fuel s dt rain upd track
    = Some (Ok (s', steps)) →
    status_at_node g !! k = Some BC_NODE_IS_CORE →
    _h s' !! k = _h s !! k
    ∧ at_node_velocity s' !! k = Some 0%float
    ∧ at_node_discharge s' !! k = Some 0%float.
Proof.
  intros np_power g p s n fuel dt rain upd track s' steps k Hwf Hfit Hr H Hk.
  destruct (run_one_step_reaches _ _ _ _ _ _ _ _ _ _ _ _ Hr H)
    as (s2 & n2 & Hr2 & Hfin & Eh & Ea & _).
  pose proof (reached_consistent _ _ _ _ _ Hr) as Hc.
  pose proof (core_not_active _ _ _ _ Hc Hk) as Hout.
  pose proof (active_nonneg _ _ _ Hc) as Hnn.
  pose proof (reached_still_at_core_nodes _ _ _ _ _ Hr2 k Hk)
    as (Hx & Hy & Hqx & Hqy).
  pose proof (reached_shaped _ _ _ _ _ Hwf Hr2)
    as [_ Lx Ly _ _ _ _ _].
  pose proof (reached_consistent _ _ _ _ _ Hr2)
    as [_ _ _ _ _ Lqx _ Lqy _ _].
  assert (k < number_of_nodes g) as Hlt by (by apply lookup_lt_Some in Hk).
  destruct (update_the_actual_fields_Ok _ _ _ Hfin)
    as (h0 & h & vel & dis & Hh0 & Hput & Es').
  destruct (update_the_actual_fields_returns _ _ _ _ _ _ Hwf Hfit Hr2 Hh0)
    as (h' & Hput' & Hfin').
  rewrite <- Ea, Hfin' in Hfin. injection Hfin as <-. simpl.
  rewrite Ea, Eh in Hput'. split_and!.
  - by eapply put_lookup_outside.
  - destruct (lookup_lt_is_Some_2 (velx s2) k) as [x Ex]; [lia|].
    destruct (lookup_lt_is_Some_2 (vely s2) k) as [y Ey]; [lia|].
    assert (zip_with PrimFloat.add (map np_square (velx s2))
              (map np_square (vely s2)) !! k
            = Some (np_square x + np_square y)%float) as Hz.
    { apply lookup_zip_with_Some. exists (np_square x), (np_square y).
      by rewrite !list_lookup_fmap, Ex, Ey. }
    rewrite list_lookup_fmap, Hz. simpl. f_equal.
    apply signed_zero_speed; [by apply Hx|by apply Hy].
  - destruct (lookup_lt_is_Some_2 (qx s2) k) as [x Ex]; [lia|].
    destruct (lookup_lt_is_Some_2 (qy s2) k) as [y Ey]; [lia|].
    rewrite (Hqx _ Ex) in Ex. rewrite (Hqy _ Ey) in Ey.
    assert (zip_with PrimFloat.add (map np_square (removelast (qx s2)))
              (map np_square (removelast (qy s2))) !! k
            = Some (np_square 0 + np_square 0)%float) as Hz.
    { apply lookup_zip_with_Some. exists (np_square 0), (np_square 0).
      by rewrite !list_lookup_fmap, !lookup_removelast, Ex, Ey by lia. }
    by rewrite list_lookup_fmap, Hz.
Qed.

Lemma X10_core_nodes_are_left_out_witness :
  ∃ s s' steps,
    __init__ pow_special rising (unit_params 0.3) = Ok s
    ∧ run_one_step_steps pow_special 3 s (PyFloat 0.5) (RainScalar 0.00001)
        false false = Some (Ok (s', steps))
    ∧ status_at_node rising !! 3 = Some BC_NODE_IS_CORE
    ∧ _h s' !! 3 = _h s !! 3
    ∧ at_node_velocity s' !! 3 = Some 0%float
    ∧ at_node_discharge s' !! 3 = Some 0%float.
Proof.
  eexists _, _, _.
  match goal with
  | |- ?A ∧ ?B ∧ _ =>
      assert A as Hinit by (vm_compute; reflexivity);
      assert B as Hrun by (vm_compute; reflexivity)
  end.
  split; [exact Hinit|]. split; [exact Hrun|]. split; [reflexivity|].
  exact (X10_core_nodes_are_left_out pow_special rising (unit_params 0.3)
           _ 0 _ _ _ _ _ _ _ 3
           (raster3x3_well_formed _ _ _ _ _)
           (raster3x3_output_fields_fit _ _ _ _ _)
           (reached_init _ _ _ _ Hinit) Hrun eq_refl).
Defined.

(** X11.  On a grid with a fixed-gradient node that is not core and whose
    anchors are all core nodes, the instance has positions to copy to and
    none to copy from: the anchor copy that ends a pass raises ValueError
    on working depths of any (fitting) shape, and [run_one_step] with a
    positive step raises in its first pass. *)
Theorem X11_fixed_gradient_nodes_anchored_at_core_nodes :
  ∀ np_power g p s n,
    well_formed g → reached np_power g p s n →
    (∃ node st,
       node ∈ fixed_gradient_boundary_nodes g
       ∧ status_at_node g !! Z.to_nat node = Some st
       ∧ st ≠ BC_NODE_IS_CORE) →
    (∀ a, a ∈ fixed_gradient_boundary_node_anchor_node g →
          status_at_node g !! Z.to_nat a = Some BC_NODE_IS_CORE) →
    fixed_grad_anchors_active s = []
    ∧ fixed_grad_nodes_active s ≠ []
    ∧ (∀ h, length h = length (_active s) →
            copy_anchors s h = Raise (ValueError "shape mismatch"))
    ∧ (∀ fuel dt rain upd track,
         PrimFloat.ltb 0 (value dt) = true →
         ∃ e, run_one_step np_power (S fuel) s dt rain upd track
              = Some (Raise e)).
Proof.
  intros np_power g p s n [_ _ _ Hfg Han] Hr (node & st & Hnode & Hst & Hnc)
    Hanchors.
  destruct (reached_fixed_gradient _ _ _ _ _ Hr) as [Hn Ha].
  pose proof (reached_consistent _ _ _ _ _ Hr) as Hc.
  pose proof (active_nonneg _ _ _ Hc) as Hnn.
  assert (fixed_grad_anchors_active s = []) as Ea.
  { destruct (fixed_grad_anchors_active s) as [|j l] eqn:El; [done|].
    assert (j ∈ j :: l) as Hj by (by left).
    apply (positions_in_active_elem _ _ _ _ j Han Hnn Ha) in Hj
      as (Hj & a & Hact & Hin).
    specialize (Hanchors _ Hin).
    rewrite Forall_lookup in Hnn. specialize (Hnn _ _ Hact). simpl in Hnn.
    destruct (core_not_active _ _ _ (Z.to_nat a) Hc Hanchors).
    rewrite Z2Nat.id by done. apply list_elem_of_lookup. by eexists. }
  assert (fixed_grad_nodes_active s ≠ []) as En.
  { assert (node ∈ _active s) as Hin.
    { destruct Hc as [_ -> _ _ _ _ _ _ _ _].
      rewrite Forall_forall in Hfg. specialize (Hfg _ Hnode).
      apply np_where_elem. split; [lia|].
      rewrite list_lookup_fmap, Hst. simpl. f_equal.
      by apply bool_decide_eq_true. }
    apply list_elem_of_lookup in Hin as [i Hi].
    assert (Z.of_nat i ∈ fixed_grad_nodes_active s) as Hpos.
    { apply (positions_in_active_elem _ _ _ _ _ Hfg Hnn Hn).
      split; [lia|]. exists node. by rewrite Nat2Z.id. }
    intros E. rewrite E in Hpos. by apply elem_of_nil in Hpos. }
  assert (∀ s1 h final,
            fixed_grad_anchors_active s1 = [] →
            fixed_grad_nodes_active s1 = fixed_grad_nodes_active s →
            copy_anchors s1 h ≠ Ok final) as Hcopy.
  { intros s1 h final E1 E2. unfold copy_anchors, put. rewrite E1, E2.
    simpl. intros H. apply bind_Ok in H as (ks & Hks & H).
    apply bind_Ok in H as (vs & Hvs & _).
    apply normalize_indices_length in Hks.
    unfold broadcast_to in Hvs. case_decide as Hl; [|done].
    simpl in Hl. rewrite Hks in Hl.
    destruct (fixed_grad_nodes_active s); done. }
  split; [done|]. split; [done|]. split.
  - intros h Hh. unfold copy_anchors, put. rewrite Ea. simpl.
    rewrite normalize_indices_nonneg
      by (rewrite Hh; by eapply positions_in_active_bounds).
    simpl. unfold broadcast_to. rewrite decide_False; [done|].
    rewrite length_map. simpl.
    destruct (fixed_grad_nodes_active s); done.
  - intros fuel dt rain upd track Hdt.
    unfold run_one_step, run_one_step_steps.
    destruct (take (_h s) (_active s)) as [h0|e]; simpl; [|by eexists].
    destruct upd; simpl; [by eexists|]. rewrite Hdt.
    destruct (sub_step np_power (set_hnew h0 s) (_active s) dt (PyFloat 0)
                rain false track) as [[[s1 e1] d1]|e] eqn:Hs;
      [|by eexists].
    apply sub_step_Ok in Hs
      as (_ & pinned & sc & d & ? & ? & ? & ? & ? & ? & h3 & h4 &
          Hcalc & _ & _ & _ & _ & _ & _ & _ & _ & _ & Hcp & _).
    apply calc_grads_and_timesteps_keeps in Hcalc
      as (_ & _ & E1 & E2 & _).
    simpl in E1, E2. rewrite Ea in E2.
    by destruct (Hcopy _ _ _ E2 E1 Hcp).
Qed.

Lemma X11_fixed_gradient_nodes_anchored_at_core_nodes_witness :
  ∃ s,
    __init__ pow_special open_to_the_west (unit_params 0.3) = Ok s
    ∧ _active s = [0; 1; 2; 3; 5; 6; 7; 8]%Z
    ∧ fixed_grad_anchors_active s = []
    ∧ fixed_grad_nodes_active s ≠ []
    ∧ (∀ h, length h = length (_active s) →
            copy_anchors s h = Raise (ValueError "shape mismatch"))
    ∧ (∀ fuel dt rain upd track,
         PrimFloat.ltb 0 (value dt) = true →
         ∃ e, run_one_step pow_special (S fuel) s dt rain upd track
              = Some (Raise e)).
Proof.
  eexists. split; [vm_compute; reflexivity|]. split; [reflexivity|].
  apply (X11_fixed_gradient_nodes_anchored_at_core_nodes pow_special
           open_to_the_west (unit_params 0.3) _ 0).
  - constructor; try done; by repeat constructor.
  - apply reached_init. vm_compute. reflexivity.
  - exists 3%Z, BC_NODE_IS_FIXED_GRADIENT.
    split; [by left|]. split; [reflexivity|done].
  - intros a Ha. apply list_elem_of_singleton in Ha as ->. reflexivity.
Defined.

(** X12.  [run_one_step] only ever appends to the water-balance trace: what
    was recorded before the call is still there, in place, followed by one
    sample per sub-step if the call was tracked and by nothing if not. *)
Theorem X12_trace_is_only_extended :
  ∀ np_power g p s n fuel dt rain upd track s' steps,
    reached np_power g p s n →
    run_one_step_steps np_power fuel s dt rain upd track
    = Some (Ok (s', steps)) →
    ∃ samples,
      _water_balance s' = _water_balance s ++ samples
      ∧ length samples = if track then length steps else 0.
Proof.
  intros np_power g p s n fuel dt rain upd track s' steps Hr H.
  destruct (run_one_step_reaches _ _ _ _ _ _ _ _ _ _ _ _ Hr H)
    as (s2 & n2 & _ & Hfin & _ & _ & Hw).
  apply update_the_actual_fields_Ok in Hfin as (? & ? & ? & ? & _ & _ & ->).
  done.
Qed.

Lemma X12_trace_is_only_extended_witness :
  ∃ s s' steps,
    __init__ pow_special rising (unit_params 0.3) = Ok s
    ∧ run_one_step_steps pow_special 3 s (PyFloat 0.5) (RainScalar 0.00001)
        false true = Some (Ok (s', steps))
    ∧ length steps = 3
    ∧ ∃ samples,
        _water_balance s' = _water_balance s ++ samples
        ∧ length samples = length steps.
Proof.
  eexists _, _, _.
  match goal with
  | |- ?A ∧ ?B ∧ _ =>
      assert A as Hinit by (vm_compute; reflexivity);
      assert B as Hrun by (vm_compute; reflexivity)
  end.
  split; [exact Hinit|]. split; [exact Hrun|]. split; [reflexivity|].
  exact (X12_trace_is_only_extended pow_special rising (unit_params 0.3)
           _ 0 _ _ _ _ true _ _ (reached_init _ _ _ _ Hinit) Hrun).
Defined.

(** X13.  The gradient stage raises every working depth that is below
    [min_surface_water_depth] to it and leaves the others: the depths it
    computes velocities and discharges from, and hands on to the rest of
    the pass, are none below the floor. *)
Theorem X13_gradient_stage_applies_the_floor :
  ∀ np_power s upd track s' dt,
    calc_grads_and_timesteps np_power s upd track = Ok (s', dt) →
    ∃ before after,
      hnew s = Some before ∧ hnew s' = Some after
      ∧ length after = length before
      ∧ Forall (fun h => PrimFloat.ltb h (min_surface_water_depth s') = false)
          after
      ∧ (∀ i h,
           before !! i = Some h →
           after !! i = Some (np_maximum h (min_surface_water_depth s)))
      ∧ (∀ i h,
           before !! i = Some h →
           PrimFloat.leb (min_surface_water_depth s) h = true →
           after !! i = Some h).
Proof.
  intros np_power s upd track s' dt H.
  apply calc_grads_and_timesteps_Ok in H
    as (_ & [_ _ _ _ _ _ _ _ Ef] & _ & (before & Hb & Ha) & _).
  exists before, (map (fun x => np_maximum x (min_surface_water_depth s))
                    before).
  split; [done|]. split; [done|]. split; [apply length_map|]. split_and!.
  - rewrite Ef. apply Forall_fmap, Forall_true. intros h. simpl.
    apply np_maximum_not_lt.
  - intros i h Hi. by rewrite list_lookup_fmap, Hi.
  - intros i h Hi Hle. rewrite list_lookup_fmap, Hi. simpl.
    by rewrite np_maximum_above.
Qed.

Lemma X13_gradient_stage_applies_the_floor_witness :
  ∃ s0 s s' dt,
    __init__ pow_special rising (unit_params 0.3) = Ok s0
    ∧ s = set_hnew [0.5%float] s0
    ∧ calc_grads_and_timesteps pow_special s false false = Ok (s', dt)
    ∧ hnew s' = Some [1%float]
    ∧ ∃ before after,
        hnew s = Some before ∧ hnew s' = Some after
        ∧ length after = length before
        ∧ Forall (fun h => PrimFloat.ltb h (min_surface_water_depth s')
                           = false) after
        ∧ (∀ i h,
             before !! i = Some h →
             after !! i = Some (np_maximum h (min_surface_water_depth s)))
        ∧ (∀ i h,
             before !! i = Some h →
             PrimFloat.leb (min_surface_water_depth s) h = true →
             after !! i = Some h).
Proof.
  eexists _, _, _, _.
  match goal with
  | |- ?A ∧ ?B ∧ ?C ∧ _ =>
      assert A as Hinit by (vm_compute; reflexivity);
      assert B as Hs by reflexivity;
      assert C as Hcalc by (vm_compute; reflexivity)
  end.
  split; [exact Hinit|]. split; [exact Hs|]. split; [exact Hcalc|].
  split; [reflexivity|].
  exact (X13_gradient_stage_applies_the_floor _ _ _ _ _ _ Hcalc).
Defined.

(** X14.  [run_one_step] reads an array of rainfall intensities at the
    active nodes only: given an array that holds [r] at every active node,
    it does what it does given the scalar [r], whatever the array holds
    elsewhere. *)
Theorem X14_rainfall_array_is_read_at_the_active_nodes :
  ∀ np_power g p s n fuel dt a r upd track,
    well_formed g → reached np_power g p s n →
    (∀ node, node ∈ _active s → a !! Z.to_nat node = Some r) →
    run_one_step np_power fuel s dt (RainArray a) upd track
    = run_one_step np_power fuel s dt (RainScalar r) upd track.
Proof.
  intros np_power g p s n fuel dt a r upd track Hwf Hr Ha.
  assert (Forall (fun i => (0 ≤ i)%Z ∧ a !! Z.to_nat i = Some r) (_active s))
    as Hall.
  { apply Forall_forall. intros i Hi. split; [|by apply Ha].
    pose proof (active_nonneg _ _ _ (reached_consistent _ _ _ _ _ Hr)) as Hnn.
    rewrite Forall_forall in Hnn. by apply Hnn. }
  unfold run_one_step, run_one_step_steps.
  destruct (take (_h s) (_active s)) as [h0|] eqn:Hh0; simpl; [|done].
  destruct upd; simpl; [done|].
  by rewrite (while_loop_uniform_rainfall np_power g p (_active s) dt a r
                false track
                Hwf Hall fuel (set_hnew h0 s) n (PyFloat 0)
                (reached_working_copy _ _ _ _ _ _ Hr Hh0) eq_refl).
Qed.

Lemma X14_rainfall_array_is_read_at_the_active_nodes_witness :
  ∃ s s',
    __init__ pow_special rising (unit_params 0.3) = Ok s
    ∧ _active s = [4%Z]
    ∧ run_one_step pow_special 3 s (PyFloat 0.5)
        (RainArray [7; 7; 7; 7; 0.00001; 7; 7; 7; 7]%float) false false
      = run_one_step pow_special 3 s (PyFloat 0.5) (RainScalar 0.00001)
          false false
    ∧ run_one_step pow_special 3 s (PyFloat 0.5) (RainScalar 0.00001)
        false false = Some (Ok s').
Proof.
  eexists _, _.
  match goal with
  | |- ?A ∧ _ => assert A as Hinit by (vm_compute; reflexivity)
  end.
  split; [exact Hinit|]. split; [reflexivity|]. split.
  - apply (X14_rainfall_array_is_read_at_the_active_nodes pow_special
             rising (unit_params 0.3) _ 0 3 (PyFloat 0.5) _ _ false false
             (raster3x3_well_formed _ _ _ _ _)
             (reached_init _ _ _ _ Hinit)).
    intros node Hnode. apply list_elem_of_singleton in Hnode as ->.
    reflexivity.
  - vm_compute. reflexivity.
Defined.

(** X16.  A first pass whose sub-step comes out as NaN (as it does when
    the elevation, and with it the gradient at an active node, is NaN) is
    the last one: the clock becomes NaN, the loop condition fails, and
    [run_one_step] goes on to write back what that pass left, whatever the
    step asked for. *)
Theorem X16_a_NaN_sub_step_ends_the_loop :
  ∀ np_power fuel s dt rain track h0 s1 elapsed1 used,
    take (_h s) (_active s) = Ok h0 →
    PrimFloat.ltb 0 (value dt) = true →
    sub_step np_power (set_hnew h0 s) (_active s) dt (PyFloat 0) rain
      false track = Ok (s1, elapsed1, used) →
    PrimFloat.is_nan used = true →
    run_one_step_steps np_power (S fuel) s dt rain false track
    = Some (s' ← update_the_actual_fields s1 (_active s); Ok (s', [used])).
Proof.
  intros np_power fuel s dt rain track h0 s1 elapsed1 used Hh0 Hdt Hs Hnan.
  unfold run_one_step_steps. rewrite Hh0. simpl. rewrite Hdt, Hs.
  apply sub_step_used in Hs as (_ & _ & _ & _ & _ & He).
  assert (while_loop np_power fuel s1 (_active s) dt elapsed1 rain false
            track = Some (Ok (s1, []))) as ->; [|done].
  destruct fuel; simpl; rewrite He; by rewrite add_nan_not_lt.
Qed.

(** On [no_elevation_data], with the parameters that keep every power at
    base 1: the gradient at the active node is NaN, so are its velocity and
    the Courant bound, and the call over 60 returns after one pass. *)
Lemma X16_a_NaN_sub_step_ends_the_loop_witness :
  ∃ s h0 s1 elapsed1 used s',
    __init__ pow_special no_elevation_data (unit_params 0.3) = Ok s
    ∧ take (_h s) (_active s) = Ok h0
    ∧ sub_step pow_special (set_hnew h0 s) (_active s) (PyFloat 60)
        (PyFloat 0) (RainScalar 0.00001) false false
      = Ok (s1, elapsed1, used)
    ∧ PrimFloat.is_nan used = true
    ∧ update_the_actual_fields s1 (_active s) = Ok s'
    ∧ run_one_step_steps pow_special 1 s (PyFloat 60) (RainScalar 0.00001)
        false false
      = Some (Ok (s', [used])).
Proof.
  eexists _, _, _, _, _, _.
  match goal with
  | |- ?A ∧ ?B ∧ ?C ∧ ?D ∧ ?E ∧ _ =>
      assert A as Hinit by (vm_compute; reflexivity);
      assert B as Hh0 by (vm_compute; reflexivity);
      assert C as Hs by (vm_compute; reflexivity);
      assert D as Hnan by reflexivity;
      assert E as Hfin by (vm_compute; reflexivity)
  end.
  split; [exact Hinit|]. split; [exact Hh0|]. split; [exact Hs|].
  split; [exact Hnan|]. split; [exact Hfin|].
  rewrite (X16_a_NaN_sub_step_ends_the_loop pow_special 0 _ (PyFloat 60)
             (RainScalar 0.00001) false _ _ _ _ Hh0 eq_refl Hs Hnan).
  by rewrite Hfin.
Defined.

(** X17.  On a grid whose arrays fit its nodes (a neighbour table of node
    ids and [BAD_INDEX], output fields and a rainfall array, if any, with an
    entry per node), on an instance with as many anchor positions as
    fixed-gradient positions, [run_one_step] with a [float64] step and
    without [update_topography] raises nothing: after any number of passes
    through its loop it has returned or is still in the loop. *)
Theorem X17_run_one_step_raises_nothing_on_a_fitting_grid :
  ∀ np_power g p s n fuel x rain track,
    well_formed g → output_fields_fit g → adjacency_fits g →
    0 < number_of_nodes g → rainfall_fits g rain →
    reached np_power g p s n →
    length (fixed_grad_anchors_active s)
    = length (fixed_grad_nodes_active s) →
    run_one_step np_power fuel s (NpFloat64 x) rain false track = None
    ∨ ∃ s', run_one_step np_power fuel s (NpFloat64 x) rain false track
            = Some (Ok s').
Proof.
  intros np_power g p s n fuel x rain track Hwf Hfit Hadj HN Hrain Hr Hfg.
  destruct (take_active_returns _ _ _ _ _ Hwf Hr) as [h0 Hh0].
  pose proof (reached_working_copy _ _ _ _ _ _ Hr Hh0) as Hr0.
  unfold run_one_step, run_one_step_steps. rewrite Hh0. simpl.
  destruct (while_loop_raises_nothing np_power g p x rain track Hwf Hadj HN
              Hrain fuel (set_hnew h0 s) n (PyFloat 0) Hr0
              (ex_intro _ h0 eq_refl) Hfg)
    as [Hl|(s2 & steps & n2 & Hl & Hr2 & [h2 Hh2] & Ea)];
    simpl in Hl; rewrite Hl; [by left|].
  right.
  destruct (update_the_actual_fields_returns _ _ _ _ _ _ Hwf Hfit Hr2 Hh2)
    as (h & _ & Hfin).
  simpl in Ea. rewrite <- Ea, Hfin. by eexists.
Qed.

Lemma X17_run_one_step_raises_nothing_on_a_fitting_grid_witness :
  ∃ s,
    __init__ pow_special rising (unit_params 0.3) = Ok s
    ∧ (run_one_step pow_special 2 s (NpFloat64 0.5) (RainScalar 0.00001)
         false false = None
       ∨ ∃ s', run_one_step pow_special 2 s (NpFloat64 0.5)
                 (RainScalar 0.00001) false false = Some (Ok s'))
    ∧ run_one_step pow_special 2 s (NpFloat64 0.5) (RainScalar 0.00001)
        false false = None
    ∧ ∃ s', run_one_step pow_special 3 s (NpFloat64 0.5)
              (RainScalar 0.00001) false false = Some (Ok s').
Proof.
  eexists.
  match goal with
  | |- ?A ∧ _ => assert A as Hinit by (vm_compute; reflexivity)
  end.
  split; [exact Hinit|]. split; [|split].
  - apply (X17_run_one_step_raises_nothing_on_a_fitting_grid pow_special
             rising (unit_params 0.3) _ 0 2 0.5 (RainScalar 0.00001) false
             (raster3x3_well_formed _ _ _ _ _)
             (raster3x3_output_fields_fit _ _ _ _ _)).
    + apply raster3x3_adjacency_fits.
    + vm_compute. lia.
    + exact I.
    + exact (reached_init _ _ _ _ Hinit).
    + reflexivity.
  - vm_compute. reflexivity.
  - eexists. vm_compute. reflexivity.
Defined.

(** X18.  In every pass through the loop body of [run_one_step], the
    working depths right after the statement that sets the boundary
    conditions hold, at every active fixed-value node, the depth that node
    had at construction; the fluxes of the pass are applied to those
    depths afterwards. *)
Theorem X18_fixed_value_nodes_are_pinned_before_the_fluxes :
  ∀ np_power g p s n active dt elapsed rain upd track s' elapsed' used,
    reached np_power g p s n →
    sub_step np_power s active dt elapsed rain upd track
    = Ok (s', elapsed', used) →
    ∃ pinned,
      pass_through_body np_power s active dt elapsed rain upd track
        s' used pinned
      ∧ pinned_to_configured_depth g s pinned.
Proof.
  intros np_power g p s n active dt elapsed rain upd track s' elapsed' used
    Hreached Hstep.
  apply reached_consistent in Hreached.
  apply sub_step_Ok in Hstep as (_ & pinned & Hpass).
  exists pinned. split; [done|].
  destruct Hpass
    as (s1 & internal_dt & qx_left & qx_right & qy_top & qy_bottom &
        h0 & h1 & h3 & h4 &
        Hcalc & _ & _ & _ & _ & _ & _ & _ & Hpin & _).
  pose proof (consistent_calc _ _ _ _ _ _ _ _ Hreached Hcalc) as Hc1.
  pose proof (set_the_BCs_pins _ _ _ _ _ Hc1 Hpin) as Hp.
  apply calc_grads_and_timesteps_Ok in Hcalc as (_ & [_ Ea _ _ _ _ _ _ _] & _).
  unfold pinned_to_configured_depth in *. by rewrite <- Ea.
Qed.

(** The first pass of a call of [run_one_step] on [rising]. *)
Lemma X18_fixed_value_nodes_are_pinned_before_the_fluxes_witness :
  ∃ s0 s s' elapsed' used,
    __init__ pow_special rising (unit_params 0.3) = Ok s0 ∧
    take (_h s0) (_active s0) = Ok [1%float] ∧
    s = set_hnew [1%float] s0 ∧
    sub_step pow_special s [4%Z] (PyFloat 0.2) (PyFloat 0)
      (RainScalar 0.00001) false false = Ok (s', elapsed', used) ∧
    ∃ pinned,
      pass_through_body pow_special s [4%Z] (PyFloat 0.2) (PyFloat 0)
        (RainScalar 0.00001) false false s' used pinned
      ∧ pinned_to_configured_depth rising s pinned.
Proof.
  eexists _, _, _, _, _. split; [vm_compute; reflexivity|].
  split; [vm_compute; reflexivity|]. split; [reflexivity|].
  split; [vm_compute; reflexivity|].
  eapply (X18_fixed_value_nodes_are_pinned_before_the_fluxes
            pow_special rising (unit_params 0.3) _ 0 _
            (PyFloat 0.2) (PyFloat 0) (RainScalar 0.00001) false false).
  - apply reached_working_copy; [|vm_compute; reflexivity].
    apply reached_init. vm_compute. reflexivity.
  - vm_compute. reflexivity.
Defined.
